(** * Load-balancing simulation (rrvsop/Simulation.py)

    A shallow embedding of the routing policies and of the threaded
    simulation harness [run_simulation], together with the properties the
    specification states about them.

    - Python values: floats (bandwidths, request sizes, latencies, clock
      readings) are rationals [Q]; counters and request ids are [nat];
      exceptions are values of [exn], and a call that may raise returns a
      sum [exn + A].
    - The policies are functions on a snapshot of the pool that return the
      position of the chosen server; the two round-robin closures carry
      their captured cells as records.
    - A call of [run_simulation] is a transition system over the main
      thread, the dispatcher thread and one worker thread per server.
    - The class [Server] and the function [calculate_metrics] live in
      Server.py, which is not among the sources; what is used of them is
      modelled from the specification and marked as such. *)

From Stdlib Require Import ZArith QArith Qround Lia.
From stdpp Require Import base list strings.

Local Open Scope nat_scope.

(** ** Python values *)

(** The exceptions that the modelled code can raise. *)
Inductive exn : Type :=
| KeyError            (* [d[k]] on a missing key *)
| ZeroDivisionError   (* [a % 0] *)
| ValueError          (* [min] of an empty sequence *)
| IndexError          (* [xs[i]] out of range *)
| InvalidRequest.     (* a request of non-positive size *)

(** [int(x)] on a float: truncation toward zero. *)
Definition py_int (x : Q) : Z := Z.quot (Qnum x) (Z.pos (Qden x)).

(** [a % b] on non-negative integers; raises [ZeroDivisionError] when [b = 0]. *)
Definition py_mod (a b : nat) : exn + nat :=
  match b with
  | O => inl ZeroDivisionError
  | S _ => inr (a mod b)
  end.

(** [min(xs, key=...)], given the keys: the running best is replaced only by
    a strictly smaller key, so the first minimal element is returned (here,
    its position).  Raises [ValueError] on an empty sequence. *)
Fixpoint min_from {K : Type} (ltb : K → K → bool)
    (best : nat) (best_key : K) (i : nat) (keys : list K) : nat :=
  match keys with
  | [] => best
  | k :: keys' =>
      if ltb k best_key then min_from ltb i k (S i) keys'
      else min_from ltb best best_key (S i) keys'
  end.

Definition py_min {K : Type} (ltb : K → K → bool) (keys : list K) : exn + nat :=
  match keys with
  | [] => inl ValueError
  | k :: keys' => inr (min_from ltb 0 k 1 keys')
  end.

Definition Qltb (x y : Q) : bool := negb (Qle_bool y x).

(** ** Server (Server.py is not part of the sources) *)

(** A completed-result record: (request id, server name, latency, time). *)
Definition Result : Type := nat * string * Q * Q.

(** Modelled from the spec: the class [Server] (Server.py is missing): it
    "owns a bandwidth constant, a pending-request queue, and accumulated
    per-request results"; the queue is "a FIFO queue of pending requests
    (each: request id, size in bytes)".  The attributes read by
    Simulation.py are [name], [bandwidth], [pending_requests], [result] and
    [total_requests]. *)
Record Server : Type := mkServer {
  name : string;
  bandwidth : Q;
  pending_requests : list (nat * Q);
  result : list Result
}.

(** Modelled from the spec: [Server.reset] (Server.py is missing):
    "clears pending queue and result history.  No return value, no failure
    mode." *)
Definition reset (s : Server) : Server :=
  mkServer (name s) (bandwidth s) [] [].

(** Modelled from the spec: [Server.receive_request] (Server.py is missing):
    "enqueues (id, size) onto the pending queue. ... Fails only if size ≤ 0
    ... rejects it as InvalidRequest." *)
Definition receive_request (id : nat) (size : Q) (s : Server) : exn + Server :=
  if Qle_bool size 0 then inl InvalidRequest
  else inr (mkServer (name s) (bandwidth s)
                     (pending_requests s ++ [(id, size)]) (result s)).

(** Modelled from the spec: one iteration of [Server.process] with a
    non-empty queue (Server.py is missing): "dequeue one request, compute
    latency = size / bandwidth ..., append a result record with the latency
    and the elapsed time".  The elapsed time is a clock reading [now]
    supplied by the environment. *)
Definition process_one (now : Q) (s : Server) : option Server :=
  match pending_requests s with
  | [] => None
  | (id, size) :: rest =>
      Some (mkServer (name s) (bandwidth s) rest
                     (result s ++ [(id, name s, (size / bandwidth s)%Q, now)]))
  end.

(** Modelled from the spec: [Server.estimate_latency] (Server.py is missing):
    "returns aggregate pending bytes / bandwidth". *)
Definition estimate_latency (s : Server) : Q :=
  (foldr Qplus 0%Q (snd <$> pending_requests s) / bandwidth s)%Q.

(** Modelled from the spec: [Server.total_requests] (Server.py is missing):
    a "read-only reducer over the result history". *)
Definition total_requests (s : Server) : nat := length (result s).

(** ** Routing policies (Simulation.py, lines 14-40) *)

(** The cell [rr_index] captured by the closure that [round_robin] returns. *)
Record rr_closure : Type := mkRR { rr_index : nat }.

(** [round_robin(servers)]: a fresh closure, counter at 0. *)
Definition round_robin (servers : list Server) : rr_closure := mkRR 0.

(** [inner(_)] of [round_robin]; the argument is ignored, the captured pool
    is used.  The result is the position in the pool of the server returned. *)
Definition round_robin_inner (servers : list Server) (c : rr_closure)
  : exn + (nat * rr_closure) :=
  match py_mod (rr_index c) (length servers) with
  | inl e => inl e
  | inr i =>
      match servers !! i with
      | None => inl IndexError
      | Some _ => inr (i, mkRR (rr_index c + 1))
      end
  end.

(** The list [weighted_list] and the cell [idx] captured by the closure that
    [weighted_round_robin] returns. *)
Record wrr_closure : Type := mkWRR { weighted_list : list nat; idx : nat }.

(** The loop of lines 25-26: [weighted_list.extend([i] * int(w))]; a
    non-positive multiplier gives the empty list. *)
Definition extend_weighted (acc : list nat) (iw : nat * Q) : list nat :=
  acc ++ replicate (Z.to_nat (py_int iw.2)) iw.1.

Definition build_weighted_list (weights : list Q) : list nat :=
  foldl extend_weighted [] (imap pair weights).

Definition weighted_round_robin (servers : list Server) : wrr_closure :=
  mkWRR (build_weighted_list (bandwidth <$> servers)) 0.

(** [inner(_)] of [weighted_round_robin]. *)
Definition weighted_round_robin_inner (servers : list Server) (c : wrr_closure)
  : exn + (nat * wrr_closure) :=
  match py_mod (idx c) (length (weighted_list c)) with
  | inl e => inl e
  | inr p =>
      match weighted_list c !! p with
      | None => inl IndexError
      | Some i =>
          match servers !! i with
          | None => inl IndexError
          | Some _ => inr (i, mkWRR (weighted_list c) (idx c + 1))
          end
      end
  end.

(** [least_connections(servers)]: [min] by queue length. *)
Definition least_connections (servers : list Server) : exn + nat :=
  py_min Nat.ltb ((λ s, length (pending_requests s)) <$> servers).

(** [my_optimizer(servers)]: [min] by estimated latency. *)
Definition my_optimizer (servers : list Server) : exn + nat :=
  py_min Qltb (estimate_latency <$> servers).

(** The values of [algorithm_map] (lines 97-102). *)
Inductive Policy : Type := RoundRobin | WeightedRR | LeastConn | Optimized.

(** The module-level pool (lines 91-96). *)
Definition servers : list Server :=
  [mkServer "Server1" 1000 [] []; mkServer "Server2" 800 [] [];
   mkServer "Server3" 900 [] []; mkServer "Server4" 700 [] []].

(** [algorithm_map[key]], [None] standing for the [KeyError] of a missing
    key.  No value of the dictionary is [None], so the test of line 46 never
    fires. *)
Definition algorithm_map (key : string) : option Policy :=
  if String.eqb key "Round Robin" then Some RoundRobin
  else if String.eqb key "Weighted RR" then Some WeightedRR
  else if String.eqb key "Least Conn" then Some LeastConn
  else if String.eqb key "Optimized" then Some Optimized
  else None.

(** ** The harness [run_simulation] (lines 43-89)

    One call of [run_simulation] runs a main thread, one dispatcher thread
    ([request_thread], running [send_requests]) and one worker thread per
    server (running [Server.process]).  The call is modelled as a transition
    system: a state holds the shared objects and the control point of every
    thread, and [step] executes one atomic action of one thread.  An
    interleaving is given by a schedule, the list of the threads that move.
    A call of [select_fn], a call of [receive_request] and one iteration of
    the worker loop are each taken as one action. *)

(** Control points of the main thread. *)
Inductive main_pc : Type :=
| MLookup                 (* line 45 *)
| MReset (i : nat)        (* lines 50-51, about to reset [servers[i]] *)
| MSpawn (i : nat)        (* lines 57-60, about to start the worker of [servers[i]] *)
| MStartDispatcher        (* lines 67-69 *)
| MJoinDispatcher         (* line 70 *)
| MSetStop                (* line 71 *)
| MJoinWorkers (i : nat)  (* lines 73-74, about to join [threads[i]] *)
| MCollect                (* every worker has been joined; lines 76-89 only
                             read the servers and are not modelled further *)
| MRaised (e : exn).      (* the call has raised [e] *)

(** A worker thread, once started. *)
Inductive worker_state : Type := WRunning | WExited.

Global Instance worker_state_eq_dec : EqDecision worker_state.
Proof. solve_decision. Defined.

(** The dispatcher thread: [DSelect k] is about to test the loop and call
    [select_fn] for the request of index [k] (id [k+1]); [DEnqueue k i] has
    selected [servers[i]] and is about to call its [receive_request].  An
    exception raised in the thread ends the thread only ([DFailed]): the main
    thread's [join] returns normally. *)
Inductive dispatcher_state : Type :=
| DNotStarted
| DSelect (k : nat)
| DEnqueue (k i : nat)
| DFinished
| DFailed (e : exn).

Record State : Type := mkState {
  pool : list Server;               (* the module-level list [servers] *)
  rr : rr_closure;                  (* closure of algorithm_map["Round Robin"] *)
  wrr : wrr_closure;                (* closure of algorithm_map["Weighted RR"] *)
  select_fn : option Policy;        (* local [select_fn], once looked up *)
  pc : main_pc;
  stop_event : bool;
  threads : list worker_state;      (* local [threads] *)
  request_thread : dispatcher_state;
  dispatched : list nat             (* history: the server of every request
                                       enqueued so far, in order; not a
                                       variable of the program *)
}.

Definition set_pool (x : list Server) (st : State) : State :=
  mkState x (rr st) (wrr st) (select_fn st) (pc st) (stop_event st)
          (threads st) (request_thread st) (dispatched st).
Definition set_rr (x : rr_closure) (st : State) : State :=
  mkState (pool st) x (wrr st) (select_fn st) (pc st) (stop_event st)
          (threads st) (request_thread st) (dispatched st).
Definition set_wrr (x : wrr_closure) (st : State) : State :=
  mkState (pool st) (rr st) x (select_fn st) (pc st) (stop_event st)
          (threads st) (request_thread st) (dispatched st).
Definition set_select_fn (x : option Policy) (st : State) : State :=
  mkState (pool st) (rr st) (wrr st) x (pc st) (stop_event st)
          (threads st) (request_thread st) (dispatched st).
Definition set_pc (x : main_pc) (st : State) : State :=
  mkState (pool st) (rr st) (wrr st) (select_fn st) x (stop_event st)
          (threads st) (request_thread st) (dispatched st).
Definition set_stop_event (x : bool) (st : State) : State :=
  mkState (pool st) (rr st) (wrr st) (select_fn st) (pc st) x
          (threads st) (request_thread st) (dispatched st).
Definition set_threads (x : list worker_state) (st : State) : State :=
  mkState (pool st) (rr st) (wrr st) (select_fn st) (pc st) (stop_event st)
          x (request_thread st) (dispatched st).
Definition set_request_thread (x : dispatcher_state) (st : State) : State :=
  mkState (pool st) (rr st) (wrr st) (select_fn st) (pc st) (stop_event st)
          (threads st) x (dispatched st).
Definition set_dispatched (x : list nat) (st : State) : State :=
  mkState (pool st) (rr st) (wrr st) (select_fn st) (pc st) (stop_event st)
          (threads st) (request_thread st) x.

(** The state in which [run_simulation] is entered: the pool and the policy
    closures are module-level objects and keep what earlier calls left. *)
Definition enter (servers : list Server) (r : rr_closure) (w : wrr_closure) : State :=
  mkState servers r w None MLookup false [] DNotStarted [].

(** Lines 91-102 followed by the first call: the closures are fresh. *)
Definition first_call (servers : list Server) : State :=
  enter servers (round_robin servers) (weighted_round_robin servers).

(** A further call, after a call that ended in [st]. *)
Definition next_call (st : State) : State :=
  enter (pool st) (rr st) (wrr st).

(** [select_fn(servers)] (line 64). *)
Definition call_policy (p : Policy) (st : State) : exn + (nat * State) :=
  match p with
  | RoundRobin =>
      match round_robin_inner (pool st) (rr st) with
      | inl e => inl e
      | inr (i, c) => inr (i, set_rr c st)
      end
  | WeightedRR =>
      match weighted_round_robin_inner (pool st) (wrr st) with
      | inl e => inl e
      | inr (i, c) => inr (i, set_wrr c st)
      end
  | LeastConn =>
      match least_connections (pool st) with
      | inl e => inl e
      | inr i => inr (i, st)
      end
  | Optimized =>
      match my_optimizer (pool st) with
      | inl e => inl e
      | inr i => inr (i, st)
      end
  end.

Section Run.

(** The arguments [request_sizes] and [algorithm] of the call. *)
Variable request_sizes : list Q.
Variable algorithm : string.

(** One action of the main thread; [None] when it is blocked in a [join]
    or has left the concurrent part. *)
Definition step_main (st : State) : option State :=
  match pc st with
  | MLookup =>
      match algorithm_map algorithm with
      | None => Some (set_pc (MRaised KeyError) st)
      | Some p => Some (set_pc (MReset 0) (set_select_fn (Some p) st))
      end
  | MReset i =>
      match pool st !! i with
      | Some s => Some (set_pc (MReset (S i)) (set_pool (<[i := reset s]> (pool st)) st))
      | None => Some (set_pc (MSpawn 0) (set_threads [] (set_stop_event false st)))
      end
  | MSpawn i =>
      match pool st !! i with
      | Some _ => Some (set_pc (MSpawn (S i)) (set_threads (threads st ++ [WRunning]) st))
      | None => Some (set_pc MStartDispatcher st)
      end
  | MStartDispatcher =>
      Some (set_pc MJoinDispatcher (set_request_thread (DSelect 0) st))
  | MJoinDispatcher =>
      match request_thread st with
      | DFinished | DFailed _ => Some (set_pc MSetStop st)
      | _ => None
      end
  | MSetStop => Some (set_pc (MJoinWorkers 0) (set_stop_event true st))
  | MJoinWorkers i =>
      match threads st !! i with
      | Some WExited => Some (set_pc (MJoinWorkers (S i)) st)
      | Some WRunning => None
      | None => Some (set_pc MCollect st)
      end
  | MCollect => None
  | MRaised _ => None
  end.

(** One action of the dispatcher thread (lines 62-65). *)
Definition step_dispatcher (st : State) : option State :=
  match request_thread st with
  | DSelect k =>
      match request_sizes !! k with
      | None => Some (set_request_thread DFinished st)
      | Some _ =>
          match select_fn st with
          | None => None
          | Some p =>
              match call_policy p st with
              | inl e => Some (set_request_thread (DFailed e) st)
              | inr (i, st') => Some (set_request_thread (DEnqueue k i) st')
              end
          end
      end
  | DEnqueue k i =>
      match request_sizes !! k, pool st !! i with
      | Some size, Some s =>
          match receive_request (k + 1) size s with
          | inl e => Some (set_request_thread (DFailed e) st)
          | inr s' =>
              Some (set_request_thread (DSelect (S k))
                      (set_dispatched (dispatched st ++ [i])
                         (set_pool (<[i := s']> (pool st)) st)))
          end
      | _, _ => None
      end
  | _ => None
  end.

(** Modelled from the spec: one iteration of the loop of [Server.process]
    run by the worker of [servers[i]] (Server.py is missing): "if the
    pending queue is non-empty, dequeue one request ...; if the queue is
    empty, check whether stopSignal has been raised — if so, exit the
    loop"; otherwise the worker polls again. *)
Definition step_worker (i : nat) (now : Q) (st : State) : option State :=
  match threads st !! i, pool st !! i with
  | Some WRunning, Some s =>
      match process_one now s with
      | Some s' => Some (set_pool (<[i := s']> (pool st)) st)
      | None =>
          if stop_event st then Some (set_threads (<[i := WExited]> (threads st)) st)
          else Some st
      end
  | _, _ => None
  end.

(** The threads; a worker step carries the clock reading it records. *)
Inductive thread : Type :=
| Main
| Dispatcher
| Worker (i : nat) (now : Q).

Definition step (t : thread) (st : State) : option State :=
  match t with
  | Main => step_main st
  | Dispatcher => step_dispatcher st
  | Worker i now => step_worker i now st
  end.

(** Running a schedule; [None] when a scheduled thread cannot move. *)
Fixpoint run (sched : list thread) (st : State) : option State :=
  match sched with
  | [] => Some st
  | t :: sched' =>
      match step t st with
      | Some st' => run sched' st'
      | None => None
      end
  end.

(** The states a call can reach from [st0]. *)
Definition reachable (st0 st : State) : Prop :=
  ∃ sched, run sched st0 = Some st.

(** A deterministic scheduler: the first thread that can move, among
    main, dispatcher, workers in pool order; used to exhibit complete
    executions. *)
Fixpoint first_worker (i n : nat) (st : State) : option thread :=
  match n with
  | O => None
  | S n' =>
      match step_worker i 0%Q st with
      | Some _ => Some (Worker i 0%Q)
      | None => first_worker (S i) n' st
      end
  end.

Definition pick (st : State) : option thread :=
  match step_main st with
  | Some _ => Some Main
  | None =>
      match step_dispatcher st with
      | Some _ => Some Dispatcher
      | None => first_worker 0 (length (pool st)) st
      end
  end.

Fixpoint sequential_schedule (fuel : nat) (st : State) : list thread :=
  match fuel with
  | O => []
  | S fuel' =>
      match pick st with
      | None => []
      | Some t =>
          match step t st with
          | Some st' => t :: sequential_schedule fuel' st'
          | None => []
          end
      end
  end.

Definition sequential (fuel : nat) (st : State) : option State :=
  run (sequential_schedule fuel st) st.

End Run.

(** Per-server totals, as read at line 87. *)
Definition totals (st : State) : list nat := total_requests <$> pool st.

(** The request ids recorded on a server. *)
Definition result_ids (s : Server) : list nat := (λ r : Result, r.1.1.1) <$> result s.

(** The state in which a call is entered after the round-robin closure has
    been called [c1] times and the weighted one [c2] times: the weighted
    list was built once, from the same pool (line 99). *)
Definition entry (servers : list Server) (c1 c2 : nat) : State :=
  enter servers (mkRR c1) (mkWRR (build_weighted_list (bandwidth <$> servers)) c2).

(** The first [m] servers that successive calls of the weighted round-robin
    closure return, up to the first call that raises. *)
Fixpoint selections (servers : list Server) (c : wrr_closure) (m : nat) : list nat :=
  match m with
  | O => []
  | S m' =>
      match weighted_round_robin_inner servers c with
      | inl _ => []
      | inr (i, c') => i :: selections servers c' m'
      end
  end.

(** The same for the round-robin closure. *)
Fixpoint rr_selections (servers : list Server) (c : rr_closure) (m : nat) : list nat :=
  match m with
  | O => []
  | S m' =>
      match round_robin_inner servers c with
      | inl _ => []
      | inr (i, c') => i :: rr_selections servers c' m'
      end
  end.

(** Number of occurrences of [i] in a list of positions. *)
Definition occurrences (i : nat) (l : list nat) : nat :=
  length (filter (λ x, x = i) l).

(** The recursive reading of the loop that builds [weighted_list]. *)
Fixpoint weighted_from (i : nat) (weights : list Q) : list nat :=
  match weights with
  | [] => []
  | w :: ws => replicate (Z.to_nat (py_int w)) i ++ weighted_from (S i) ws
  end.


(** The number of copies of a server's position in [weighted_list], and the
    sums of these and of the truncated bandwidths over a pool. *)
Definition weight (s : Server) : nat := Z.to_nat (py_int (bandwidth s)).

Definition total_weight (servers : list Server) : nat :=
  sum_list (weight <$> servers).

Definition int_sum (servers : list Server) : Z :=
  foldr Z.add 0%Z ((λ s, py_int (bandwidth s)) <$> servers).

(** ** Metrics (the function [calculate_metrics] of Server.py is not part of
    the sources) *)

Definition sum_squares (xs : list nat) : nat := sum_list ((λ x, x * x) <$> xs).

(** Modelled from the spec: the fairness index computed by
    [calculate_metrics] (Server.py is missing): "Jain's fairness index over
    per-server total request counts: (Σxᵢ)² / (n · Σxᵢ²), where xᵢ is server
    i's total requests and n is server count ...  Defined as 0 if all xᵢ are
    0 (no requests processed) to avoid a 0/0 result." *)
Definition fairness_index (xs : list nat) : Q :=
  if forallb (Nat.eqb 0) xs then 0%Q
  else (inject_Z (Z.of_nat (sum_list xs * sum_list xs))
        / inject_Z (Z.of_nat (length xs * sum_squares xs)))%Q.

(** The fairness index of a run that ended in [st]. *)
Definition fairness (st : State) : Q := fairness_index (totals st).

(** ** Invariant of a call *)

(** The ids (1-based) of the requests that a dispatch history [log] sends to
    server [j], the first entry of [log] being request number [k + 1]. *)
Fixpoint ids_from (k j : nat) (log : list nat) : list nat :=
  match log with
  | [] => []
  | i :: log' =>
      if decide (i = j) then S k :: ids_from (S k) j log'
      else ids_from (S k) j log'
  end.

Definition ids_for (j : nat) (log : list nat) : list nat := ids_from 0 j log.

Definition dispatcher_done (d : dispatcher_state) : bool :=
  match d with
  | DFinished | DFailed _ => true
  | _ => false
  end.

(** The call has ended: every worker is joined, or the call has raised. *)
Definition terminal (st : State) : bool :=
  match pc st with
  | MCollect | MRaised _ => true
  | _ => false
  end.

(** The main thread is past the reset loop. *)
Definition past_reset (st : State) : bool :=
  match pc st with
  | MLookup | MReset _ | MRaised _ => false
  | _ => true
  end.

Section Invariant.

Variable request_sizes : list Q.
Variable algorithm : string.
(** The pool and the closure counters when the call is entered. *)
Variable servers0 : list Server.
Variables c1 c2 : nat.

Let n := length servers0.
Let R := length request_sizes.
Let wl := build_weighted_list (bandwidth <$> servers0).

(** Names, bandwidths and the weighted list never change. *)
Definition static_inv (st : State) : Prop :=
  name <$> pool st = name <$> servers0 ∧
  bandwidth <$> pool st = bandwidth <$> servers0 ∧
  weighted_list (wrr st) = wl.

(** Nothing has been dispatched and no closure has been called. *)
Definition untouched (st : State) : Prop :=
  request_thread st = DNotStarted ∧ dispatched st = [] ∧
  rr st = mkRR c1 ∧ wrr st = mkWRR wl c2.

Definition selected (st : State) : Prop :=
  select_fn st = algorithm_map algorithm ∧ is_Some (select_fn st).

(** Queue and history of every server hold, in order, the requests the
    dispatch history sends to it. *)
Definition queues_inv (st : State) : Prop :=
  (∀ j s, pool st !! j = Some s →
     result_ids s ++ (fst <$> pending_requests s) = ids_for j (dispatched st)) ∧
  Forall (λ i, i < n) (dispatched st).

(** The dispatcher has enqueued the requests before the one it works on. *)
Definition dispatcher_inv (st : State) : Prop :=
  match request_thread st with
  | DNotStarted => False
  | DSelect k => length (dispatched st) = k ∧ k ≤ R
  | DEnqueue k i => length (dispatched st) = k ∧ k < R ∧ i < n
  | DFinished => length (dispatched st) = R
  | DFailed _ => length (dispatched st) < R
  end.

(** How many calls a closure has received: one per request enqueued, plus
    the one of the request being enqueued. *)
Definition calls_inv (c0 c : nat) (st : State) : Prop :=
  match request_thread st with
  | DEnqueue _ _ => c = c0 + length (dispatched st) + 1
  | DFailed _ => c0 + length (dispatched st) ≤ c ≤ c0 + length (dispatched st) + 1
  | _ => c = c0 + length (dispatched st)
  end.

(** The choice made for the request being enqueued, if any. *)
Definition choices (st : State) : list nat :=
  dispatched st ++
    match request_thread st with
    | DEnqueue _ i => [i]
    | _ => []
    end.

Definition closures_inv (st : State) : Prop :=
  match select_fn st with
  | Some RoundRobin =>
      wrr st = mkWRR wl c2 ∧ calls_inv c1 (rr_index (rr st)) st ∧
      ∀ k i, choices st !! k = Some i → i = (c1 + k) mod n
  | Some WeightedRR =>
      rr st = mkRR c1 ∧ calls_inv c2 (idx (wrr st)) st ∧
      ∀ k i, choices st !! k = Some i → wl !! ((c2 + k) mod length wl) = Some i
  | _ => rr st = mkRR c1 ∧ wrr st = mkWRR wl c2
  end.

Definition running_inv (st : State) : Prop :=
  selected st ∧ queues_inv st ∧ dispatcher_inv st ∧ closures_inv st.

(** A worker that has exited has left an empty queue. *)
Definition exited_inv (st : State) : Prop :=
  ∀ j, threads st !! j = Some WExited →
    ∃ s, pool st !! j = Some s ∧ pending_requests s = [].

Definition inv (st : State) : Prop :=
  static_inv st ∧
  match pc st with
  | MLookup => st = entry servers0 c1 c2
  | MRaised e =>
      algorithm_map algorithm = None ∧
      st = set_pc (MRaised KeyError) (entry servers0 c1 c2)
  | MReset i =>
      selected st ∧ untouched st ∧ threads st = [] ∧ stop_event st = false ∧
      ∀ j, pool st !! j = (if decide (j < i) then reset else id) <$> servers0 !! j
  | MSpawn i =>
      selected st ∧ untouched st ∧ threads st = replicate i WRunning ∧ i ≤ n ∧
      stop_event st = false ∧ pool st = reset <$> servers0
  | MStartDispatcher =>
      selected st ∧ untouched st ∧ threads st = replicate n WRunning ∧
      stop_event st = false ∧ pool st = reset <$> servers0
  | MJoinDispatcher =>
      running_inv st ∧ threads st = replicate n WRunning ∧ stop_event st = false
  | MSetStop =>
      running_inv st ∧ threads st = replicate n WRunning ∧ stop_event st = false ∧
      dispatcher_done (request_thread st) = true
  | MJoinWorkers i =>
      running_inv st ∧ length (threads st) = n ∧ stop_event st = true ∧
      dispatcher_done (request_thread st) = true ∧ exited_inv st ∧
      ∀ j, j < i → threads st !! j = Some WExited
  | MCollect =>
      running_inv st ∧ threads st = replicate n WExited ∧ stop_event st = true ∧
      dispatcher_done (request_thread st) = true ∧ exited_inv st
  end.

(** A variant: every action except a worker's idle poll decreases it. *)
Definition main_rank (p : main_pc) : nat :=
  match p with
  | MLookup => 4 * n + 7
  | MReset i => 3 * n + 6 + (n - i)
  | MSpawn i => n + 5 + 2 * (n - i)
  | MStartDispatcher => n + 4
  | MJoinDispatcher => n + 3
  | MSetStop => n + 2
  | MJoinWorkers i => 1 + (n - i)
  | MCollect | MRaised _ => 0
  end.

Definition dispatcher_rank (d : dispatcher_state) : nat :=
  match d with
  | DNotStarted => 4 * R + 1
  | DSelect k => 4 * (R - k) + 1
  | DEnqueue k _ => 4 * (R - k) - 1
  | DFinished | DFailed _ => 0
  end.

Definition queued (servers : list Server) : nat :=
  sum_list ((λ s, length (pending_requests s)) <$> servers).

Definition running (ws : list worker_state) : nat :=
  length (filter (λ w, w = WRunning) ws).

Definition rank (st : State) : nat :=
  main_rank (pc st) + dispatcher_rank (request_thread st)
  + queued (pool st) + running (threads st).

(** The policy cannot raise on this pool. *)
Definition policy_defined (p : Policy) : Prop :=
  match p with
  | WeightedRR => wl ≠ []
  | _ => servers0 ≠ []
  end.

End Invariant.

(** The exception that a policy raises on an empty pool. *)
Definition empty_pool_error (p : Policy) : exn :=
  match p with
  | RoundRobin | WeightedRR => ZeroDivisionError
  | LeastConn | Optimized => ValueError
  end.

(** ** Sample runs, used to exhibit the properties on concrete inputs *)

Definition sample_sizes : list Q := [600%Q; 700%Q; 800%Q].

(** The state in which a first call, under least connections and the
    deterministic scheduler, ends on the module-level pool. *)
Definition sample_final : State :=
  Eval vm_compute in
    default (first_call servers)
      (sequential sample_sizes "Least Conn" 200 (first_call servers)).

(** The same for a first call under round-robin, and for a second call that
    follows it. *)
Definition sample_final_rr : State :=
  Eval vm_compute in
    default (first_call servers)
      (sequential sample_sizes "Round Robin" 200 (first_call servers)).

Definition sample_final_rr2 : State :=
  Eval vm_compute in
    default (first_call servers)
      (sequential sample_sizes "Round Robin" 200 (next_call sample_final_rr)).

(** The length of the cycle of a counter-based policy. *)
Definition cycle_length (servers : list Server) (p : Policy) : nat :=
  match p with
  | RoundRobin => length servers
  | WeightedRR => length (weighted_list (weighted_round_robin servers))
  | _ => 1
  end.

(** Two calls in a row under round-robin with as many requests as servers. *)
Definition sample_sizes4 : list Q := [600%Q; 700%Q; 800%Q; 900%Q].

Definition sample_final_rr4 : State :=
  Eval vm_compute in
    default (first_call servers)
      (sequential sample_sizes4 "Round Robin" 200 (first_call servers)).

Definition sample_final_rr4b : State :=
  Eval vm_compute in
    default (first_call servers)
      (sequential sample_sizes4 "Round Robin" 200 (next_call sample_final_rr4)).

(** ** The trace of a run and the experiment (lines 76-84 and 91-123) *)

(** [xs[i]] for a list: a negative index counts from the end; the result is
    the position addressed. *)
Definition py_index {A : Type} (l : list A) (i : Z) : exn + nat :=
  if decide (0 ≤ i < Z.of_nat (length l))%Z then inr (Z.to_nat i)
  else if decide (- Z.of_nat (length l) ≤ i < 0)%Z
       then inr (Z.to_nat (Z.of_nat (length l) + i))
       else inl IndexError.

(** An element of a request's ["algorithm"] list (lines 79-84): the keys
    ["name"], ["server"], ["latency"], ["time"]. *)
Record Entry : Type := mkEntry {
  entry_name : string;
  entry_server : string;
  entry_latency : Q;
  entry_time : Q
}.

(** An element of [requests] (lines 115-119): the keys ["request_id"],
    ["size"], ["algorithm"]. *)
Record Request : Type := mkRequest {
  request_id : nat;
  request_size : Q;
  request_algorithm : list Entry
}.

(** [q["algorithm"].append(e)]. *)
Definition add_entry (e : Entry) (q : Request) : Request :=
  mkRequest (request_id q) (request_size q) (request_algorithm q ++ [e]).

(** The body of the inner loop of lines 78-84, for one result record. *)
Definition record_result (algorithm : string) (requests : list Request)
    (r : Result) : exn + list Request :=
  let '(req_id, server_name, latency, time) := r in
  match py_index requests (Z.of_nat req_id - 1) with
  | inl e => inl e
  | inr k => inr (alter (add_entry (mkEntry algorithm server_name latency time)) k requests)
  end.

(** The inner loop of lines 78-84 over the results of one server. *)
Fixpoint record_results (algorithm : string) (requests : list Request)
    (results : list Result) : exn + list Request :=
  match results with
  | [] => inr requests
  | r :: results' =>
      match record_result algorithm requests r with
      | inl e => inl e
      | inr requests' => record_results algorithm requests' results'
      end
  end.

(** The loop of lines 76-84 over the pool.  An exception leaves the loop
    and the call; the result is then the exception alone. *)
Fixpoint collect (algorithm : string) (requests : list Request)
    (servers : list Server) : exn + list Request :=
  match servers with
  | [] => inr requests
  | server :: servers' =>
      match record_results algorithm requests (result server) with
      | inl e => inl e
      | inr requests' => collect algorithm requests' servers'
      end
  end.

(** The entries that the records with id [id] among [results] give. *)
Definition entries_for (algorithm : string) (id : nat) (results : list Result)
  : list Entry :=
  (λ r : Result, mkEntry algorithm r.1.1.2 r.1.2 r.2)
    <$> filter (λ r : Result, r.1.1.1 = id) results.

(** The list [requests] as lines 113-119 build it. *)
Definition init_requests (request_sizes : list Q) : list Request :=
  imap (λ id req, mkRequest (id + 1) req []) request_sizes.

(** [algorithm_map.keys()], in insertion order (lines 97-102). *)
Definition algorithms : list string :=
  ["Round Robin"; "Weighted RR"; "Least Conn"; "Optimized"].

(** A complete call [run_simulation(servers, request_sizes, requests,
    algorithm)] entered in [st0]: the threads run to the point where every
    worker is joined, then the trace is recorded (lines 76-84).  The values
    returned (lines 86-89) depend on [calculate_metrics], [avg_latency] and
    [avg_time] of Server.py, which are not among the sources; they are
    taken to return. *)
Definition run_simulation (request_sizes : list Q) (algorithm : string)
    (st0 : State) (requests : list Request)
    (st : State) (requests' : list Request) : Prop :=
  reachable request_sizes algorithm st0 st ∧ pc st = MCollect ∧
  collect algorithm requests (pool st) = inr requests'.

(** The loop of lines 122-123 over a list of algorithm names: each call is
    entered with the pool and the closures as the call before left them. *)
Fixpoint experiment (request_sizes : list Q) (names : list string)
    (st0 : State) (requests : list Request)
    (st : State) (requests' : list Request) : Prop :=
  match names with
  | [] => st = st0 ∧ requests' = requests
  | a :: names' =>
      ∃ st1 requests1,
        run_simulation request_sizes a (next_call st0) requests st1 requests1 ∧
        experiment request_sizes names' st1 requests1 st requests'
  end.

(** The number of copies of the servers before position [i] in the
    flattened list of weighted round-robin. *)
Definition weight_before (servers : list Server) (i : nat) : nat :=
  total_weight (take i servers).

(** The result records of the pool in the order in which lines 76-78 visit
    them. *)
Definition all_results (servers : list Server) : list Result :=
  foldr (λ s acc, result s ++ acc) [] servers.

(** What the loop of lines 76-84 makes of [requests] when no index is out
    of range: request number [k + 1] gets the entries of the records with
    id [k + 1], in the order of the visit. *)
Definition recorded (algorithm : string) (results : list Result)
    (requests : list Request) : list Request :=
  imap (λ k q, mkRequest (request_id q) (request_size q)
                 (request_algorithm q ++ entries_for algorithm (S k) results))
       requests.

(** ** The records of a call *)

(** The main thread has reset [servers[j]] (lines 50-51). *)
Definition is_reset (j : nat) (st : State) : Prop :=
  match pc st with
  | MLookup | MRaised _ => False
  | MReset i => j < i
  | _ => True
  end.

(** A queued request carries the id and the size of an element of
    [request_sizes]. *)
Definition pending_ok (request_sizes : list Q) (p : nat * Q) : Prop :=
  1 ≤ p.1 ∧ request_sizes !! (p.1 - 1) = Some p.2.

(** A result record of [s] carries the id of a request, the name of [s] and
    the size of the request over the bandwidth of [s]. *)
Definition record_ok (request_sizes : list Q) (s : Server) (r : Result) : Prop :=
  1 ≤ r.1.1.1 ∧
  ∃ size, request_sizes !! (r.1.1.1 - 1) = Some size ∧
          r.1.1.2 = name s ∧ r.1.2 = (size / bandwidth s)%Q.

Definition records_inv (request_sizes : list Q) (st : State) : Prop :=
  ∀ j s, pool st !! j = Some s → is_reset j st →
    Forall (record_ok request_sizes s) (result s) ∧
    Forall (pending_ok request_sizes) (pending_requests s).

(** [e] is an entry that some server of the pool records for a request of
    [size] bytes. *)
Definition entry_of (servers : list Server) (size : Q) (e : Entry) : Prop :=
  ∃ s, s ∈ servers ∧ entry_server e = name s ∧
       entry_latency e = (size / bandwidth s)%Q.

(** ** Properties of the Python primitives *)

Lemma py_int_floor (x : Q) : (0 <= x)%Q → py_int x = Qfloor x.
Proof.
  destruct x as [a b]. unfold Qle, py_int, Qfloor. simpl. intros H.
  rewrite Z.quot_div_nonneg; lia.
Qed.

Lemma py_int_lt_1 (x : Q) : (x < 1)%Q → (py_int x <= 0)%Z.
Proof.
  destruct x as [a b]. unfold Qlt, py_int. simpl. intros H.
  destruct (Z_lt_le_dec a 0) as [Hn | Hp].
  - pose proof (Z.quot_opp_l (- a) (Z.pos b) ltac:(lia)) as Ho.
    rewrite Z.opp_involutive in Ho.
    pose proof (Z.quot_pos (- a) (Z.pos b) ltac:(lia) ltac:(lia)). lia.
  - rewrite Z.quot_small; lia.
Qed.

Lemma py_int_ge_1 (x : Q) : (1 <= x)%Q → (1 <= py_int x)%Z.
Proof.
  destruct x as [a b]. unfold Qle, py_int. simpl. intros H.
  apply Z.quot_le_lower_bound; lia.
Qed.

Lemma py_mod_lt (a b r : nat) : py_mod a b = inr r → r = a mod b ∧ r < b.
Proof.
  unfold py_mod. destruct b as [|b]; [discriminate|].
  intros H. assert (r = a mod S b) as -> by congruence.
  split; [done|]. apply Nat.mod_upper_bound. lia.
Qed.

Section MinFrom.
Context {K : Type} (ltb : K → K → bool).

Lemma min_from_bound (keys : list K) : ∀ best bk i,
  best < i → min_from ltb best bk i keys < i + length keys.
Proof.
  induction keys as [|k keys IH]; intros best bk i Hb; simpl; [lia|].
  destruct (ltb k bk).
  - specialize (IH i k (S i) ltac:(lia)). lia.
  - specialize (IH best bk (S i) ltac:(lia)). lia.
Qed.

Lemma py_min_bound (keys : list K) (r : nat) :
  py_min ltb keys = inr r → r < length keys.
Proof.
  destruct keys as [|k keys]; simpl; [discriminate|].
  intros [= <-]. pose proof (min_from_bound keys 0 k 1 ltac:(lia)). lia.
Qed.

Lemma py_min_nonempty (keys : list K) :
  keys ≠ [] → ∃ r, py_min ltb keys = inr r.
Proof. destruct keys; [done|]. simpl. eauto. Qed.

Lemma py_min_empty : py_min ltb [] = inl ValueError.
Proof. reflexivity. Qed.
End MinFrom.

(** [min_from] over natural keys: the position returned holds a least key,
    and every earlier position holds a strictly larger one. *)
Lemma min_from_nat (keys : list nat) : ∀ (pre : list nat) best bk,
  pre !! best = Some bk →
  (∀ j k, pre !! j = Some k → bk ≤ k) →
  (∀ j k, j < best → pre !! j = Some k → bk < k) →
  ∃ rk, (pre ++ keys) !! min_from Nat.ltb best bk (length pre) keys = Some rk ∧
    (∀ j k, (pre ++ keys) !! j = Some k → rk ≤ k) ∧
    (∀ j k, j < min_from Nat.ltb best bk (length pre) keys →
            (pre ++ keys) !! j = Some k → rk < k).
Proof.
  induction keys as [|k keys IH]; intros pre best bk Hb Hmin Hfirst; simpl.
  - rewrite app_nil_r. eauto.
  - replace (pre ++ k :: keys) with ((pre ++ [k]) ++ keys) by (by rewrite <- app_assoc).
    replace (S (length pre)) with (length (pre ++ [k])) by (rewrite length_app; simpl; lia).
    destruct (Nat.ltb_spec k bk) as [Hlt | Hge].
    + apply IH.
      * rewrite lookup_app_r by lia. by rewrite Nat.sub_diag.
      * intros j k' Hj. apply lookup_app_Some in Hj as [Hj | [Hl Hj]].
        -- apply Hmin in Hj. lia.
        -- destruct (j - length pre) eqn:E; simpl in Hj; [|done].
           injection Hj as <-. lia.
      * intros j k' Hlt' Hj. rewrite lookup_app_l in Hj by done.
        apply Hmin in Hj. lia.
    + apply IH.
      * rewrite lookup_app_l; [done|]. by apply lookup_lt_Some in Hb.
      * intros j k' Hj. apply lookup_app_Some in Hj as [Hj | [Hl Hj]].
        -- by apply Hmin in Hj.
        -- destruct (j - length pre) eqn:E; simpl in Hj; [|done].
           injection Hj as <-. lia.
      * intros j k' Hlt' Hj. apply lookup_lt_Some in Hb.
        rewrite lookup_app_l in Hj by lia. by apply Hfirst in Hj.
Qed.

(** ** Least connections *)

(** C6: on a non-empty pool, [least_connections] returns a server whose
    pending queue has the minimum length over the pool, and every server
    before it in pool order has a strictly longer queue (the first server
    achieving the minimum is returned). *)
Theorem least_connections_first_min (servers : list Server) :
  servers ≠ [] →
  ∃ i s, least_connections servers = inr i ∧ servers !! i = Some s ∧
    (∀ j t, servers !! j = Some t →
       length (pending_requests s) ≤ length (pending_requests t)) ∧
    (∀ j t, j < i → servers !! j = Some t →
       length (pending_requests s) < length (pending_requests t)).
Proof.
  destruct servers as [|s0 rest]; [done|]. intros _.
  unfold least_connections. simpl.
  set (key := λ s : Server, length (pending_requests s)).
  destruct (min_from_nat (key <$> rest) [key s0] 0 (key s0)) as (rk & Hr & Hmin & Hfirst).
  - done.
  - intros [|j] k; simpl; [|done]. intros [= <-]. lia.
  - intros j k Hj. lia.
  - simpl in Hr, Hmin, Hfirst.
    change (key s0 :: (key <$> rest)) with (key <$> (s0 :: rest)) in *.
    set (i := min_from Nat.ltb 0 (key s0) 1 (key <$> rest)) in *.
    rewrite list_lookup_fmap in Hr.
    destruct ((s0 :: rest) !! i) as [s|] eqn:Hs; [|done].
    simpl in Hr. injection Hr as <-.
    exists i, s. split_and!; [done|done| |].
    + intros j t Ht. apply (Hmin j). by rewrite list_lookup_fmap, Ht.
    + intros j t Hlt Ht. apply (Hfirst j); [done|]. by rewrite list_lookup_fmap, Ht.
Qed.

Lemma least_connections_first_min_witness :
  ∃ i s, least_connections [mkServer "A" 1000 [(1, 5%Q); (2, 5%Q)] [];
                            mkServer "B" 800 [(3, 5%Q)] [];
                            mkServer "C" 900 [(4, 5%Q)] []] = inr i ∧
    [mkServer "A" 1000 [(1, 5%Q); (2, 5%Q)] [];
     mkServer "B" 800 [(3, 5%Q)] [];
     mkServer "C" 900 [(4, 5%Q)] []] !! i = Some s ∧
    (∀ j t, [mkServer "A" 1000 [(1, 5%Q); (2, 5%Q)] [];
             mkServer "B" 800 [(3, 5%Q)] [];
             mkServer "C" 900 [(4, 5%Q)] []] !! j = Some t →
       length (pending_requests s) ≤ length (pending_requests t)) ∧
    (∀ j t, j < i →
       [mkServer "A" 1000 [(1, 5%Q); (2, 5%Q)] [];
        mkServer "B" 800 [(3, 5%Q)] [];
        mkServer "C" 900 [(4, 5%Q)] []] !! j = Some t →
       length (pending_requests s) < length (pending_requests t)).
Proof. apply least_connections_first_min. discriminate. Defined.

(** ** Weighted round-robin: the flattened sequence *)

Lemma foldl_extend_weighted (ws : list Q) : ∀ (f : nat → Q → nat * Q) k acc,
  (∀ i w, f i w = (k + i, w)) →
  foldl extend_weighted acc (imap f ws) = acc ++ weighted_from k ws.
Proof.
  induction ws as [|w ws IH]; intros f k acc Hf; simpl.
  - by rewrite app_nil_r.
  - rewrite (IH (f ∘ S) (S k)).
    + unfold extend_weighted. rewrite Hf. simpl.
      by rewrite Nat.add_0_r, <- app_assoc.
    + intros i w'. simpl. rewrite Hf. f_equal. lia.
Qed.

Lemma build_weighted_list_from (ws : list Q) :
  build_weighted_list ws = weighted_from 0 ws.
Proof.
  unfold build_weighted_list.
  by rewrite (foldl_extend_weighted ws pair 0 []).
Qed.

Lemma occurrences_app (i : nat) (l1 l2 : list nat) :
  occurrences i (l1 ++ l2) = occurrences i l1 + occurrences i l2.
Proof. unfold occurrences. by rewrite filter_app, length_app. Qed.

Lemma occurrences_replicate (i k j : nat) :
  occurrences i (replicate k j) = if decide (j = i) then k else 0.
Proof.
  unfold occurrences. induction k as [|k IH]; simpl.
  - by destruct (decide (j = i)).
  - rewrite filter_cons. destruct (decide (j = i)); simpl; by rewrite IH.
Qed.

Lemma occurrences_zero (i : nat) (l : list nat) :
  occurrences i l = 0 ↔ i ∉ l.
Proof.
  unfold occurrences. induction l as [|x l IH]; simpl.
  - split; [intros _; apply not_elem_of_nil | done].
  - rewrite filter_cons, not_elem_of_cons. destruct (decide (x = i)); simpl.
    + split; [done | intros [? _]; congruence].
    + rewrite IH. split; [intros ?; split; [congruence | done] | by intros [_ ?]].
Qed.

Lemma occurrences_weighted_from (ws : list Q) : ∀ k i,
  occurrences i (weighted_from k ws) =
    if decide (k ≤ i) then
      match ws !! (i - k) with
      | Some w => Z.to_nat (py_int w)
      | None => 0
      end
    else 0.
Proof.
  induction ws as [|w ws IH]; intros k i; simpl.
  - by destruct (decide (k ≤ i)).
  - rewrite occurrences_app, occurrences_replicate, IH.
    destruct (decide (k = i)) as [-> | Hne].
    + rewrite Nat.sub_diag. simpl.
      destruct (decide (i ≤ i)); [|lia]. destruct (decide (S i ≤ i)); lia.
    + destruct (decide (k ≤ i)); destruct (decide (S k ≤ i)); try lia.
      replace (i - k) with (S (i - S k)) by lia. done.
Qed.

Lemma length_weighted_from (ws : list Q) : ∀ k,
  length (weighted_from k ws) = sum_list ((λ w, Z.to_nat (py_int w)) <$> ws).
Proof.
  induction ws as [|w ws IH]; intros k; simpl; [done|].
  by rewrite length_app, length_replicate, IH.
Qed.

Lemma Forall_weighted_from (ws : list Q) : ∀ k,
  Forall (λ i, k ≤ i < k + length ws) (weighted_from k ws).
Proof.
  induction ws as [|w ws IH]; intros k; simpl; [constructor|].
  apply Forall_app. split.
  - apply Forall_replicate. lia.
  - eapply Forall_impl; [apply IH|]. simpl. intros. lia.
Qed.

Lemma weighted_list_occurrences (servers : list Server) (i : nat) (s : Server) :
  servers !! i = Some s →
  occurrences i (weighted_list (weighted_round_robin servers)) = weight s.
Proof.
  intros Hs. simpl. rewrite build_weighted_list_from, occurrences_weighted_from.
  destruct (decide (0 ≤ i)); [|lia].
  by rewrite Nat.sub_0_r, list_lookup_fmap, Hs.
Qed.

Lemma weighted_list_length (servers : list Server) :
  length (weighted_list (weighted_round_robin servers)) = total_weight servers.
Proof.
  simpl. rewrite build_weighted_list_from, length_weighted_from.
  unfold total_weight. by rewrite <- list_fmap_compose.
Qed.

Lemma weighted_list_in_range (servers : list Server) :
  Forall (λ i, i < length servers) (weighted_list (weighted_round_robin servers)).
Proof.
  simpl. rewrite build_weighted_list_from.
  eapply Forall_impl; [apply Forall_weighted_from|].
  simpl. intros i. rewrite length_fmap. lia.
Qed.

Lemma total_weight_int_sum (servers : list Server) :
  Forall (λ s, (0 <= bandwidth s)%Q) servers →
  Z.of_nat (total_weight servers) = int_sum servers.
Proof.
  unfold total_weight, int_sum. induction 1 as [|s l Hs _ IH]; [done|].
  rewrite !fmap_cons. cbn [foldr]. rewrite <- IH.
  change (sum_list (weight s :: (weight <$> l)))
    with (weight s + sum_list (weight <$> l)).
  rewrite Nat2Z.inj_add. unfold weight.
  rewrite Z2Nat.id; [done|]. rewrite py_int_floor by done.
  change 0%Z with (Qfloor 0). by apply Qfloor_resp_le.
Qed.

Lemma total_weight_zero (servers : list Server) :
  Forall (λ s, (bandwidth s < 1)%Q) servers → total_weight servers = 0.
Proof.
  unfold total_weight. induction 1 as [|s l Hs _ IH]; [done|].
  rewrite fmap_cons.
  change (sum_list (weight s :: (weight <$> l)))
    with (weight s + sum_list (weight <$> l)).
  rewrite IH. unfold weight. pose proof (py_int_lt_1 _ Hs). lia.
Qed.

(** The weighted closure, called at counter [c] on the pool it was built
    from, raises exactly when the flattened list is empty. *)
Lemma weighted_round_robin_inner_ok (servers : list Server) (c : nat) :
  let wl := weighted_list (weighted_round_robin servers) in
  wl ≠ [] →
  ∃ i, wl !! (c mod length wl) = Some i ∧ i < length servers ∧
    weighted_round_robin_inner servers (mkWRR wl c) = inr (i, mkWRR wl (c + 1)).
Proof.
  intros wl Hne. unfold weighted_round_robin_inner. cbn [idx weighted_list].
  assert (0 < length wl) as Hlen by (destruct wl; [done | simpl; lia]).
  unfold py_mod. destruct (length wl) as [|W] eqn:HW; [lia|].
  assert (c mod S W < length wl) as Hlt
    by (rewrite HW; apply Nat.mod_upper_bound; lia).
  destruct (lookup_lt_is_Some_2 _ _ Hlt) as [i Hi].
  rewrite Hi. exists i. split; [done|].
  assert (i < length servers) as Hin.
  { pose proof (weighted_list_in_range servers) as Hall.
    rewrite Forall_forall in Hall. apply Hall.
    apply list_elem_of_lookup. eauto. }
  split; [done|].
  destruct (lookup_lt_is_Some_2 _ _ Hin) as [s ->]. done.
Qed.

Lemma weighted_round_robin_inner_empty (servers : list Server) (c : nat) :
  weighted_round_robin_inner servers (mkWRR [] c) = inl ZeroDivisionError.
Proof. reflexivity. Qed.

(** C10: on a non-empty pool, a call of the weighted round-robin closure
    returns a server exactly when the truncated bandwidths contribute at
    least one copy (Σ int(bandwidth) ≥ 1 for non-negative bandwidths); when
    every bandwidth is below 1 the flattened list is empty and every call
    raises [ZeroDivisionError]. *)
Theorem weighted_round_robin_needs_weight (servers : list Server) :
  servers ≠ [] →
  (∀ c, (∃ r, weighted_round_robin_inner servers
                (mkWRR (weighted_list (weighted_round_robin servers)) c) = inr r)
        ↔ 1 ≤ total_weight servers) ∧
  (Forall (λ s, (bandwidth s < 1)%Q) servers →
     weighted_list (weighted_round_robin servers) = [] ∧
     ∀ c, weighted_round_robin_inner servers
            (mkWRR (weighted_list (weighted_round_robin servers)) c)
          = inl ZeroDivisionError) ∧
  (Forall (λ s, (0 <= bandwidth s)%Q) servers →
     Z.of_nat (total_weight servers) = int_sum servers).
Proof.
  intros _. split_and!.
  - intros c. rewrite <- weighted_list_length. split.
    + intros [r Hr].
      destruct (weighted_list (weighted_round_robin servers)) eqn:E;
        [discriminate | simpl; lia].
    + intros Hlen.
      destruct (weighted_round_robin_inner_ok servers c) as (i & _ & _ & Hi).
      * intros E. rewrite E in Hlen. simpl in Hlen. lia.
      * eauto.
  - intros Hall.
    assert (weighted_list (weighted_round_robin servers) = []) as E.
    { apply length_zero_iff_nil.
      rewrite weighted_list_length. by apply total_weight_zero. }
    split; [done|]. intros c. by rewrite E.
  - apply total_weight_int_sum.
Qed.

Lemma weighted_round_robin_needs_weight_witness :
  weighted_list (weighted_round_robin
                   [mkServer "A" (1 # 2) [] []; mkServer "B" (9 # 10) [] []]) = [] ∧
  weighted_round_robin_inner
    [mkServer "A" (1 # 2) [] []; mkServer "B" (9 # 10) [] []]
    (weighted_round_robin [mkServer "A" (1 # 2) [] []; mkServer "B" (9 # 10) [] []])
  = inl ZeroDivisionError.
Proof.
  destruct (weighted_round_robin_needs_weight
              [mkServer "A" (1 # 2) [] []; mkServer "B" (9 # 10) [] []])
    as (_ & H & _); [discriminate|].
  destruct H as [Hl Hc].
  - repeat constructor.
  - split; [exact Hl | exact (Hc 0)].
Defined.

(** ** Weighted round-robin: the cycle *)

Lemma selections_cycle (servers : list Server) (m : nat) : ∀ c,
  let wl := weighted_list (weighted_round_robin servers) in
  wl ≠ [] →
  selections servers (mkWRR wl c) m
  = (λ x, default 0 (wl !! (x mod length wl))) <$> seq c m.
Proof.
  induction m as [|m IH]; intros c wl Hne; [done|].
  destruct (weighted_round_robin_inner_ok servers c Hne) as (i & Hi & _ & Hcall).
  fold wl in Hi, Hcall. cbn [selections seq fmap list_fmap].
  rewrite Hcall, Hi. cbn [default]. f_equal.
  replace (c + 1) with (S c) by lia. by apply IH.
Qed.

Lemma cycle_window_occurrences (wl : list nat) (i : nat) : ∀ c,
  occurrences i ((λ x, default 0 (wl !! (x mod length wl))) <$> seq c (length wl))
  = occurrences i wl.
Proof.
  destruct (decide (length wl = 0)) as [E | Hpos].
  { intros c. rewrite E. by destruct wl. }
  set (f := λ x, default 0 (wl !! (x mod length wl))).
  induction c as [|c IH].
  - f_equal. apply list_eq. intros t. rewrite list_lookup_fmap.
    destruct (decide (t < length wl)) as [Hlt | Hge].
    + rewrite lookup_seq_lt by done. simpl. unfold f.
      rewrite Nat.mod_small by done.
      destruct (lookup_lt_is_Some_2 _ _ Hlt) as [x ->]. done.
    + rewrite lookup_seq_ge by lia. by rewrite lookup_ge_None_2 by lia.
  - rewrite <- IH.
    destruct (length wl) as [|W] eqn:HW; [done|].
    replace (seq (S c) (S W)) with (seq (S c) W ++ [S c + W])
      by (by rewrite <- seq_S).
    cbn [seq]. rewrite fmap_app, !fmap_cons, fmap_nil.
    change (f c :: (f <$> seq (S c) W)) with ([f c] ++ (f <$> seq (S c) W)).
    rewrite !occurrences_app.
    assert (f (S c + W) = f c) as ->.
    { unfold f. replace (S c + W) with (c + 1 * S W) by lia.
      by rewrite Nat.Div0.mod_add. }
    simpl. lia.
Qed.

Lemma cycle_occurrences (wl : list nat) (i m : nat) : ∀ c,
  occurrences i ((λ x, default 0 (wl !! (x mod length wl))) <$> seq c (m * length wl))
  = m * occurrences i wl.
Proof.
  induction m as [|m IH]; intros c; [done|].
  replace (S m * length wl) with (length wl + m * length wl) by lia.
  rewrite seq_app, fmap_app, occurrences_app, cycle_window_occurrences, IH. lia.
Qed.

Lemma int_sum_le_total_weight (servers : list Server) :
  (int_sum servers <= Z.of_nat (total_weight servers))%Z.
Proof.
  unfold total_weight, int_sum. induction servers as [|s l IH]; [done|].
  rewrite !fmap_cons. cbn [foldr].
  change (sum_list (weight s :: (weight <$> l)))
    with (weight s + sum_list (weight <$> l)).
  rewrite Nat2Z.inj_add. unfold weight at 1. lia.
Qed.

Lemma weight_int (s : Server) :
  (0 <= bandwidth s)%Q →
  Z.of_nat (weight s) = py_int (bandwidth s) ∧
  py_int (bandwidth s) = Qfloor (bandwidth s).
Proof.
  intros H0. rewrite py_int_floor by done. unfold weight.
  rewrite py_int_floor by done. split; [|done].
  apply Z2Nat.id. change 0%Z with (Qfloor 0). by apply Qfloor_resp_le.
Qed.

(** C5: for a pool whose truncated bandwidths have a positive sum, the
    flattened list has length W = Σ max(0, int(bandwidth_j)) and holds
    position i exactly max(0, int(bandwidth_i)) times; the closure cycles
    through it (selection t after c calls is entry (c + t) mod W); in any
    m·W consecutive selections, starting after any number c of calls,
    server i is selected exactly m times its number of copies, and a server
    without copies is never selected.  For non-negative bandwidths (the data
    model has bandwidth > 0) the number of copies of server i is
    int(bandwidth_i) = floor(bandwidth_i) and W = Σ int(bandwidth_j). *)
Theorem weighted_round_robin_frequency (servers : list Server) (c : nat) :
  (0 < int_sum servers)%Z →
  let wl := weighted_list (weighted_round_robin servers) in
  let W := total_weight servers in
  0 < W ∧ length wl = W ∧
  (∀ m t, t < m →
     selections servers (mkWRR wl c) m !! t = wl !! ((c + t) mod W)) ∧
  (∀ i s, servers !! i = Some s →
     occurrences i wl = weight s ∧
     (∀ m, occurrences i (selections servers (mkWRR wl c) (m * W)) = m * weight s) ∧
     (weight s = 0 → ∀ m, i ∉ selections servers (mkWRR wl c) m)) ∧
  (Forall (λ s, (0 <= bandwidth s)%Q) servers →
     Z.of_nat W = int_sum servers ∧
     ∀ i s, servers !! i = Some s →
       Z.of_nat (weight s) = py_int (bandwidth s) ∧
       py_int (bandwidth s) = Qfloor (bandwidth s)).
Proof.
  intros Hpos wl W.
  assert (0 < W) as HWpos.
  { pose proof (int_sum_le_total_weight servers). unfold W. lia. }
  assert (length wl = W) as HW by apply weighted_list_length.
  assert (wl ≠ []) as Hne.
  { intros E. rewrite E in HW. simpl in HW. lia. }
  assert (∀ x, ∃ y, wl !! (x mod W) = Some y) as Hin.
  { intros x. apply lookup_lt_is_Some_2. rewrite HW.
    apply Nat.mod_upper_bound. lia. }
  split_and!; [done | done | | |].
  - intros m t Ht. unfold wl. rewrite selections_cycle by done. fold wl.
    rewrite list_lookup_fmap, lookup_seq_lt by done. simpl.
    rewrite HW. destruct (Hin (c + t)) as [y ->]. done.
  - intros i s Hs.
    pose proof (weighted_list_occurrences servers i s Hs) as Hocc. fold wl in Hocc.
    split_and!; [done | |].
    + intros m. unfold wl. rewrite selections_cycle by done. fold wl.
      rewrite <- HW, cycle_occurrences. by rewrite Hocc.
    + intros H0 m Hel. unfold wl in Hel. rewrite selections_cycle in Hel by done.
      fold wl in Hel. apply list_elem_of_fmap in Hel as (x & -> & _).
      rewrite HW in *. destruct (Hin x) as [y Hy]. rewrite Hy in *. simpl in *.
      rewrite H0 in Hocc. apply occurrences_zero in Hocc.
      apply Hocc, list_elem_of_lookup. eauto.
  - intros Hnn. split; [by apply total_weight_int_sum|].
    intros i s Hs. apply weight_int. rewrite Forall_forall in Hnn.
    apply Hnn, list_elem_of_lookup. eauto.
Qed.

Lemma weighted_round_robin_frequency_witness :
  length (weighted_list (weighted_round_robin
            [mkServer "A" (5 # 2) [] []; mkServer "B" (1 # 2) [] [];
             mkServer "C" 1 [] []])) = 3 ∧
  occurrences 0 (selections
                   [mkServer "A" (5 # 2) [] []; mkServer "B" (1 # 2) [] [];
                    mkServer "C" 1 [] []]
                   (mkWRR (weighted_list (weighted_round_robin
                      [mkServer "A" (5 # 2) [] []; mkServer "B" (1 # 2) [] [];
                       mkServer "C" 1 [] []])) 7) (4 * 3)) = 4 * 2.
Proof.
  destruct (weighted_round_robin_frequency
              [mkServer "A" (5 # 2) [] []; mkServer "B" (1 # 2) [] [];
               mkServer "C" 1 [] []] 7) as (_ & Hlen & _ & H & _).
  - vm_compute. reflexivity.
  - split; [exact Hlen|].
    destruct (H 0 (mkServer "A" (5 # 2) [] []) eq_refl) as (_ & Hm & _).
    exact (Hm 4).
Defined.

(** ** Fairness index *)

Lemma sum_list_cons (x : nat) (xs : list nat) :
  sum_list (x :: xs) = x + sum_list xs.
Proof. reflexivity. Qed.

Lemma sum_squares_cons (x : nat) (xs : list nat) :
  sum_squares (x :: xs) = x * x + sum_squares xs.
Proof. reflexivity. Qed.

Lemma all_zero_spec (xs : list nat) :
  forallb (Nat.eqb 0) xs = true ↔ sum_list xs = 0.
Proof.
  induction xs as [|x xs IH]; [done|].
  rewrite sum_list_cons. cbn [forallb]. rewrite andb_true_iff, IH.
  destruct x; simpl; split; try lia; intros [? ?]; try done; lia.
Qed.

Lemma twice_product_le (a b : nat) : 2 * a * b ≤ a * a + b * b.
Proof.
  destruct (Nat.le_ge_cases a b) as [H | H].
  - replace b with (a + (b - a)) by lia. generalize (b - a). intros d. nia.
  - replace a with (b + (a - b)) by lia. generalize (a - b). intros d. nia.
Qed.

(** The Cauchy-Schwarz bound behind Jain's index. *)
Lemma sum_square_le (xs : list nat) :
  sum_list xs * sum_list xs ≤ length xs * sum_squares xs.
Proof.
  induction xs as [|x xs IH]; [done|].
  rewrite sum_list_cons, sum_squares_cons. cbn [length].
  set (S := sum_list xs) in *. set (Q2 := sum_squares xs) in *.
  set (n := length xs) in *.
  destruct (decide (n = 0)) as [Hn | Hn].
  - assert (S = 0) by nia. nia.
  - assert (2 * x * S ≤ n * (x * x) + Q2); [|nia].
    assert (n * (2 * x * S) ≤ n * (n * (x * x) + Q2)); [|nia].
    pose proof (twice_product_le (n * x) S). nia.
Qed.

Lemma sum_squares_pos (xs : list nat) :
  0 < sum_list xs → 0 < length xs * sum_squares xs.
Proof.
  intros H. pose proof (sum_square_le xs). nia.
Qed.

Lemma sum_list_replicate (n c : nat) : sum_list (replicate n c) = n * c.
Proof. induction n as [|n IH]; [done|]. simpl replicate. rewrite sum_list_cons, IH. lia. Qed.

Lemma sum_squares_replicate (n c : nat) : sum_squares (replicate n c) = n * (c * c).
Proof.
  induction n as [|n IH]; [done|]. simpl replicate.
  rewrite sum_squares_cons, IH. lia.
Qed.

Lemma fairness_index_nonzero (xs : list nat) :
  0 < sum_list xs →
  fairness_index xs
  = (inject_Z (Z.of_nat (sum_list xs * sum_list xs))
     / inject_Z (Z.of_nat (length xs * sum_squares xs)))%Q.
Proof.
  intros H. unfold fairness_index.
  destruct (forallb (Nat.eqb 0) xs) eqn:E; [|done].
  apply all_zero_spec in E. lia.
Qed.

(** C8: the fairness index of a run is Jain's index (Σxᵢ)² / (n · Σxᵢ²) of
    the per-server totals; it lies in (0, 1] when at least one request was
    processed, is 1 when all servers have the same non-zero total, and is 0
    when every total is 0. *)
Theorem fairness_index_jain (st : State) :
  let xs := totals st in
  (0 < sum_list xs →
     (fairness st ==
        inject_Z (Z.of_nat (sum_list xs)) * inject_Z (Z.of_nat (sum_list xs))
        / (inject_Z (Z.of_nat (length xs)) * inject_Z (Z.of_nat (sum_squares xs))))%Q
     ∧ (0 < fairness st)%Q ∧ (fairness st <= 1)%Q) ∧
  (∀ c, 0 < length xs → 0 < c → Forall (λ x, x = c) xs → (fairness st == 1)%Q) ∧
  (Forall (λ x, x = 0) xs → fairness st = 0%Q).
Proof.
  intros xs. unfold fairness. fold xs. split_and!.
  - intros Hpos. rewrite fairness_index_nonzero by done.
    pose proof (sum_square_le xs) as Hle.
    pose proof (sum_squares_pos xs Hpos) as Hden.
    assert (0 < inject_Z (Z.of_nat (length xs * sum_squares xs)))%Q as HdenQ.
    { change 0%Q with (inject_Z 0). rewrite <- Zlt_Qlt. lia. }
    split_and!.
    + rewrite !Nat2Z.inj_mul, !inject_Z_mult. reflexivity.
    + apply Qlt_shift_div_l; [done|]. rewrite Qmult_0_l.
      change 0%Q with (inject_Z 0). rewrite <- Zlt_Qlt. nia.
    + apply Qle_shift_div_r; [done|]. rewrite Qmult_1_l.
      rewrite <- Zle_Qle. lia.
  - intros c Hn Hc Hall.
    assert (xs = replicate (length xs) c) as Hrep.
    { clear -Hall. induction Hall as [|x l -> _ IH]; [done|].
      simpl. by rewrite <- IH. }
    assert (0 < sum_list xs) as Hpos.
    { rewrite Hrep, sum_list_replicate. nia. }
    rewrite fairness_index_nonzero by done.
    pose proof (sum_squares_pos xs Hpos) as Hden.
    assert (sum_list xs * sum_list xs = length xs * sum_squares xs) as ->.
    { rewrite Hrep at 1 2 4. rewrite sum_list_replicate, sum_squares_replicate. lia. }
    apply Qmult_inv_r. intros E.
    assert (0 < inject_Z (Z.of_nat (length xs * sum_squares xs)))%Q as HdenQ.
    { change 0%Q with (inject_Z 0). rewrite <- Zlt_Qlt. lia. }
    rewrite E in HdenQ. by apply Qlt_irrefl in HdenQ.
  - intros Hall. unfold fairness_index.
    assert (forallb (Nat.eqb 0) xs = true) as ->; [|done].
    apply all_zero_spec. clear -Hall.
    induction Hall as [|x l -> _ IH]; [done|]. by rewrite sum_list_cons, IH.
Qed.

Lemma fairness_index_jain_witness :
  (0 < fairness sample_final)%Q ∧ (fairness sample_final <= 1)%Q.
Proof.
  destruct (fairness_index_jain sample_final) as [H _].
  destruct H as (_ & Hpos & Hle).
  - vm_compute. lia.
  - split; [exact Hpos | exact Hle].
Defined.

(** ** Dispatch histories *)

Lemma ids_from_app (j : nat) (l1 l2 : list nat) : ∀ k,
  ids_from k j (l1 ++ l2) = ids_from k j l1 ++ ids_from (k + length l1) j l2.
Proof.
  induction l1 as [|i l1 IH]; intros k; simpl.
  - by rewrite Nat.add_0_r.
  - rewrite IH. replace (S k + length l1) with (k + S (length l1)) by lia.
    by destruct (decide (i = j)).
Qed.

Lemma ids_for_snoc (j i : nat) (log : list nat) :
  ids_for j (log ++ [i])
  = ids_for j log ++ (if decide (i = j) then [S (length log)] else []).
Proof.
  unfold ids_for. rewrite ids_from_app. simpl.
  by destruct (decide (i = j)).
Qed.

Lemma elem_of_ids_from (j id : nat) (log : list nat) : ∀ k,
  id ∈ ids_from k j log ↔ ∃ m, id = S (k + m) ∧ log !! m = Some j.
Proof.
  induction log as [|i log IH]; intros k; simpl.
  - split; [by intros ?%elem_of_nil | by intros (m & _ & ?)].
  - destruct (decide (i = j)) as [-> | Hne].
    + rewrite elem_of_cons, IH. split.
      * intros [-> | (m & -> & Hm)].
        -- exists 0. split; [lia | done].
        -- exists (S m). split; [lia | done].
      * intros ([|m] & -> & Hm).
        -- left. lia.
        -- right. exists m. split; [lia | done].
    + rewrite IH. split.
      * intros (m & -> & Hm). exists (S m). split; [lia | done].
      * intros ([|m] & -> & Hm); simpl in Hm; [congruence|].
        exists m. split; [lia | done].
Qed.

Lemma NoDup_ids_from (j : nat) (log : list nat) : ∀ k, NoDup (ids_from k j log).
Proof.
  induction log as [|i log IH]; intros k; simpl; [constructor|].
  destruct (decide (i = j)); [|done].
  constructor; [|done]. rewrite elem_of_ids_from. intros (m & Hm & _). lia.
Qed.

Lemma ids_from_length_sum (log : list nat) (n : nat) : ∀ k,
  Forall (λ i, i < n) log →
  sum_list ((λ j, length (ids_from k j log)) <$> seq 0 n) = length log.
Proof.
  induction log as [|i log IH]; intros k Hall.
  - simpl. induction (seq 0 n) as [|x l IHl]; [done|].
    rewrite fmap_cons, sum_list_cons, IHl. done.
  - apply Forall_cons in Hall as [Hi Hall]. simpl. rewrite <- (IH (S k) Hall).
    clear IH Hall.
    assert (∀ a m, sum_list ((λ j, length (if decide (i = j)
                   then S k :: ids_from (S k) j log else ids_from (S k) j log))
                   <$> seq a m)
            = (if decide (a ≤ i < a + m) then 1 else 0)
              + sum_list ((λ j, length (ids_from (S k) j log)) <$> seq a m)) as H.
    { intros a m. revert a. induction m as [|m IHm]; intros a.
      - simpl. destruct (decide (a ≤ i < a + 0)); [lia | done].
      - cbn [seq]. rewrite !fmap_cons, !sum_list_cons, IHm.
        destruct (decide (i = a)) as [-> | Hne]; simpl;
          repeat case_decide; lia. }
    rewrite H. destruct (decide (0 ≤ i < 0 + n)); lia.
Qed.

(** ** Executions *)

Section Executions.

Variable request_sizes : list Q.
Variable algorithm : string.

Local Abbreviation run := (run request_sizes algorithm).
Local Abbreviation step := (step request_sizes algorithm).
Local Abbreviation reachable := (reachable request_sizes algorithm).

Lemma run_app (s1 s2 : list thread) (st : State) :
  run (s1 ++ s2) st = run s1 st ≫= run s2.
Proof.
  revert st. induction s1 as [|t s1 IH]; intros st; simpl; [done|].
  destruct (step t st); simpl; [apply IH | done].
Qed.

Lemma reachable_refl (st : State) : reachable st st.
Proof. by exists []. Qed.

Lemma reachable_step (st0 st st' : State) (t : thread) :
  reachable st0 st → step t st = Some st' → reachable st0 st'.
Proof.
  intros [sched Hs] Ht. exists (sched ++ [t]).
  rewrite run_app, Hs. simpl. by rewrite Ht.
Qed.

Lemma reachable_trans (st0 st st' : State) :
  reachable st0 st → reachable st st' → reachable st0 st'.
Proof.
  intros [s1 H1] [s2 H2]. exists (s1 ++ s2). by rewrite run_app, H1.
Qed.

(** Induction over the states a call reaches. *)
Lemma reachable_ind (st0 : State) (P : State → Prop) :
  P st0 →
  (∀ t st st', reachable st0 st → P st → step t st = Some st' → P st') →
  ∀ st, reachable st0 st → P st.
Proof.
  intros H0 Hstep st [sched Hs]. revert st Hs.
  induction sched as [|t sched IH] using rev_ind; intros st Hs.
  - simpl in Hs. by injection Hs as <-.
  - rewrite run_app in Hs. destruct (run sched st0) as [st1|] eqn:E; [|done].
    simpl in Hs. destruct (step t st1) as [st2|] eqn:Et; [|done].
    injection Hs as <-. eapply Hstep; [by exists sched | by apply IH | done].
Qed.

End Executions.

(** ** The invariant is preserved *)

Section InvariantProofs.

Variable request_sizes : list Q.
Variable algorithm : string.
Variable servers0 : list Server.
Variables c1 c2 : nat.

Local Abbreviation inv := (inv request_sizes algorithm servers0 c1 c2).
Local Abbreviation running_inv := (running_inv request_sizes algorithm servers0 c1 c2).
Local Abbreviation n := (length servers0).
Local Abbreviation R := (length request_sizes).

Lemma static_inv_length (st : State) :
  static_inv servers0 st → length (pool st) = n.
Proof.
  intros (Hn & _ & _). apply (f_equal length) in Hn.
  by rewrite !length_fmap in Hn.
Qed.

Lemma static_inv_insert (st : State) (i : nat) (s s' : Server) :
  static_inv servers0 st → pool st !! i = Some s →
  name s' = name s → bandwidth s' = bandwidth s →
  name <$> <[i := s']> (pool st) = name <$> servers0 ∧
  bandwidth <$> <[i := s']> (pool st) = bandwidth <$> servers0.
Proof.
  intros (Hn & Hb & _) Hs En Eb.
  rewrite !list_fmap_insert, En, Eb.
  rewrite !list_insert_id; [done | |]; by rewrite list_lookup_fmap, Hs.
Qed.

Lemma inv_entry : inv (entry servers0 c1 c2).
Proof. by split. Qed.

Lemma inv_step_main (st st' : State) :
  inv st → step_main algorithm st = Some st' → inv st'.
Proof.
  intros [Hst Hph]. unfold step_main.
  destruct (pc st) as [|i|i| | | |i| |e] eqn:Hpc.
  - (* MLookup *)
    subst st. destruct (algorithm_map algorithm) as [p|] eqn:Hp; intros [= <-].
    + split; [done|]. cbn. unfold selected. cbn. rewrite Hp. split_and!; try done.
      intros j. destruct (decide (j < 0)); [lia|]. by destruct (servers0 !! j).
    + split; [done|]. by cbn.
  - (* MReset *)
    destruct Hph as (Hsel & Hun & Hth & Hstop & Hpool).
    destruct (pool st !! i) as [s|] eqn:Hs; intros [= <-].
    + split.
      * destruct (static_inv_insert st i s (reset s) Hst Hs) as [? ?]; try done.
        split_and!; try done. apply Hst.
      * cbn. split_and!; try done. intros j.
        destruct (decide (j = i)) as [-> | Hne].
        -- rewrite list_lookup_insert_eq by (by apply lookup_lt_Some in Hs).
           rewrite Hpool in Hs. destruct (decide (i < i)); [lia|].
           destruct (decide (i < S i)); [|lia].
           destruct (servers0 !! i); simpl in *; [|done]. by injection Hs as ->.
        -- rewrite list_lookup_insert_ne by done. rewrite Hpool.
           destruct (decide (j < i)); destruct (decide (j < S i)); try lia; done.
    + split; [done|]. cbn. split_and!; try done; [lia|].
      apply list_eq. intros j. rewrite Hpool, list_lookup_fmap.
      destruct (decide (j < i)); [done|].
      rewrite (lookup_ge_None_2 servers0 j); [done|].
      apply lookup_ge_None_1 in Hs. rewrite <- (static_inv_length st) by done. lia.
  - (* MSpawn *)
    destruct Hph as (Hsel & Hun & Hth & Hi & Hstop & Hpool).
    destruct (pool st !! i) as [s|] eqn:Hs; intros [= <-].
    + split; [done|]. cbn. split_and!; try done.
      * rewrite Hth. change (WRunning :: replicate i WRunning)
          with (replicate (S i) WRunning). by rewrite replicate_S_end.
      * apply lookup_lt_Some in Hs. rewrite (static_inv_length st) in Hs by done. lia.
    + split; [done|]. cbn. split_and!; try done.
      apply lookup_ge_None_1 in Hs. rewrite (static_inv_length st) in Hs by done.
      rewrite Hth. f_equal. lia.
  - (* MStartDispatcher *)
    destruct Hph as (Hsel & Hun & Hth & Hstop & Hpool).
    intros [= <-]. split; [done|]. cbn.
    destruct Hun as (Hrt & Hd & Hrr & Hwrr).
    split_and!; try done. unfold running_inv. split_and!.
    + exact Hsel.
    + split; cbn.
      * intros j s Hj. rewrite Hd. rewrite Hpool, list_lookup_fmap in Hj.
        destruct (servers0 !! j); [|done]. simpl in Hj. by injection Hj as <-.
      * rewrite Hd. constructor.
    + red. cbn. rewrite Hd. simpl. lia.
    + red. unfold calls_inv, choices. cbn. rewrite Hd, Hrr, Hwrr. simpl.
      destruct (select_fn st) as [[]|]; split_and!; try done; try lia.
  - (* MJoinDispatcher *)
    destruct Hph as (Hrun & Hth & Hstop).
    destruct (request_thread st) eqn:Hrt; try discriminate; intros [= <-];
      (split; [done|]); cbn; rewrite Hrt; split_and!; done.
  - (* MSetStop *)
    destruct Hph as (Hrun & Hth & Hstop & Hdone).
    intros [= <-]. split; [done|]. cbn. split_and!; try done.
    + by rewrite Hth, length_replicate.
    + intros j Hj. cbn in Hj. rewrite Hth in Hj.
      apply lookup_replicate in Hj as [? _]. discriminate.
    + intros j Hj. lia.
  - (* MJoinWorkers *)
    destruct Hph as (Hrun & Hth & Hstop & Hdone & Hex & Hjoined).
    destruct (threads st !! i) as [[]|] eqn:Hi; try discriminate; intros [= <-];
      (split; [done|]); cbn; split_and!; try done.
    + intros j Hj. destruct (decide (j = i)) as [-> | Hne]; [done|].
      apply Hjoined. lia.
    + apply lookup_ge_None_1 in Hi. apply list_eq. intros j.
      destruct (decide (j < n)) as [Hlt | Hge].
      * rewrite Hjoined by lia. symmetry. by apply lookup_replicate_2.
      * rewrite !lookup_ge_None_2; [done | |]; rewrite ?length_replicate; lia.
  - discriminate.
  - discriminate.
Qed.

Lemma receive_request_inr (id : nat) (size : Q) (s s' : Server) :
  receive_request id size s = inr s' →
  name s' = name s ∧ bandwidth s' = bandwidth s ∧ result s' = result s ∧
  pending_requests s' = pending_requests s ++ [(id, size)] ∧ (0 < size)%Q.
Proof.
  unfold receive_request. destruct (Qle_bool size 0) eqn:E; [done|].
  intros [= <-]. split_and!; try done.
  apply Qnot_le_lt. intros H%Qle_bool_iff. congruence.
Qed.

Lemma call_policy_inr (p : Policy) (st st' : State) (i : nat) :
  static_inv servers0 st →
  call_policy p st = inr (i, st') →
  i < n ∧
  match p with
  | RoundRobin =>
      i = rr_index (rr st) mod n ∧ st' = set_rr (mkRR (rr_index (rr st) + 1)) st
  | WeightedRR =>
      weighted_list (wrr st) !! (idx (wrr st) mod length (weighted_list (wrr st))) = Some i ∧
      st' = set_wrr (mkWRR (weighted_list (wrr st)) (idx (wrr st) + 1)) st
  | _ => st' = st
  end.
Proof.
  intros Hst. pose proof (static_inv_length st Hst) as Hlen.
  destruct p; simpl.
  - unfold round_robin_inner.
    destruct (py_mod _ _) as [e|r] eqn:Hm; [done|].
    destruct (pool st !! r) as [s|] eqn:Hs; [|done]. intros [= <- <-].
    apply py_mod_lt in Hm as [-> Hlt]. rewrite Hlen in *. done.
  - unfold weighted_round_robin_inner.
    destruct (py_mod _ _) as [e|r] eqn:Hm; [done|].
    destruct (weighted_list (wrr st) !! r) as [x|] eqn:Hx; [|done].
    destruct (pool st !! x) as [s|] eqn:Hs; [|done]. intros [= <- <-].
    apply py_mod_lt in Hm as [-> Hlt]. apply lookup_lt_Some in Hs.
    rewrite Hlen in *. done.
  - destruct (least_connections (pool st)) as [e|r] eqn:Hm; [done|].
    intros [= <- <-]. apply py_min_bound in Hm.
    rewrite length_fmap, Hlen in Hm. done.
  - destruct (my_optimizer (pool st)) as [e|r] eqn:Hm; [done|].
    intros [= <- <-]. apply py_min_bound in Hm.
    rewrite length_fmap, Hlen in Hm. done.
Qed.

Lemma inv_step_dispatcher (st st' : State) :
  inv st → step_dispatcher request_sizes st = Some st' → inv st'.
Proof.
  intros [Hst Hph]. unfold step_dispatcher.
  destruct (pc st) as [|i|i| | | |i| |e] eqn:Hpc.
  1: { subst st. discriminate. }
  1-3: destruct Hph as (_ & (-> & _) & _); discriminate.
  2: { destruct Hph as (_ & _ & _ & Hd). by destruct (request_thread st). }
  2-3: destruct Hph as (_ & _ & _ & Hd & _); by destruct (request_thread st).
  2: { destruct Hph as [_ ->]. discriminate. }
  destruct Hph as (([Hsel Hsome] & [Hq Hall] & Hdi & Hcl) & Hth & Hstop).
  unfold dispatcher_inv in Hdi. unfold closures_inv, calls_inv, choices in Hcl.
  destruct (request_thread st) as [|k|k i| |e] eqn:Hrt; try discriminate.
  - (* DSelect *)
    destruct Hdi as [Hlen Hk].
    destruct (request_sizes !! k) as [size|] eqn:Hsize.
    + destruct (select_fn st) as [p|] eqn:Hp; [|discriminate].
      apply lookup_lt_Some in Hsize.
      destruct (call_policy p st) as [e|[i st1]] eqn:Hcall; intros [= <-].
      * split; [done|]. unfold inv. cbn. rewrite Hpc. split_and!; try done.
        unfold running_inv, selected, queues_inv, dispatcher_inv, closures_inv,
          calls_inv, choices. cbn. rewrite Hp in *.
        split_and!; [done | done | done | done | lia | ].
        destruct p; [destruct Hcl as (? & ? & Hch); split_and!;
                       try done; lia .. | done | done].
      * apply call_policy_inr in Hcall as [Hi Hcall]; [|done].
        assert (∀ A (l : list A) x k0 y, (l ++ [x]) !! k0 = Some y →
                  l !! k0 = Some y ∨ (k0 = length l ∧ y = x)) as Hsnoc.
        { intros A l x k0 y [? | [? Hx]]%lookup_app_Some; [by left|].
          right. destruct (k0 - length l) eqn:E; simpl in Hx; [|done].
          injection Hx as <-. split; [lia | done]. }
        destruct p; [destruct Hcall as [Hsel_i ->] .. | subst st1 | subst st1].
        -- split; [done|]. cbn. rewrite Hpc. split_and!; try done.
           unfold running_inv, selected, queues_inv, dispatcher_inv,
             closures_inv, calls_inv, choices. cbn. rewrite Hp.
           destruct Hcl as (? & ? & Hch). rewrite app_nil_r in Hch.
           split_and!; try done; try lia.
           intros k0 y [Hk0 | [-> ->]]%Hsnoc; [by apply Hch|].
           rewrite Hsel_i. f_equal. lia.
        -- split; [split_and!; try apply Hst; done|].
           cbn. rewrite Hpc. split_and!; try done.
           unfold running_inv, selected, queues_inv, dispatcher_inv,
             closures_inv, calls_inv, choices. cbn. rewrite Hp.
           destruct Hcl as (? & ? & Hch). rewrite app_nil_r in Hch.
           destruct Hst as (_ & _ & Hwl).
           split_and!; try done; try lia.
           intros k0 y [Hk0 | [-> ->]]%Hsnoc; [by apply Hch|].
           rewrite Hwl in Hsel_i. rewrite <- Hsel_i. do 2 f_equal. lia.
        -- split; [done|]. cbn. rewrite Hpc. split_and!; try done.
           unfold running_inv, selected, queues_inv, dispatcher_inv,
             closures_inv, calls_inv, choices. cbn. rewrite Hp.
           destruct Hcl as [? ?]. split_and!; try done; try lia.
        -- split; [done|]. cbn. rewrite Hpc. split_and!; try done.
           unfold running_inv, selected, queues_inv, dispatcher_inv,
             closures_inv, calls_inv, choices. cbn. rewrite Hp.
           destruct Hcl as [? ?]. split_and!; try done; try lia.
    + intros [= <-]. split; [done|]. cbn. rewrite Hpc. split_and!; try done.
      apply lookup_ge_None_1 in Hsize.
      unfold running_inv, selected, queues_inv, dispatcher_inv,
        closures_inv, calls_inv, choices. cbn.
      split_and!; try done; try lia.
  - (* DEnqueue *)
    destruct Hdi as (Hlen & Hk & Hi).
    destruct (request_sizes !! k) as [size|] eqn:Hsize; [|discriminate].
    destruct (pool st !! i) as [s|] eqn:Hs; [|discriminate].
    destruct (receive_request (k + 1) size s) as [e|s'] eqn:Hrecv; intros [= <-].
    + split; [done|]. cbn. rewrite Hpc. split_and!; try done.
      unfold running_inv, selected, queues_inv, dispatcher_inv,
        closures_inv, calls_inv, choices. cbn.
      split_and!; try done; try lia.
      destruct (select_fn st) as [[]|]; try done;
        destruct Hcl as (? & ? & Hch); (split_and!; [done | lia | lia | ]);
        intros k0 y Hk0; apply Hch; rewrite app_nil_r in Hk0;
        by apply lookup_app_l_Some.
    + apply receive_request_inr in Hrecv as (En & Eb & Er & Epend & Hpos).
      split.
      * destruct (static_inv_insert st i s s' Hst Hs En Eb) as [? ?].
        split_and!; try done. apply Hst.
      * cbn. rewrite Hpc. split_and!; try done.
        unfold running_inv, selected, queues_inv, dispatcher_inv,
          closures_inv, calls_inv, choices. cbn.
        split_and!; try done.
        -- intros j sj Hj. rewrite ids_for_snoc.
           destruct (decide (i = j)) as [<- | Hne].
           ++ rewrite list_lookup_insert_eq in Hj by (by apply lookup_lt_Some in Hs).
              injection Hj as <-. unfold result_ids. rewrite Er, Epend, fmap_app.
              rewrite app_assoc. f_equal; [by apply Hq|]. simpl. f_equal. lia.
           ++ rewrite list_lookup_insert_ne in Hj by done.
              rewrite app_nil_r. by apply Hq.
        -- apply Forall_app. split; [done|]. by constructor.
        -- rewrite length_app. simpl. lia.
        -- rewrite app_nil_r. rewrite length_app. simpl.
           destruct (select_fn st) as [[]|]; try done;
             destruct Hcl as (? & ? & Hch); (split_and!; [done | lia | done]).
Qed.

Lemma process_one_Some (now : Q) (s s' : Server) :
  process_one now s = Some s' →
  name s' = name s ∧ bandwidth s' = bandwidth s ∧
  ∃ id size, pending_requests s = (id, size) :: pending_requests s' ∧
    result s' = result s ++ [(id, name s, (size / bandwidth s)%Q, now)].
Proof.
  unfold process_one. destruct (pending_requests s) as [|[id size] rest]; [done|].
  intros [= <-]. split_and!; try done. by exists id, size.
Qed.

Lemma process_one_None (now : Q) (s : Server) :
  process_one now s = None → pending_requests s = [].
Proof.
  unfold process_one. by destruct (pending_requests s) as [|[id size] rest].
Qed.

Lemma running_inv_process (st : State) (i : nat) (now : Q) (s s' : Server) :
  running_inv st → pool st !! i = Some s → process_one now s = Some s' →
  running_inv (set_pool (<[i := s']> (pool st)) st).
Proof.
  intros (Hsel & [Hq Hall] & Hdi & Hcl) Hs Hproc.
  apply process_one_Some in Hproc as (_ & _ & id & size & Hpend & Hres).
  split_and!; try done. split; [|done]. intros j sj Hj.
  cbn [pool set_pool dispatched] in Hj |- *.
  destruct (decide (i = j)) as [<- | Hne].
  - rewrite list_lookup_insert_eq in Hj by (by apply lookup_lt_Some in Hs).
    injection Hj as <-. rewrite <- (Hq i s Hs). unfold result_ids.
    rewrite Hres, Hpend, fmap_app, <- app_assoc. done.
  - rewrite list_lookup_insert_ne in Hj by done. by apply Hq.
Qed.

Lemma inv_step_worker (st st' : State) (i : nat) (now : Q) :
  inv st → step_worker i now st = Some st' → inv st'.
Proof.
  intros [Hst Hph]. unfold step_worker.
  destruct (threads st !! i) as [[]|] eqn:Hti; try discriminate.
  destruct (pool st !! i) as [s|] eqn:Hs; try discriminate.
  destruct (process_one now s) as [s'|] eqn:Hproc.
  - (* a request is processed *)
    intros [= <-].
    pose proof (process_one_Some _ _ _ Hproc) as (En & Eb & id & size & Hpend & Hres).
    assert (static_inv servers0 (set_pool (<[i := s']> (pool st)) st)) as Hst'.
    { destruct (static_inv_insert st i s s' Hst Hs En Eb) as [? ?].
      split_and!; try done. apply Hst. }
    split; [done|]. cbn.
    destruct (pc st) as [|i0|i0| | | |i0| |e] eqn:Hpc.
    + subst st. done.
    + destruct Hph as (_ & _ & Hth & _). by rewrite Hth in Hti.
    + destruct Hph as (_ & _ & _ & _ & _ & Hpool).
      rewrite Hpool, list_lookup_fmap in Hs.
      destruct (servers0 !! i); [|done]. injection Hs as <-. done.
    + destruct Hph as (_ & _ & _ & _ & Hpool).
      rewrite Hpool, list_lookup_fmap in Hs.
      destruct (servers0 !! i); [|done]. injection Hs as <-. done.
    + destruct Hph as (Hrun & Hth & Hstop).
      split_and!; try done. by eapply running_inv_process.
    + destruct Hph as (Hrun & Hth & Hstop & Hdone).
      split_and!; try done. by eapply running_inv_process.
    + destruct Hph as (Hrun & Hth & Hstop & Hdone & Hex & Hjoined).
      split_and!; try done; [by eapply running_inv_process|].
      intros j Hj. cbn in Hj. destruct (Hex j Hj) as (sj & Hsj & Hempty).
      exists sj. split; [|done]. cbn. rewrite list_lookup_insert_ne; [done|].
      intros <-. congruence.
    + destruct Hph as (_ & Hth & _). rewrite Hth in Hti.
      apply lookup_replicate in Hti as [? _]. discriminate.
    + destruct Hph as [_  ->]. done.
  - assert (inv st) as Hinv by (by split).
    destruct (stop_event st) eqn:Hstop; intros [= <-]; [|done].
    (* the worker exits *)
    split; [done|]. cbn.
    destruct (pc st) as [|i0|i0| | | |i0| |e] eqn:Hpc.
    1: { subst st. done. }
    + destruct Hph as (_ & _ & _ & ? & _). done.
    + destruct Hph as (_ & _ & _ & _ & ? & _). done.
    + destruct Hph as (_ & _ & _ & ? & _). done.
    + destruct Hph as (_ & _ & ?). done.
    + destruct Hph as (_ & _ & ? & _). done.
    + destruct Hph as (Hrun & Hth & _ & Hdone & Hex & Hjoined).
      assert (i < length (threads st)) as Hlt by (by apply lookup_lt_Some in Hti).
      split_and!; try done.
      * by rewrite length_insert.
      * intros j Hj. cbn in *. destruct (decide (j = i)) as [-> | Hne].
        -- exists s. split; [done|]. by eapply process_one_None.
        -- rewrite list_lookup_insert_ne in Hj by done. by apply Hex.
      * intros j Hj. destruct (decide (j = i)) as [-> | Hne].
        -- by rewrite list_lookup_insert_eq.
        -- rewrite list_lookup_insert_ne by done. by apply Hjoined.
    + destruct Hph as (_ & Hth & _). rewrite Hth in Hti.
      apply lookup_replicate in Hti as [? _]. discriminate.
    + destruct Hph as [_  ->]. done.
Qed.

Lemma inv_step (t : thread) (st st' : State) :
  inv st → step request_sizes algorithm t st = Some st' → inv st'.
Proof.
  destruct t; simpl.
  - apply inv_step_main.
  - apply inv_step_dispatcher.
  - apply inv_step_worker.
Qed.

Lemma inv_reachable (st : State) :
  reachable request_sizes algorithm (entry servers0 c1 c2) st → inv st.
Proof.
  apply reachable_ind; [apply inv_entry|].
  intros t s s' _. apply inv_step.
Qed.

(** *** Progress *)

Local Abbreviation rank := (rank request_sizes servers0).

Lemma queued_insert (servers : list Server) (i : nat) (s s' : Server) :
  servers !! i = Some s →
  queued (<[i := s']> servers) + length (pending_requests s)
  = queued servers + length (pending_requests s').
Proof.
  unfold queued. revert i. induction servers as [|x l IH]; intros i Hi; [done|].
  destruct i as [|i]; simpl in Hi.
  - injection Hi as ->. change (<[0:=s']> (s :: l)) with (s' :: l).
    rewrite !fmap_cons, !sum_list_cons. lia.
  - change (<[S i:=s']> (x :: l)) with (x :: <[i:=s']> l).
    rewrite !fmap_cons, !sum_list_cons. specialize (IH i Hi). lia.
Qed.

Lemma running_exit (ws : list worker_state) (i : nat) :
  ws !! i = Some WRunning →
  running (<[i := WExited]> ws) + 1 = running ws.
Proof.
  unfold running. revert i. induction ws as [|w l IH]; intros i Hi; [done|].
  destruct i as [|i]; simpl in Hi.
  - injection Hi as ->. change (<[0:=WExited]> (WRunning :: l)) with (WExited :: l).
    rewrite !filter_cons. simpl. lia.
  - change (<[S i:=WExited]> (w :: l)) with (w :: <[i:=WExited]> l).
    rewrite !filter_cons. specialize (IH i Hi).
    destruct (decide (w = WRunning)); simpl; lia.
Qed.

Lemma running_spawn (ws : list worker_state) :
  running (ws ++ [WRunning]) = running ws + 1.
Proof. unfold running. by rewrite filter_app, length_app. Qed.

Lemma inv_dispatching (st : State) :
  inv st → dispatcher_done (request_thread st) = false →
  request_thread st ≠ DNotStarted →
  pc st = MJoinDispatcher ∧ running_inv st ∧ stop_event st = false.
Proof.
  intros [Hst Hph] Hnd Hns.
  destruct (pc st) as [|i|i| | | |i| |e] eqn:Hpc.
  - subst st. done.
  - by destruct Hph as (_ & (? & _) & _).
  - by destruct Hph as (_ & (? & _) & _).
  - by destruct Hph as (_ & (? & _) & _).
  - by destruct Hph as (? & _ & ?).
  - destruct Hph as (_ & _ & _ & ?). congruence.
  - destruct Hph as (_ & _ & _ & ? & _). congruence.
  - destruct Hph as (_ & _ & _ & ? & _). congruence.
  - destruct Hph as [_ ->]. done.
Qed.

Local Ltac rank_simpl :=
  unfold rank;
  cbn [pc pool threads request_thread set_pc set_pool set_threads
       set_request_thread set_select_fn set_stop_event set_dispatched
       set_rr set_wrr].

Lemma progress (st : State) :
  inv st → terminal st = false →
  ∃ t st', step request_sizes algorithm t st = Some st' ∧ rank st' < rank st.
Proof.
  intros Hinv Hterm. pose proof Hinv as [Hst Hph].
  pose proof (static_inv_length st Hst) as Hlen.
  unfold terminal in Hterm.
  destruct (pc st) as [|i|i| | | |i| |e] eqn:Hpc; try discriminate.
  - exists Main. simpl. unfold step_main. rewrite Hpc.
    destruct (algorithm_map algorithm); eexists; (split; [done|]);
      rank_simpl; rewrite Hpc; simpl; lia.
  - exists Main. simpl. unfold step_main. rewrite Hpc.
    destruct (pool st !! i) as [s|] eqn:Hs; eexists; (split; [done|]);
      rank_simpl; rewrite Hpc; simpl.
    + pose proof (queued_insert (pool st) i s (reset s) Hs) as Hq. simpl in Hq.
      apply lookup_lt_Some in Hs. lia.
    + unfold running. simpl. lia.
  - exists Main. simpl. unfold step_main. rewrite Hpc.
    destruct (pool st !! i) as [s|] eqn:Hs; eexists; (split; [done|]);
      rank_simpl; rewrite Hpc; simpl.
    + rewrite running_spawn. apply lookup_lt_Some in Hs. lia.
    + lia.
  - exists Main. simpl. unfold step_main. rewrite Hpc.
    eexists; (split; [done|]). rank_simpl; rewrite Hpc.
    destruct Hph as (_ & (-> & _) & _). simpl. lia.
  - destruct (dispatcher_done (request_thread st)) eqn:Hdone.
    + exists Main. simpl. unfold step_main. rewrite Hpc.
      destruct (request_thread st); try discriminate;
        eexists; (split; [done|]); rank_simpl; rewrite Hpc; simpl; lia.
    + destruct Hph as (([Hsel Hsome] & [Hq Hall] & Hdi & Hcl) & Hth & Hstop).
      unfold dispatcher_inv in Hdi.
      exists Dispatcher. simpl. unfold step_dispatcher.
      destruct (request_thread st) as [|k|k j| |e] eqn:Hrt; try done.
      * destruct (request_sizes !! k) as [size|] eqn:Hsize.
        -- destruct Hsome as [p Hp]. rewrite Hp.
           apply lookup_lt_Some in Hsize.
           destruct (call_policy p st) as [e|[j st1]] eqn:Hcall.
           ++ eexists; (split; [done|]). rank_simpl; rewrite Hrt; simpl. lia.
           ++ eexists; (split; [done|]).
              apply call_policy_inr in Hcall as [_ Hcall]; [|done].
              assert (pc st1 = pc st ∧ pool st1 = pool st ∧ threads st1 = threads st)
                as (E1 & E2 & E3)
                by (destruct p; [destruct Hcall as [_ ->] .. | subst | subst]; done).
              rank_simpl; rewrite E1, E2, E3, Hrt; simpl. lia.
        -- eexists; (split; [done|]). rank_simpl; rewrite Hrt; simpl. lia.
      * destruct Hdi as (Hk & Hlt & Hj).
        destruct (lookup_lt_is_Some_2 request_sizes k Hlt) as [size ->].
        destruct (lookup_lt_is_Some_2 (pool st) j ltac:(lia)) as [s Hs]. rewrite Hs.
        destruct (receive_request (k + 1) size s) as [e|s'] eqn:Hrecv.
        -- eexists; (split; [done|]). rank_simpl; rewrite Hrt; simpl. lia.
        -- eexists; (split; [done|]). rank_simpl; rewrite Hrt; simpl.
           apply receive_request_inr in Hrecv as (_ & _ & _ & Hpend & _).
           pose proof (queued_insert (pool st) j s s' Hs) as Hqi.
           rewrite Hpend, length_app in Hqi. simpl in Hqi. lia.
  - exists Main. simpl. unfold step_main. rewrite Hpc.
    eexists; (split; [done|]). rank_simpl; rewrite Hpc. simpl. lia.
  - destruct Hph as (Hrun & Hth & Hstop & Hdone & Hex & Hjoined).
    destruct (threads st !! i) as [[]|] eqn:Hi.
    + assert (i < length (pool st)) as Hlt
        by (apply lookup_lt_Some in Hi; lia).
      destruct (lookup_lt_is_Some_2 _ _ Hlt) as [s Hs].
      exists (Worker i 0%Q). simpl. unfold step_worker. rewrite Hi, Hs.
      destruct (process_one 0 s) as [s'|] eqn:Hproc.
      * eexists; (split; [done|]). rank_simpl.
        apply process_one_Some in Hproc as (_ & _ & id & size & Hpend & _).
        pose proof (queued_insert (pool st) i s s' Hs) as Hqi.
        rewrite Hpend in Hqi. simpl in Hqi. lia.
      * rewrite Hstop. eexists; (split; [done|]). rank_simpl.
        pose proof (running_exit _ _ Hi). lia.
    + exists Main. simpl. unfold step_main. rewrite Hpc, Hi.
      eexists; (split; [done|]). rank_simpl; rewrite Hpc. simpl.
      apply lookup_lt_Some in Hi. lia.
    + exists Main. simpl. unfold step_main. rewrite Hpc, Hi.
      eexists; (split; [done|]). rank_simpl; rewrite Hpc. simpl. lia.
Qed.

(** From every state that satisfies the invariant the call can run to its
    end. *)
Lemma can_complete (st : State) :
  inv st → ∃ sched st', run request_sizes algorithm sched st = Some st' ∧
                        terminal st' = true.
Proof.
  remember (rank st) as m eqn:Hm. revert st Hm.
  induction m as [m IH] using lt_wf_ind. intros st -> Hinv.
  destruct (terminal st) eqn:Hterm.
  - exists [], st. done.
  - destruct (progress st Hinv Hterm) as (t & st1 & Hstep & Hlt).
    destruct (IH _ Hlt st1 eq_refl) as (sched & st' & Hrun & Hend).
    + by eapply inv_step.
    + exists (t :: sched), st'. simpl. by rewrite Hstep.
Qed.

End InvariantProofs.

(** ** Consequences of the invariant *)

Section Consequences.

Variable request_sizes : list Q.
Variable algorithm : string.
Variable servers0 : list Server.
Variables c1 c2 : nat.

Local Abbreviation inv := (inv request_sizes algorithm servers0 c1 c2).
Local Abbreviation reachable := (reachable request_sizes algorithm).
Local Abbreviation n := (length servers0).
Local Abbreviation R := (length request_sizes).

(** The call raises only at the lookup. *)
Lemma inv_raised (st : State) (e : exn) :
  inv st → pc st = MRaised e →
  algorithm_map algorithm = None ∧
  st = set_pc (MRaised KeyError) (entry servers0 c1 c2).
Proof. intros [_ Hph] Hpc. by rewrite Hpc in Hph. Qed.

Lemma inv_queues (st : State) :
  inv st → past_reset st = true →
  (∀ j s, pool st !! j = Some s →
     result_ids s ++ (fst <$> pending_requests s) = ids_for j (dispatched st)) ∧
  Forall (λ i, i < n) (dispatched st).
Proof.
  intros [Hst Hph]. unfold past_reset.
  destruct (pc st) as [|i|i| | | |i| |e] eqn:Hpc; try discriminate; intros _.
  1: destruct Hph as (_ & (_ & Hd & _) & _ & _ & _ & Hpool).
  2: destruct Hph as (_ & (_ & Hd & _) & _ & _ & Hpool).
  1-2: rewrite Hd, Hpool; split; [|constructor]; intros j s Hj;
       rewrite list_lookup_fmap in Hj; destruct (servers0 !! j); [|done];
       by injection Hj as <-.
  all: by destruct Hph as ((_ & ? & _) & _).
Qed.

(** When the call has ended normally, every queue is empty. *)
Lemma inv_collect (st : State) :
  inv st → pc st = MCollect →
  length (pool st) = n ∧
  dispatcher_done (request_thread st) = true ∧
  dispatcher_inv request_sizes servers0 st ∧
  closures_inv servers0 c1 c2 st ∧
  Forall (λ i, i < n) (dispatched st) ∧
  ∀ j s, pool st !! j = Some s →
    pending_requests s = [] ∧ result_ids s = ids_for j (dispatched st).
Proof.
  intros [Hst Hph] Hpc. rewrite Hpc in Hph.
  destruct Hph as ((_ & [Hq Hall] & Hdi & Hcl) & Hth & _ & Hdone & Hex).
  pose proof (static_inv_length _ _ Hst) as Hlen.
  split_and!; try done. intros j s Hs.
  destruct (Hex j) as (s' & Hs' & Hempty).
  { rewrite Hth. apply lookup_replicate_2.
    apply lookup_lt_Some in Hs. lia. }
  assert (s' = s) as -> by congruence.
  split; [done|]. rewrite <- (Hq j s Hs), Hempty. simpl. by rewrite app_nil_r.
Qed.

(** The choices of the two closures. *)
Lemma inv_round_robin (st : State) :
  inv st → algorithm_map algorithm = Some RoundRobin →
  (∀ k i, dispatched st !! k = Some i → i = (c1 + k) mod n) ∧
  (request_thread st = DFinished → rr_index (rr st) = c1 + length (dispatched st)).
Proof.
  intros [Hst Hph] Hp.
  destruct (pc st) as [|i|i| | | |i| |e] eqn:Hpc.
  1: { subst st. done. }
  1-3: destruct Hph as (_ & (Hrt & Hd & _) & _); rewrite Hd, Hrt; done.
  5: { destruct Hph as [_ ->]. done. }
  all: destruct Hph as (([Hsel _] & _ & _ & Hcl) & _);
       unfold closures_inv in Hcl; rewrite Hsel, Hp in Hcl;
       destruct Hcl as (_ & Hcalls & Hch); split;
       [ intros k x Hk; apply Hch; unfold choices; by apply lookup_app_l_Some
       | intros Hrt; unfold calls_inv in Hcalls; by rewrite Hrt in Hcalls ].
Qed.

Lemma inv_weighted (st : State) :
  inv st → algorithm_map algorithm = Some WeightedRR →
  let wl := build_weighted_list (bandwidth <$> servers0) in
  (∀ k i, dispatched st !! k = Some i → wl !! ((c2 + k) mod length wl) = Some i) ∧
  (request_thread st = DFinished → idx (wrr st) = c2 + length (dispatched st)).
Proof.
  intros [Hst Hph] Hp wl.
  destruct (pc st) as [|i|i| | | |i| |e] eqn:Hpc.
  1: { subst st. done. }
  1-3: destruct Hph as (_ & (Hrt & Hd & _) & _); rewrite Hd, Hrt; done.
  5: { destruct Hph as [_ ->]. done. }
  all: destruct Hph as (([Hsel _] & _ & _ & Hcl) & _);
       unfold closures_inv in Hcl; rewrite Hsel, Hp in Hcl;
       destruct Hcl as (_ & Hcalls & Hch); split;
       [ intros k x Hk; apply Hch; unfold choices; by apply lookup_app_l_Some
       | intros Hrt; unfold calls_inv in Hcalls; by rewrite Hrt in Hcalls ].
Qed.

(** The closures the call leaves behind. *)
Lemma inv_closures_after (st : State) :
  inv st → pc st = MCollect → request_thread st = DFinished →
  ∀ p, algorithm_map algorithm = Some p →
  weighted_list (wrr st) = build_weighted_list (bandwidth <$> pool st) ∧
  rr_index (rr st) = match p with RoundRobin => c1 + R | _ => c1 end ∧
  idx (wrr st) = match p with WeightedRR => c2 + R | _ => c2 end.
Proof.
  intros [Hst Hph] Hpc Hrt p Hp. rewrite Hpc in Hph.
  destruct Hph as (([Hsel _] & _ & Hdi & Hcl) & _).
  unfold dispatcher_inv in Hdi. rewrite Hrt in Hdi.
  unfold closures_inv, calls_inv in Hcl. rewrite Hsel, Hp, Hrt, Hdi in Hcl.
  destruct Hst as (_ & Hb & Hwl). rewrite Hb. split; [done|].
  destruct p; simpl.
  - destruct Hcl as (-> & -> & _). done.
  - destruct Hcl as (-> & -> & _). done.
  - destruct Hcl as (-> & ->). done.
  - destruct Hcl as (-> & ->). done.
Qed.

(** *** The dispatcher does not fail on a pool on which the policy is
    defined, given positive sizes *)

Lemma call_policy_defined (p : Policy) (st : State) :
  static_inv servers0 st → policy_defined servers0 p →
  ∃ i st', call_policy p st = inr (i, st').
Proof.
  intros Hst Hdef. pose proof (static_inv_length _ _ Hst) as Hlen.
  destruct Hst as (_ & _ & Hwl).
  destruct p; simpl in *.
  - assert (0 < n) as Hn by (destruct servers0; [done | simpl; lia]).
    unfold round_robin_inner, py_mod. rewrite Hlen.
    destruct n as [|m] eqn:En; [lia|].
    assert (rr_index (rr st) mod S m < length (pool st)) as Hlt.
    { rewrite Hlen. apply Nat.mod_upper_bound. lia. }
    destruct (lookup_lt_is_Some_2 _ _ Hlt) as [s ->]. eauto.
  - destruct (wrr st) as [wl c] eqn:Ew. simpl in Hwl. subst wl.
    destruct (weighted_round_robin_inner_ok servers0 c Hdef)
      as (i & Hi & Hlt & _).
    unfold weighted_round_robin_inner. cbn [idx weighted_list].
    simpl in Hi. unfold py_mod.
    destruct (length (build_weighted_list (bandwidth <$> servers0))) eqn:El.
    { destruct (build_weighted_list (bandwidth <$> servers0)); done. }
    rewrite Hi. rewrite <- Hlen in Hlt.
    destruct (lookup_lt_is_Some_2 _ _ Hlt) as [s ->]. eauto.
  - unfold least_connections.
    destruct (py_min_nonempty Nat.ltb
                ((λ s, length (pending_requests s)) <$> pool st)) as [r ->].
    { intros E. apply (f_equal length) in E. rewrite length_fmap, Hlen in E.
      destruct servers0; done. }
    eauto.
  - unfold my_optimizer.
    destruct (py_min_nonempty Qltb (estimate_latency <$> pool st)) as [r ->].
    { intros E. apply (f_equal length) in E. rewrite length_fmap, Hlen in E.
      destruct servers0; done. }
    eauto.
Qed.

Lemma never_failed (p : Policy) (st : State) :
  algorithm_map algorithm = Some p → policy_defined servers0 p →
  Forall (λ size, (0 < size)%Q) request_sizes →
  reachable (entry servers0 c1 c2) st →
  ∀ e, request_thread st ≠ DFailed e.
Proof.
  intros Hp Hdef Hsizes Hreach.
  assert (inv st ∧ ∀ e, request_thread st ≠ DFailed e) as [_ H]; [|done].
  revert st Hreach. apply reachable_ind; [split; [apply inv_entry | done]|].
  intros t st st' _ [Hinv Hnf] Hstep.
  split; [by eapply inv_step|].
  destruct t as [| |i now]; simpl in Hstep.
  - unfold step_main in Hstep.
    repeat case_match; simplify_eq; cbn; try done; intros ?; congruence.
  - unfold step_dispatcher in Hstep.
    destruct (request_thread st) as [|k|k i| |e] eqn:Hrt; try done.
    + destruct (inv_dispatching _ _ _ _ _ st Hinv) as (_ & ([Hsel _] & _) & _);
        [by rewrite Hrt.. |].
      rewrite Hsel, Hp in Hstep.
      destruct (call_policy_defined p st) as (i & st1 & Hcall);
        [apply Hinv | done |].
      rewrite Hcall in Hstep.
      destruct (request_sizes !! k); simplify_eq; cbn; done.
    + destruct (request_sizes !! k) as [size|] eqn:Hsize; [|done].
      destruct (pool st !! i) as [s|]; [|done].
      assert (0 < size)%Q as Hpos.
      { rewrite Forall_forall in Hsizes. apply Hsizes.
        apply list_elem_of_lookup. eauto. }
      unfold receive_request in Hstep.
      destruct (Qle_bool size 0) eqn:E.
      { apply Qle_bool_iff in E. exfalso. by apply (Qlt_not_le _ _ Hpos). }
      simplify_eq. cbn. done.
  - unfold step_worker in Hstep.
    repeat case_match; simplify_eq; cbn; done.
Qed.

End Consequences.
(** ** The harness: errors and the stop signal *)

(** C9: with a policy name that is not a key of [algorithm_map], the only
    thing the call does is raise [KeyError] at the lookup: in every state it
    reaches the pool is the one it was given (no server reset), no worker and
    no dispatcher has been started, and nothing has been dispatched. *)
Theorem unknown_policy_raises_first (request_sizes : list Q) (algorithm : string)
    (servers : list Server) (c1 c2 : nat) :
  algorithm_map algorithm = None →
  step request_sizes algorithm Main (entry servers c1 c2)
    = Some (set_pc (MRaised KeyError) (entry servers c1 c2)) ∧
  ∀ st, reachable request_sizes algorithm (entry servers c1 c2) st →
    (st = entry servers c1 c2 ∨ st = set_pc (MRaised KeyError) (entry servers c1 c2)) ∧
    pool st = servers ∧ threads st = [] ∧ request_thread st = DNotStarted ∧
    dispatched st = [] ∧ stop_event st = false ∧
    rr st = mkRR c1 ∧ idx (wrr st) = c2.
Proof.
  intros Hnone. split.
  - simpl. unfold step_main. simpl. by rewrite Hnone.
  - intros st Hreach. apply inv_reachable in Hreach as [_ Hph].
    destruct (pc st) as [|i|i| | | |i| |e] eqn:Hpc.
    1: { subst st. split_and!; try done. by left. }
    8: { destruct Hph as [_ ->]. split_and!; try done. by right. }
    1-3: destruct Hph as ([Hsel [p Hp]] & _); congruence.
    all: destruct Hph as (([Hsel [p Hp]] & _) & _); congruence.
Qed.

Lemma unknown_policy_raises_first_witness :
  step [700%Q; 900%Q] "Random" Main
       (entry [mkServer "Server1" 1000 [(7, 5%Q)] []; mkServer "Server2" 800 [] []] 3 4)
  = Some (set_pc (MRaised KeyError)
       (entry [mkServer "Server1" 1000 [(7, 5%Q)] []; mkServer "Server2" 800 [] []] 3 4)).
Proof.
  apply (unknown_policy_raises_first [700%Q; 900%Q] "Random"
           [mkServer "Server1" 1000 [(7, 5%Q)] []; mkServer "Server2" 800 [] []] 3 4).
  reflexivity.
Defined.

(** C2 (as amended): in every state of every run, the stop signal is up
    only if the dispatcher thread has ended, so no enqueue is pending and
    none can follow; every request has then been enqueued if the thread
    ended without an exception, which is always so when the policy is
    defined on the pool and the sizes are positive.  The only action that
    raises the signal is the main thread's, taken after the dispatcher has
    been joined.  The main thread waits for workers only with the signal up,
    one worker after the other, blocked as long as the worker it waits for
    runs, and it goes on to the collection only when every worker has
    exited; no worker exits before the signal is up. *)
Theorem stop_after_last_enqueue (request_sizes : list Q) (algorithm : string)
    (servers : list Server) (c1 c2 : nat) (st : State) :
  reachable request_sizes algorithm (entry servers c1 c2) st →
  (stop_event st = true →
     dispatcher_done (request_thread st) = true ∧
     step request_sizes algorithm Dispatcher st = None ∧
     (request_thread st = DFinished →
        length (dispatched st) = length request_sizes) ∧
     (∀ p, algorithm_map algorithm = Some p → policy_defined servers p →
        Forall (λ size, (0 < size)%Q) request_sizes →
        request_thread st = DFinished ∧
        length (dispatched st) = length request_sizes)) ∧
  (∀ t st', step request_sizes algorithm t st = Some st' →
     stop_event st = false → stop_event st' = true →
     t = Main ∧ pc st = MSetStop ∧ dispatcher_done (request_thread st) = true) ∧
  (pc st = MCollect ∨ (∃ i, pc st = MJoinWorkers i) → stop_event st = true) ∧
  (stop_event st = false → ∀ j, threads st !! j ≠ Some WExited) ∧
  (∀ i, pc st = MJoinWorkers i →
     length (threads st) = length servers ∧
     (∀ j, j < i → threads st !! j = Some WExited) ∧
     (threads st !! i = Some WRunning →
        step request_sizes algorithm Main st = None)) ∧
  (pc st = MCollect → threads st = replicate (length servers) WExited).
Proof.
  intros Hreach. pose proof Hreach as Hreach0.
  apply inv_reachable in Hreach as [Hst Hph]. split_and!.
  - intros Hstop.
    assert (dispatcher_done (request_thread st) = true ∧
            dispatcher_inv request_sizes servers st) as [Hdone Hdi].
    { destruct (pc st) as [|i|i| | | |i| |e] eqn:Hpc.
      1: { subst st. done. }
      8: { destruct Hph as [_ ->]. done. }
      1: destruct Hph as (_ & _ & _ & ? & _); congruence.
      1: destruct Hph as (_ & _ & _ & _ & ? & _); congruence.
      1: destruct Hph as (_ & _ & _ & ? & _); congruence.
      1: destruct Hph as (_ & _ & ?); congruence.
      1: destruct Hph as (_ & _ & ? & _); congruence.
      all: by destruct Hph as ((_ & _ & ? & _) & _ & _ & ? & _). }
    assert (request_thread st = DFinished →
            length (dispatched st) = length request_sizes) as Hfin.
    { intros Hrt. unfold dispatcher_inv in Hdi. by rewrite Hrt in Hdi. }
    split_and!; [done | | done |].
    + simpl. unfold step_dispatcher. by destruct (request_thread st).
    + intros p Hp Hdef Hsizes.
      pose proof (never_failed _ _ _ _ _ _ _ Hp Hdef Hsizes Hreach0) as Hnf.
      assert (request_thread st = DFinished) as Hrt.
      { destruct (request_thread st) as [| | | |e]; try done. by destruct (Hnf e). }
      split; [done | by apply Hfin].
  - intros t st' Hstep Hoff Hon.
    destruct t as [| |i now]; simpl in Hstep.
    + unfold step_main in Hstep.
      destruct (pc st) as [|i|i| | | |i| |e] eqn:Hpc;
        repeat case_match; simplify_eq; cbn in Hon; try congruence.
      by destruct Hph as (_ & _ & _ & ?).
    + unfold step_dispatcher in Hstep.
      repeat case_match; simplify_eq; cbn in Hon; try congruence.
      all: match goal with
           | H : call_policy ?p _ = inr _ |- _ =>
               destruct p; simpl in H; repeat case_match; simplify_eq;
               cbn in Hon; congruence
           end.
    + unfold step_worker in Hstep.
      repeat case_match; simplify_eq; cbn in Hon; congruence.
  - intros [Hpc | [i Hpc]]; rewrite Hpc in Hph.
    + by destruct Hph as (_ & _ & ? & _).
    + by destruct Hph as (_ & _ & ? & _).
  - intros Hstop j Hj.
    destruct (pc st) as [|i|i| | | |i| |e] eqn:Hpc.
    1: { subst st. done. }
    8: { destruct Hph as [_ ->]. done. }
    1: destruct Hph as (_ & _ & Hth & _).
    2: destruct Hph as (_ & _ & Hth & _).
    3: destruct Hph as (_ & _ & Hth & _).
    4: destruct Hph as (_ & Hth & _).
    5: destruct Hph as (_ & Hth & _).
    1-5: rewrite Hth in Hj; try done;
         apply lookup_replicate in Hj as [? _]; discriminate.
    all: destruct Hph as (_ & _ & ? & _); congruence.
  - intros i Hpc. rewrite Hpc in Hph.
    destruct Hph as (_ & Hlen & _ & _ & _ & Hbefore).
    split_and!; [done | done |].
    intros Hi. simpl. unfold step_main. by rewrite Hpc, Hi.
  - intros Hpc. rewrite Hpc in Hph. by destruct Hph as (_ & ? & _).
Qed.

Lemma stop_after_last_enqueue_witness :
  request_thread sample_final = DFinished ∧
  length (dispatched sample_final) = length sample_sizes ∧
  threads sample_final = replicate (length servers) WExited.
Proof.
  destruct (stop_after_last_enqueue sample_sizes "Least Conn" servers 0 0 sample_final)
    as ((_ & _ & _ & Hall) & _ & _ & _ & _ & Hexited).
  - exists (sequential_schedule sample_sizes "Least Conn" 200 (first_call servers)).
    vm_compute. reflexivity.
  - reflexivity.
  - destruct (Hall LeastConn) as [Hfin Hlen];
      [reflexivity | discriminate | repeat constructor |].
    split_and!; [exact Hfin | exact Hlen | exact (Hexited eq_refl)].
Defined.

(** Counterexample to C2 as stated: a pool of one server of bandwidth 1/2
    under weighted round-robin and one request.  The main thread looks the
    policy up, resets the server, starts its worker and the dispatcher; the
    first selection raises [ZeroDivisionError] in the dispatcher thread; the
    main thread joins the dead thread and raises the stop signal, with the
    one request never enqueued. *)
Lemma stop_raised_with_request_missing :
  ∃ st st',
    run [700%Q] "Weighted RR" [Main; Main; Main; Main; Main; Main; Dispatcher; Main]
      (first_call [mkServer "A" (1 # 2) [] []]) = Some st ∧
    step [700%Q] "Weighted RR" Main st = Some st' ∧
    stop_event st = false ∧ stop_event st' = true ∧
    request_thread st' = DFailed ZeroDivisionError ∧
    dispatched st' = [] ∧
    (∀ s, s ∈ pool st' → pending_requests s = [] ∧ result s = []) ∧
    length (dispatched st') < length [700%Q].
Proof.
  do 2 eexists. split; [vm_compute; reflexivity|].
  split; [vm_compute; reflexivity|]. cbn.
  split_and!; try reflexivity; [|lia].
  intros s Hs. apply list_elem_of_singleton in Hs as ->. done.
Qed.

(** ** The harness on an empty pool *)

Lemma call_policy_empty (p : Policy) (st : State) :
  pool st = [] → weighted_list (wrr st) = [] →
  call_policy p st = inl (empty_pool_error p).
Proof.
  intros Hpool Hwl. destruct p; simpl.
  - unfold round_robin_inner. by rewrite Hpool.
  - unfold weighted_round_robin_inner. by rewrite Hwl.
  - by rewrite Hpool.
  - by rewrite Hpool.
Qed.

Lemma empty_pool_states (request_sizes : list Q) (algorithm : string) (p : Policy)
    (c1 c2 : nat) (st : State) :
  request_sizes ≠ [] → algorithm_map algorithm = Some p →
  reachable request_sizes algorithm (entry [] c1 c2) st →
  pool st = [] ∧ threads st = [] ∧ dispatched st = [] ∧
  (request_thread st = DNotStarted ∨ request_thread st = DSelect 0 ∨
   request_thread st = DFailed (empty_pool_error p)).
Proof.
  intros Hne Hp Hreach.
  assert (inv request_sizes algorithm [] c1 c2 st ∧
          (request_thread st = DNotStarted ∨ request_thread st = DSelect 0 ∨
           request_thread st = DFailed (empty_pool_error p))) as [Hinv Hrt].
  { revert st Hreach. apply reachable_ind; [split; [apply inv_entry | by left]|].
    intros t st st' _ [Hinv Hrt] Hstep. split; [by eapply inv_step|].
    destruct t as [| |i now]; simpl in Hstep.
    - unfold step_main in Hstep.
      repeat case_match; simplify_eq; cbn;
        first [done | assumption | by right; left | naive_solver].
    - unfold step_dispatcher in Hstep.
      destruct Hrt as [Hrt | [Hrt | Hrt]]; rewrite Hrt in Hstep; try done.
      destruct (inv_dispatching _ _ _ _ _ st Hinv) as (_ & ([Hsel _] & _) & _);
        [by rewrite Hrt.. |].
      destruct request_sizes as [|size sizes]; [done|]. simpl in Hstep.
      rewrite Hsel, Hp in Hstep. rewrite call_policy_empty in Hstep.
      + simplify_eq. cbn. by right; right.
      + destruct Hinv as [Hst _]. apply static_inv_length in Hst.
        by destruct (pool st).
      + by destruct Hinv as [(_ & _ & ?) _].
    - unfold step_worker in Hstep.
      repeat case_match; simplify_eq; cbn; first [done | assumption]. }
  split_and!; [| | |done].
  - destruct Hinv as [Hst _]. apply static_inv_length in Hst. by destruct (pool st).
  - destruct Hinv as [_ Hph].
    destruct (pc st) as [|i|i| | | |i| |e] eqn:Hpc.
    1: { subst st. done. }
    8: { destruct Hph as [_ ->]. done. }
    1: by destruct Hph as (_ & _ & ? & _).
    1: { destruct Hph as (_ & _ & -> & Hi & _). simpl in Hi.
         by replace i with 0 by lia. }
    1: by destruct Hph as (_ & _ & ? & _).
    1-2: by destruct Hph as (_ & ? & _).
    1: { destruct Hph as (_ & Hl & _). by destruct (threads st). }
    1: by destruct Hph as (_ & ? & _).
  - destruct Hinv as [_ Hph].
    destruct (pc st) as [|i|i| | | |i| |e] eqn:Hpc.
    1: { subst st. done. }
    8: { destruct Hph as [_ ->]. done. }
    1-3: by destruct Hph as (_ & (_ & ? & _) & _).
    all: destruct Hph as ((_ & [_ Hall] & _) & _);
         destruct (dispatched st) as [|x l]; [done|];
         apply Forall_cons in Hall as [Hx _]; simpl in Hx; lia.
Qed.

(** C4 (as amended): on an empty pool with a non-empty request list, under
    any registered policy, no worker is ever started and no request is ever
    enqueued; the first selection raises inside the dispatcher thread
    ([ZeroDivisionError] for the two round-robin policies, [ValueError] for
    the two [min]-based ones), which ends that thread only; the call itself
    does not raise: it goes on to the point where results are collected. *)
Theorem empty_pool_dispatcher_fails (request_sizes : list Q) (algorithm : string)
    (p : Policy) (c1 c2 : nat) :
  request_sizes ≠ [] → algorithm_map algorithm = Some p →
  (∀ st, reachable request_sizes algorithm (entry [] c1 c2) st →
     pool st = [] ∧ threads st = [] ∧ dispatched st = [] ∧
     (∀ e, pc st ≠ MRaised e) ∧
     (∀ e, request_thread st = DFailed e → e = empty_pool_error p) ∧
     request_thread st ≠ DFinished ∧
     (terminal st = true →
        pc st = MCollect ∧ request_thread st = DFailed (empty_pool_error p))) ∧
  ∃ sched st, run request_sizes algorithm sched (entry [] c1 c2) = Some st ∧
              pc st = MCollect ∧
              request_thread st = DFailed (empty_pool_error p).
Proof.
  intros Hne Hp.
  assert (∀ st, reachable request_sizes algorithm (entry [] c1 c2) st →
     pool st = [] ∧ threads st = [] ∧ dispatched st = [] ∧
     (∀ e, pc st ≠ MRaised e) ∧
     (∀ e, request_thread st = DFailed e → e = empty_pool_error p) ∧
     request_thread st ≠ DFinished ∧
     (terminal st = true →
        pc st = MCollect ∧ request_thread st = DFailed (empty_pool_error p)))
    as Hall.
  { intros st Hreach.
    destruct (empty_pool_states _ _ _ _ _ _ Hne Hp Hreach) as (Hpool & Hth & Hd & Hrt).
    pose proof (inv_reachable _ _ _ _ _ _ Hreach) as Hinv.
    assert (∀ e, pc st ≠ MRaised e) as Hnr.
    { intros e Hpc. destruct (inv_raised _ _ _ _ _ _ _ Hinv Hpc) as [? _]. congruence. }
    split_and!; try done.
    - intros e He. destruct Hrt as [Hrt | [Hrt | Hrt]]; congruence.
    - destruct Hrt as [Hrt | [Hrt | Hrt]]; congruence.
    - unfold terminal. destruct (pc st) eqn:Hpc; try done; [|by destruct (Hnr e)].
      intros _. split; [done|].
      destruct Hinv as [_ Hph]. rewrite Hpc in Hph.
      destruct Hph as (_ & _ & _ & Hdone & _).
      destruct Hrt as [Hrt | [Hrt | Hrt]]; rewrite Hrt in Hdone; done. }
  split; [done|].
  destruct (can_complete request_sizes algorithm [] c1 c2 (entry [] c1 c2))
    as (sched & st & Hrun & Hterm); [apply inv_entry|].
  exists sched, st. split; [done|].
  apply Hall; [by exists sched | done].
Qed.

Lemma empty_pool_dispatcher_fails_witness :
  ∃ sched st, run [700%Q] "Least Conn" sched (entry [] 0 0) = Some st ∧
              pc st = MCollect ∧ request_thread st = DFailed ValueError.
Proof.
  apply (empty_pool_dispatcher_fails [700%Q] "Least Conn" LeastConn 0 0).
  - discriminate.
  - reflexivity.
Defined.

(** Counterexample to C4 as stated: with an empty pool and one request the
    call never raises (there is no [EmptyServerPool] error): the exception
    of the first selection is confined to the dispatcher thread and the main
    thread runs on to the collection of results. *)
Lemma empty_pool_run_not_aborted :
  (∀ st, reachable [700%Q] "Round Robin" (first_call []) st → ∀ e, pc st ≠ MRaised e) ∧
  ∃ sched st, run [700%Q] "Round Robin" sched (first_call []) = Some st ∧
              pc st = MCollect ∧ threads st = [] ∧
              request_thread st = DFailed ZeroDivisionError.
Proof.
  split.
  - intros st Hreach e Hpc.
    apply (inv_reachable _ _ [] 0 0) in Hreach.
    by destruct (inv_raised _ _ _ _ _ _ _ Hreach Hpc).
  - exists (sequential_schedule [700%Q] "Round Robin" 50 (first_call [])).
    eexists. vm_compute. split_and!; reflexivity.
Qed.
(** ** Conservation of requests *)

Lemma first_call_entry (servers : list Server) :
  first_call servers = entry servers 0 0.
Proof. reflexivity. Qed.

Lemma occurrences_NoDup (x : nat) (l : list nat) :
  NoDup l → x ∈ l → occurrences x l = 1.
Proof.
  unfold occurrences. induction 1 as [|y l Hy Hnd IH]; [by intros ?%elem_of_nil|].
  rewrite filter_cons. intros [-> | Hx]%elem_of_cons.
  - rewrite decide_True by done. simpl. f_equal.
    apply occurrences_zero in Hy. exact Hy.
  - rewrite decide_False by (intros ->; done). by apply IH.
Qed.

Lemma length_result_ids (s : Server) : length (result_ids s) = total_requests s.
Proof. unfold result_ids, total_requests. by rewrite length_fmap. Qed.

(** At the end of a call the totals are those of the dispatch history. *)
Lemma totals_collect (request_sizes : list Q) (algorithm : string)
    (servers : list Server) (c1 c2 : nat) (st : State) :
  inv request_sizes algorithm servers c1 c2 st → pc st = MCollect →
  totals st = (λ j, length (ids_for j (dispatched st))) <$> seq 0 (length servers).
Proof.
  intros Hinv Hpc.
  destruct (inv_collect _ _ _ _ _ _ Hinv Hpc) as (Hlen & _ & _ & _ & _ & Hres).
  unfold totals. apply list_eq. intros j. rewrite !list_lookup_fmap.
  destruct (decide (j < length servers)) as [Hlt | Hge].
  - rewrite lookup_seq_lt by done. simpl.
    destruct (lookup_lt_is_Some_2 (pool st) j ltac:(lia)) as [s Hs].
    rewrite Hs. simpl. destruct (Hres j s Hs) as [_ <-].
    by rewrite length_result_ids.
  - rewrite lookup_seq_ge by lia. by rewrite lookup_ge_None_2 by lia.
Qed.

Lemma finished_collect (request_sizes : list Q) (algorithm : string) (p : Policy)
    (servers : list Server) (c1 c2 : nat) (st : State) :
  algorithm_map algorithm = Some p → policy_defined servers p →
  Forall (λ size, (0 < size)%Q) request_sizes →
  reachable request_sizes algorithm (entry servers c1 c2) st → pc st = MCollect →
  request_thread st = DFinished ∧ length (dispatched st) = length request_sizes.
Proof.
  intros Hp Hdef Hsizes Hreach Hpc.
  pose proof (never_failed _ _ _ _ _ _ _ Hp Hdef Hsizes Hreach) as Hnf.
  pose proof (inv_reachable _ _ _ _ _ _ Hreach) as Hinv.
  destruct (inv_collect _ _ _ _ _ _ Hinv Hpc) as (_ & Hdone & Hdi & _).
  unfold dispatcher_inv in Hdi.
  destruct (request_thread st) eqn:Hrt; try done. by destruct (Hnf e).
Qed.

Lemma completes (request_sizes : list Q) (algorithm : string) (p : Policy)
    (servers : list Server) (c1 c2 : nat) :
  algorithm_map algorithm = Some p →
  ∃ sched st, run request_sizes algorithm sched (entry servers c1 c2) = Some st ∧
              pc st = MCollect.
Proof.
  intros Hp.
  destruct (can_complete request_sizes algorithm servers c1 c2 (entry servers c1 c2))
    as (sched & st & Hrun & Hterm); [apply inv_entry|].
  exists sched, st. split; [done|].
  assert (inv request_sizes algorithm servers c1 c2 st) as Hinv
    by (apply inv_reachable; by exists sched).
  unfold terminal in Hterm. destruct (pc st) eqn:Hpc; try done.
  destruct (inv_raised _ _ _ _ _ _ _ Hinv Hpc). congruence.
Qed.

(** Once all workers are joined, the totals add up to the number of
    requests and every request has exactly one record, on the server it was
    dispatched to. *)
Lemma conservation_at_collect (request_sizes : list Q) (algorithm : string)
    (p : Policy) (servers : list Server) (c1 c2 : nat) (st : State) :
  algorithm_map algorithm = Some p → policy_defined servers p →
  Forall (λ size, (0 < size)%Q) request_sizes →
  reachable request_sizes algorithm (entry servers c1 c2) st →
  pc st = MCollect →
  sum_list (totals st) = length request_sizes ∧
  length (dispatched st) = length request_sizes ∧
  (∀ j s id, pool st !! j = Some s → id ∈ result_ids s →
     1 ≤ id ≤ length request_sizes) ∧
  ∀ k, k < length request_sizes →
    ∃ i s, dispatched st !! k = Some i ∧ pool st !! i = Some s ∧
      occurrences (S k) (result_ids s) = 1 ∧
      ∀ j s', pool st !! j = Some s' → j ≠ i → S k ∉ result_ids s'.
Proof.
  intros Hp Hdef Hsizes Hreach Hpc.
  destruct (finished_collect _ _ _ _ _ _ _ Hp Hdef Hsizes Hreach Hpc) as [Hfin HR].
  pose proof (inv_reachable _ _ _ _ _ _ Hreach) as Hinv.
  destruct (inv_collect _ _ _ _ _ _ Hinv Hpc) as (Hlen & _ & _ & _ & Hall & Hres).
  split_and!; [| done | |].
  - rewrite (totals_collect _ _ _ _ _ _ Hinv Hpc).
    unfold ids_for. by rewrite ids_from_length_sum.
  - intros j s id Hs Hid. destruct (Hres j s Hs) as [_ Hids].
    rewrite Hids in Hid. apply elem_of_ids_from in Hid as (m & -> & Hm).
    apply lookup_lt_Some in Hm. lia.
  - intros k Hk.
    destruct (lookup_lt_is_Some_2 (dispatched st) k ltac:(lia)) as [i Hi].
    assert (i < length servers) as Hlt.
    { rewrite Forall_forall in Hall. apply Hall, list_elem_of_lookup. eauto. }
    destruct (lookup_lt_is_Some_2 (pool st) i ltac:(lia)) as [s Hs].
    exists i, s. split_and!; [done | done | |].
    + destruct (Hres i s Hs) as [_ ->]. apply occurrences_NoDup.
      * apply NoDup_ids_from.
      * apply elem_of_ids_from. exists k. split; [lia | done].
    + intros j s' Hs' Hji Hin. destruct (Hres j s' Hs') as [_ Hids].
      rewrite Hids in Hin. apply elem_of_ids_from in Hin as (m & Hm & Hj).
      assert (m = k) as -> by lia. congruence.
Qed.

(** C1 (as amended): for a non-empty pool, a policy whose selection is
    defined on it (always for round-robin, least connections and the latency
    optimizer; for weighted round-robin when the flattened list is not
    empty) and positive request sizes, every run can be completed, and once
    all workers are joined the totals add up to the number of requests and
    every request id has exactly one result record, on the server selected
    for it and on no other. *)
Theorem requests_conserved (request_sizes : list Q) (algorithm : string)
    (p : Policy) (servers : list Server) (c1 c2 : nat) :
  servers ≠ [] → algorithm_map algorithm = Some p → policy_defined servers p →
  Forall (λ size, (0 < size)%Q) request_sizes →
  (∃ sched st, run request_sizes algorithm sched (entry servers c1 c2) = Some st ∧
               pc st = MCollect) ∧
  ∀ st, reachable request_sizes algorithm (entry servers c1 c2) st →
    pc st = MCollect →
    sum_list (totals st) = length request_sizes ∧
    length (dispatched st) = length request_sizes ∧
    (∀ j s id, pool st !! j = Some s → id ∈ result_ids s →
       1 ≤ id ≤ length request_sizes) ∧
    ∀ k, k < length request_sizes →
      ∃ i s, dispatched st !! k = Some i ∧ pool st !! i = Some s ∧
        occurrences (S k) (result_ids s) = 1 ∧
        ∀ j s', pool st !! j = Some s' → j ≠ i → S k ∉ result_ids s'.
Proof.
  intros Hne Hp Hdef Hsizes. split; [by eapply completes|].
  intros st Hreach Hpc. by eapply conservation_at_collect.
Qed.

Lemma requests_conserved_witness :
  sum_list (totals sample_final) = length sample_sizes.
Proof.
  destruct (requests_conserved sample_sizes "Least Conn" LeastConn servers 0 0)
    as [_ H].
  - discriminate.
  - reflexivity.
  - discriminate.
  - repeat constructor.
  - destruct (H sample_final) as [Hsum _]; [|reflexivity|exact Hsum].
    exists (sequential_schedule sample_sizes "Least Conn" 200 (first_call servers)).
    vm_compute. reflexivity.
Defined.

(** Counterexample to C1 as stated: a pool of one server of bandwidth 1/2
    under weighted round-robin; the flattened list is empty, the first
    selection raises in the dispatcher thread, and the run ends with no
    request recorded although one was submitted. *)
Lemma weighted_run_loses_requests :
  ∃ sched st,
    run [700%Q] "Weighted RR" sched (first_call [mkServer "A" (1 # 2) [] []]) = Some st ∧
    pc st = MCollect ∧ request_thread st = DFailed ZeroDivisionError ∧
    sum_list (totals st) = 0 ∧ sum_list (totals st) ≠ length [700%Q].
Proof.
  exists (sequential_schedule [700%Q] "Weighted RR" 50
            (first_call [mkServer "A" (1 # 2) [] []])).
  eexists. vm_compute. split_and!; try reflexivity. discriminate.
Qed.
(** ** Round-robin *)

Lemma rr_selections_cycle (servers : list Server) (m : nat) : ∀ c,
  servers ≠ [] →
  rr_selections servers (mkRR c) m = (λ x, x mod length servers) <$> seq c m.
Proof.
  induction m as [|m IH]; intros c Hne; [done|].
  cbn [rr_selections seq fmap list_fmap].
  unfold round_robin_inner, py_mod. cbn [rr_index].
  destruct (length servers) as [|n] eqn:Hn; [by destruct servers|].
  assert (c mod S n < length servers) as Hlt
    by (rewrite Hn; apply Nat.mod_upper_bound; lia).
  destruct (lookup_lt_is_Some_2 _ _ Hlt) as [s ->].
  f_equal. replace (c + 1) with (S c) by lia. by rewrite IH.
Qed.

(** C3: on a non-empty pool of size n, the k-th call (1-based) of a fresh
    round-robin closure returns position (k-1) mod n; in every state of a
    first run under round-robin, whatever the request sizes, a request
    found in the queue or in the results of server j has an id k with
    j = (k-1) mod n; and when the sizes are positive the run can be
    completed and then request k has its record on server (k-1) mod n. *)
Theorem round_robin_assignment (request_sizes : list Q) (servers : list Server) :
  servers ≠ [] →
  (∀ k, 1 ≤ k →
     rr_selections servers (round_robin servers) k !! (k - 1)
     = Some ((k - 1) mod length servers)) ∧
  (∀ st, reachable request_sizes "Round Robin" (first_call servers) st →
     past_reset st = true →
     ∀ j s k, pool st !! j = Some s →
       k ∈ result_ids s ++ (fst <$> pending_requests s) →
       1 ≤ k ∧ j = (k - 1) mod length servers) ∧
  (Forall (λ size, (0 < size)%Q) request_sizes →
     (∃ sched st, run request_sizes "Round Robin" sched (first_call servers) = Some st ∧
                  pc st = MCollect) ∧
     ∀ st, reachable request_sizes "Round Robin" (first_call servers) st →
       pc st = MCollect →
       ∀ k, 1 ≤ k ≤ length request_sizes →
         ∃ s, pool st !! ((k - 1) mod length servers) = Some s ∧ k ∈ result_ids s).
Proof.
  intros Hne. split_and!.
  - intros k Hk. unfold round_robin. rewrite rr_selections_cycle by done.
    rewrite list_lookup_fmap, lookup_seq_lt by lia. done.
  - intros st Hreach Hpast j s k Hs Hk. rewrite first_call_entry in Hreach.
    pose proof (inv_reachable _ _ _ _ _ _ Hreach) as Hinv.
    destruct (inv_queues _ _ _ _ _ _ Hinv Hpast) as [Hq _].
    rewrite (Hq j s Hs) in Hk. apply elem_of_ids_from in Hk as (m & -> & Hm).
    destruct (inv_round_robin _ _ _ _ _ _ Hinv eq_refl) as [Hch _].
    apply Hch in Hm. simpl in *. split; [lia|]. rewrite Hm. f_equal. lia.
  - intros Hsizes. rewrite first_call_entry.
    split; [by eapply completes|]. intros st Hreach Hpc k Hk.
    destruct (conservation_at_collect request_sizes "Round Robin" RoundRobin
                servers 0 0 st eq_refl Hne Hsizes Hreach Hpc) as (_ & _ & _ & Hper).
    destruct (Hper (k - 1) ltac:(lia)) as (i & s & Hi & Hs & Hocc & _).
    pose proof (inv_reachable _ _ _ _ _ _ Hreach) as Hinv.
    destruct (inv_round_robin _ _ _ _ _ _ Hinv eq_refl) as [Hch _].
    apply Hch in Hi. simpl in Hi. subst i. exists s. split; [done|].
    replace (S (k - 1)) with k in Hocc by lia.
    destruct (decide (k ∈ result_ids s)) as [|Hn]; [done|].
    apply occurrences_zero in Hn. lia.
Qed.

Lemma round_robin_assignment_witness :
  rr_selections servers (round_robin servers) 6 !! (6 - 1) = Some 1 ∧
  ∃ s, pool sample_final_rr !! ((3 - 1) mod 4) = Some s ∧ 3 ∈ result_ids s.
Proof.
  destruct (round_robin_assignment sample_sizes servers) as (Hsel & _ & Hrun);
    [discriminate|].
  split; [exact (Hsel 6 ltac:(lia))|].
  destruct Hrun as [_ Hrun]; [repeat constructor|].
  apply (Hrun sample_final_rr).
  - exists (sequential_schedule sample_sizes "Round Robin" 200 (first_call servers)).
    vm_compute. reflexivity.
  - reflexivity.
  - simpl. lia.
Defined.
(** ** Two runs in a row *)

Lemma next_call_entry (request_sizes : list Q) (algorithm : string) (p : Policy)
    (servers : list Server) (c1 c2 : nat) (st : State) :
  algorithm_map algorithm = Some p → policy_defined servers p →
  Forall (λ size, (0 < size)%Q) request_sizes →
  reachable request_sizes algorithm (entry servers c1 c2) st → pc st = MCollect →
  next_call st
  = entry (pool st)
      match p with RoundRobin => c1 + length request_sizes | _ => c1 end
      match p with WeightedRR => c2 + length request_sizes | _ => c2 end.
Proof.
  intros Hp Hdef Hsizes Hreach Hpc.
  destruct (finished_collect _ _ _ _ _ _ _ Hp Hdef Hsizes Hreach Hpc) as [Hfin _].
  pose proof (inv_reachable _ _ _ _ _ _ Hreach) as Hinv.
  destruct (inv_closures_after _ _ _ _ _ _ Hinv Hpc Hfin p Hp) as (Hwl & Hrr & Hidx).
  unfold next_call, entry. f_equal.
  - destruct (rr st). simpl in Hrr. by rewrite Hrr.
  - destruct (wrr st). simpl in Hwl, Hidx. by rewrite Hwl, Hidx.
Qed.

Lemma policy_defined_pool (request_sizes : list Q) (algorithm : string) (p : Policy)
    (servers : list Server) (c1 c2 : nat) (st : State) :
  servers ≠ [] → policy_defined servers p →
  inv request_sizes algorithm servers c1 c2 st →
  pool st ≠ [] ∧ policy_defined (pool st) p ∧ length (pool st) = length servers ∧
  build_weighted_list (bandwidth <$> pool st)
  = build_weighted_list (bandwidth <$> servers).
Proof.
  intros Hne Hdef [Hst _]. pose proof (static_inv_length _ _ Hst) as Hlen.
  destruct Hst as (_ & Hb & _).
  assert (pool st ≠ []) as Hne' by (destruct (pool st), servers; done).
  split_and!; try done; [|by rewrite Hb].
  destruct p; simpl in *; try done. by rewrite Hb.
Qed.

Lemma same_choices (l1 l2 : list nat) :
  length l1 = length l2 →
  (∀ k i j, l1 !! k = Some i → l2 !! k = Some j → i = j) → l1 = l2.
Proof.
  intros Hlen Hsame. apply list_eq. intros k.
  destruct (l1 !! k) as [i|] eqn:H1; destruct (l2 !! k) as [j|] eqn:H2.
  - f_equal. by eapply Hsame.
  - apply lookup_lt_Some in H1. apply lookup_ge_None in H2. lia.
  - apply lookup_lt_Some in H2. apply lookup_ge_None in H1. lia.
  - done.
Qed.

(** C7 (as amended): the counters of the two round-robin closures are not
    reset between runs: after a complete run of R requests, the closure of
    the policy that ran has received R more calls, and the next run goes on
    from there.  Two runs in a row with the same pool, the same positive
    sizes and the same policy can be completed, and they dispatch alike and
    leave identical per-server totals whenever R is a multiple of the
    policy's cycle (the pool size for round-robin, the length of the
    flattened list for weighted round-robin). *)
Theorem rerun_totals (request_sizes : list Q) (algorithm : string) (p : Policy)
    (servers : list Server) (c1 c2 : nat) :
  servers ≠ [] → Forall (λ size, (0 < size)%Q) request_sizes →
  algorithm_map algorithm = Some p → p = RoundRobin ∨ p = WeightedRR →
  policy_defined servers p →
  (∃ s1 st1 s2 st2,
     run request_sizes algorithm s1 (entry servers c1 c2) = Some st1 ∧
     pc st1 = MCollect ∧
     run request_sizes algorithm s2 (next_call st1) = Some st2 ∧
     pc st2 = MCollect) ∧
  ∀ st1 st2,
    reachable request_sizes algorithm (entry servers c1 c2) st1 →
    pc st1 = MCollect →
    reachable request_sizes algorithm (next_call st1) st2 →
    pc st2 = MCollect →
    rr_index (rr st1)
      = match p with RoundRobin => c1 + length request_sizes | _ => c1 end ∧
    idx (wrr st1)
      = match p with WeightedRR => c2 + length request_sizes | _ => c2 end ∧
    (length request_sizes mod cycle_length servers p = 0 →
       dispatched st2 = dispatched st1 ∧ totals st2 = totals st1).
Proof.
  intros Hne Hsizes Hp Hrr Hdef. split.
  - destruct (completes request_sizes algorithm p servers c1 c2 Hp)
      as (s1 & st1 & Hrun1 & Hpc1).
    assert (reachable request_sizes algorithm (entry servers c1 c2) st1) as Hreach1
      by (by exists s1).
    destruct (completes request_sizes algorithm p (pool st1)
                match p with RoundRobin => c1 + length request_sizes | _ => c1 end
                match p with WeightedRR => c2 + length request_sizes | _ => c2 end Hp)
      as (s2 & st2 & Hrun2 & Hpc2).
    exists s1, st1, s2, st2.
    rewrite (next_call_entry _ _ _ _ _ _ _ Hp Hdef Hsizes Hreach1 Hpc1). done.
  - intros st1 st2 Hreach1 Hpc1 Hreach2 Hpc2.
    destruct (finished_collect _ _ _ _ _ _ _ Hp Hdef Hsizes Hreach1 Hpc1) as [Hfin1 Hlen1].
    pose proof (inv_reachable _ _ _ _ _ _ Hreach1) as Hinv1.
    destruct (inv_closures_after _ _ _ _ _ _ Hinv1 Hpc1 Hfin1 p Hp) as (_ & Hc1 & Hc2).
    split_and!; [done | done |]. intros Hmod.
    rewrite (next_call_entry _ _ _ _ _ _ _ Hp Hdef Hsizes Hreach1 Hpc1) in Hreach2.
    destruct (policy_defined_pool _ _ _ _ _ _ _ Hne Hdef Hinv1)
      as (Hne' & Hdef' & Hlen & Hwl).
    destruct (finished_collect _ _ _ _ _ _ _ Hp Hdef' Hsizes Hreach2 Hpc2) as [Hfin2 Hlen2].
    pose proof (inv_reachable _ _ _ _ _ _ Hreach2) as Hinv2.
    assert (dispatched st2 = dispatched st1) as Hsame.
    { apply same_choices; [congruence|]. intros k i j Hi Hj.
      apply Nat.Div0.mod_divides in Hmod as [q Hq].
      destruct Hrr as [-> | ->]; simpl in Hq.
      - destruct (inv_round_robin _ _ _ _ _ _ Hinv1 Hp) as [H1 _].
        destruct (inv_round_robin _ _ _ _ _ _ Hinv2 Hp) as [H2 _].
        apply H1 in Hj. apply H2 in Hi. rewrite Hi, Hj, Hlen, Hq.
        replace (c1 + length servers * q + k) with (c1 + k + q * length servers) by lia.
        by rewrite Nat.Div0.mod_add.
      - destruct (inv_weighted _ _ _ _ _ _ Hinv1 Hp) as [H1 _].
        destruct (inv_weighted _ _ _ _ _ _ Hinv2 Hp) as [H2 _].
        apply H1 in Hj. apply H2 in Hi. simpl in Hi, Hj. rewrite Hwl in Hi.
        rewrite Hq in Hi.
        replace (c2 + length (build_weighted_list (bandwidth <$> servers)) * q + k)
          with (c2 + k + q * length (build_weighted_list (bandwidth <$> servers)))
          in Hi by lia.
        rewrite Nat.Div0.mod_add in Hi. congruence. }
    split; [done|].
    rewrite (totals_collect _ _ _ _ _ _ Hinv1 Hpc1),
            (totals_collect _ _ _ _ _ _ Hinv2 Hpc2).
    by rewrite Hsame, Hlen.
Qed.

Lemma rerun_totals_witness :
  dispatched sample_final_rr4b = dispatched sample_final_rr4 ∧
  totals sample_final_rr4b = totals sample_final_rr4.
Proof.
  destruct (rerun_totals sample_sizes4 "Round Robin" RoundRobin servers 0 0)
    as [_ H].
  - discriminate.
  - repeat constructor.
  - reflexivity.
  - left. reflexivity.
  - discriminate.
  - destruct (H sample_final_rr4 sample_final_rr4b) as (_ & _ & Hsame).
    + exists (sequential_schedule sample_sizes4 "Round Robin" 200 (first_call servers)).
      vm_compute. reflexivity.
    + reflexivity.
    + exists (sequential_schedule sample_sizes4 "Round Robin" 200
                (next_call sample_final_rr4)).
      vm_compute. reflexivity.
    + reflexivity.
    + apply Hsame. reflexivity.
Defined.

(** Counterexample to C7 as stated: three requests on the four-server pool
    under round-robin; the first run serves servers 1-3, the second run,
    with the same policy instance after [reset], starts at server 4. *)
Lemma rerun_totals_differ :
  ∃ s1 st1 s2 st2,
    run sample_sizes "Round Robin" s1 (first_call servers) = Some st1 ∧
    pc st1 = MCollect ∧
    run sample_sizes "Round Robin" s2 (next_call st1) = Some st2 ∧
    pc st2 = MCollect ∧
    totals st1 = [1; 1; 1; 0] ∧ totals st2 = [1; 1; 0; 1] ∧
    totals st1 ≠ totals st2.
Proof.
  exists (sequential_schedule sample_sizes "Round Robin" 200 (first_call servers)),
         sample_final_rr,
         (sequential_schedule sample_sizes "Round Robin" 200 (next_call sample_final_rr)),
         sample_final_rr2.
  vm_compute. split_and!; try reflexivity. discriminate.
Qed.
(** * Further properties of the code *)

(** ** Weighted round-robin: the blocks of the flattened list *)

Lemma sum_list_app (l1 l2 : list nat) :
  sum_list (l1 ++ l2) = sum_list l1 + sum_list l2.
Proof. apply (sum_list_with_app id). Qed.

Lemma weight_before_S (servers : list Server) (i : nat) (s : Server) :
  servers !! i = Some s →
  weight_before servers (S i) = weight_before servers i + weight s.
Proof.
  intros Hs. unfold weight_before, total_weight.
  rewrite (take_S_r _ _ _ Hs), fmap_app, sum_list_app.
  rewrite fmap_cons, sum_list_cons. simpl. lia.
Qed.

Lemma weight_before_mono (servers : list Server) (i j : nat) :
  i ≤ j → weight_before servers i ≤ weight_before servers j.
Proof.
  induction 1 as [|j Hle IH]; [done|].
  destruct (servers !! j) as [s|] eqn:Hs.
  - rewrite (weight_before_S _ _ _ Hs). lia.
  - unfold weight_before in *. apply lookup_ge_None in Hs.
    rewrite (take_ge servers (S j)) by lia.
    rewrite (take_ge servers j) in IH by lia. done.
Qed.

Lemma weighted_from_lookup (ws : list Q) : ∀ k t i,
  weighted_from k ws !! t = Some i ↔
  ∃ w, k ≤ i ∧ ws !! (i - k) = Some w ∧
    sum_list ((λ w, Z.to_nat (py_int w)) <$> take (i - k) ws) ≤ t
      < sum_list ((λ w, Z.to_nat (py_int w)) <$> take (i - k) ws)
        + Z.to_nat (py_int w).
Proof.
  induction ws as [|w ws IH]; intros k t i.
  - simpl. split; [done | by intros (w & _ & ? & _)].
  - cbn [weighted_from]. set (c := Z.to_nat (py_int w)).
    set (f := λ w0 : Q, Z.to_nat (py_int w0)) in *.
    assert (∀ m, sum_list (f <$> take (S m) (w :: ws))
                 = c + sum_list (f <$> take m ws)) as HS by done.
    destruct (decide (t < c)) as [Hlt | Hge].
    + rewrite lookup_app_l by (by rewrite length_replicate).
      rewrite lookup_replicate. split.
      * intros [-> _]. exists w. rewrite Nat.sub_diag.
        change (sum_list (f <$> take 0 (w :: ws))) with 0.
        fold c. split_and!; try done; lia.
      * intros (w' & Hk & Hw & Hb). split; [|done].
        destruct (i - k) as [|m] eqn:E; [lia|]. rewrite HS in Hb. lia.
    + rewrite lookup_app_r by (rewrite length_replicate; lia).
      rewrite length_replicate, IH. split.
      * intros (w' & Hk & Hw & Hb). exists w'.
        replace (i - k) with (S (i - S k)) by lia. rewrite HS.
        split_and!; try done; lia.
      * intros (w' & Hk & Hw & Hb).
        destruct (i - k) as [|m] eqn:E.
        { change (sum_list (f <$> take 0 (w :: ws))) with 0 in Hb.
          simpl in Hw. injection Hw as <-. fold c in Hb. lia. }
        rewrite HS in Hb. simpl in Hw. exists w'.
        replace (i - S k) with m by lia. split_and!; try done; lia.
Qed.

Lemma weighted_list_block (servers : list Server) (t i : nat) :
  weighted_list (weighted_round_robin servers) !! t = Some i ↔
  ∃ s, servers !! i = Some s ∧
    weight_before servers i ≤ t < weight_before servers i + weight s.
Proof.
  simpl. rewrite build_weighted_list_from, weighted_from_lookup.
  unfold weight_before, total_weight, weight.
  rewrite Nat.sub_0_r, <- fmap_take, <- list_fmap_compose. split.
  - intros (w & _ & Hw & Hb). rewrite list_lookup_fmap in Hw.
    destruct (servers !! i) as [s|]; [|done]. injection Hw as <-. by exists s.
  - intros (s & Hs & Hb). exists (bandwidth s).
    rewrite list_lookup_fmap, Hs. split_and!; [lia | done | apply Hb ..].
Qed.

(** X1: [weighted_list] consists of one block per server, in pool order:
    position t holds server i exactly when t lies in the block of i, which
    starts after the copies of the servers before i.  Hence the list is
    non-decreasing: the copies of a server are never interleaved with those
    of another. *)
Theorem weighted_list_blocks (servers : list Server) :
  let wl := weighted_list (weighted_round_robin servers) in
  (∀ t i, wl !! t = Some i ↔
     ∃ s, servers !! i = Some s ∧
       weight_before servers i ≤ t < weight_before servers i + weight s) ∧
  (∀ a b i j, a ≤ b → wl !! a = Some i → wl !! b = Some j → i ≤ j).
Proof.
  intros wl. split; [apply weighted_list_block|].
  intros a b i j Hab Ha Hb.
  apply weighted_list_block in Ha as (s & Hs & Hsa).
  apply weighted_list_block in Hb as (s' & Hs' & Hsb).
  destruct (decide (i ≤ j)) as [|Hgt]; [done|].
  pose proof (weight_before_mono servers (S j) i ltac:(lia)) as Hm.
  rewrite (weight_before_S _ _ _ Hs') in Hm. lia.
Qed.

(** ** Round-robin: balance *)

Lemma occurrences_seq (j a m : nat) :
  occurrences j (seq a m) = if decide (a ≤ j < a + m) then 1 else 0.
Proof.
  destruct (decide (a ≤ j < a + m)) as [Hin | Hout].
  - apply occurrences_NoDup; [apply NoDup_seq | by apply elem_of_seq].
  - apply occurrences_zero. by rewrite elem_of_seq.
Qed.

Lemma mod_window (n c m j : nat) :
  j < n → occurrences j ((λ x, x mod n) <$> seq c (m * n)) = m.
Proof.
  intros Hj. pose proof (cycle_occurrences (seq 0 n) j m c) as H.
  rewrite length_seq, occurrences_seq in H.
  rewrite decide_True, Nat.mul_1_r in H by lia. rewrite <- H at 2.
  f_equal. apply list_fmap_ext. intros _ x _.
  rewrite lookup_seq_lt by (apply Nat.mod_upper_bound; lia). done.
Qed.

(** X2: whatever the number of calls a round-robin closure has received,
    its next m·n calls on a pool of n servers return every server exactly m
    times. *)
Theorem round_robin_window (servers : list Server) (c m j : nat) :
  j < length servers →
  occurrences j (rr_selections servers (mkRR c) (m * length servers)) = m.
Proof.
  intros Hj. assert (servers ≠ []) as Hne by (destruct servers; [simpl in Hj; lia | done]).
  rewrite rr_selections_cycle by done. by apply mod_window.
Qed.

Lemma round_robin_window_witness :
  occurrences 2 (rr_selections servers (mkRR 5) (3 * length servers)) = 3.
Proof. apply round_robin_window. simpl. lia. Defined.

Lemma rr_fresh_occurrences (servers : list Server) (R j : nat) :
  j < length servers →
  occurrences j (rr_selections servers (round_robin servers) R)
  = R / length servers + (if decide (j < R mod length servers) then 1 else 0).
Proof.
  intros Hj.
  assert (servers ≠ []) as Hne by (destruct servers; [simpl in Hj; lia | done]).
  set (n := length servers) in *. unfold round_robin. rewrite rr_selections_cycle by done. fold n.
  rewrite (Nat.div_mod_eq R n) at 1.
  replace (n * (R / n) + R mod n) with (R / n * n + R mod n) by lia.
  rewrite seq_app, fmap_app, occurrences_app. f_equal.
  - by apply mod_window.
  - assert ((λ x, x mod n) <$> seq (0 + R / n * n) (R mod n) = seq 0 (R mod n)) as ->.
    { pose proof (Nat.mod_upper_bound R n ltac:(lia)) as Hr.
      apply list_eq. intros t. rewrite list_lookup_fmap.
      destruct (decide (t < R mod n)) as [Ht | Ht].
      - rewrite !lookup_seq_lt by done. simpl. f_equal.
        rewrite Nat.add_comm, Nat.Div0.mod_add. apply Nat.mod_small. lia.
      - by rewrite !lookup_seq_ge by lia. }
    rewrite occurrences_seq. by repeat case_decide; try lia.
Qed.


(** X3: a fresh round-robin closure called R times on a pool of n servers
    returns server j exactly ⌊R/n⌋ times, plus once if j < R mod n: the
    numbers of calls that two servers receive differ by at most one. *)
Theorem round_robin_balance (servers : list Server) (R j : nat) :
  j < length servers →
  occurrences j (rr_selections servers (round_robin servers) R)
  = R / length servers + (if decide (j < R mod length servers) then 1 else 0).
Proof. apply rr_fresh_occurrences. Qed.

Lemma round_robin_balance_witness :
  occurrences 1 (rr_selections servers (round_robin servers) 10)
  = 10 / length servers + (if decide (1 < 10 mod length servers) then 1 else 0).
Proof. apply round_robin_balance. simpl. lia. Defined.
(** ** The latency optimizer and the results of the policies *)

Lemma Qltb_true (x y : Q) : Qltb x y = true → (x < y)%Q.
Proof.
  unfold Qltb. intros H%negb_true_iff. apply Qnot_le_lt.
  intros Hle%Qle_bool_iff. congruence.
Qed.

Lemma Qltb_false (x y : Q) : Qltb x y = false → (y <= x)%Q.
Proof. unfold Qltb. intros H%negb_false_iff. by apply Qle_bool_iff. Qed.

(** [min_from] over rational keys: as for natural keys. *)
Lemma min_from_Q (keys : list Q) : ∀ (pre : list Q) best bk,
  pre !! best = Some bk →
  (∀ j k, pre !! j = Some k → (bk <= k)%Q) →
  (∀ j k, j < best → pre !! j = Some k → (bk < k)%Q) →
  ∃ rk, (pre ++ keys) !! min_from Qltb best bk (length pre) keys = Some rk ∧
    (∀ j k, (pre ++ keys) !! j = Some k → (rk <= k)%Q) ∧
    (∀ j k, j < min_from Qltb best bk (length pre) keys →
            (pre ++ keys) !! j = Some k → (rk < k)%Q).
Proof.
  induction keys as [|k keys IH]; intros pre best bk Hb Hmin Hfirst; simpl.
  - rewrite app_nil_r. eauto.
  - replace (pre ++ k :: keys) with ((pre ++ [k]) ++ keys) by (by rewrite <- app_assoc).
    replace (S (length pre)) with (length (pre ++ [k])) by (rewrite length_app; simpl; lia).
    destruct (Qltb k bk) eqn:Hcmp.
    + apply Qltb_true in Hcmp. apply IH.
      * rewrite lookup_app_r by lia. by rewrite Nat.sub_diag.
      * intros j k' Hj. apply lookup_app_Some in Hj as [Hj | [Hl Hj]].
        -- apply Hmin in Hj. apply Qlt_le_weak. by eapply Qlt_le_trans.
        -- destruct (j - length pre) eqn:E; simpl in Hj; [|done].
           injection Hj as <-. apply Qle_refl.
      * intros j k' Hlt' Hj. rewrite lookup_app_l in Hj by done.
        apply Hmin in Hj. by eapply Qlt_le_trans.
    + apply Qltb_false in Hcmp. apply IH.
      * rewrite lookup_app_l; [done|]. by apply lookup_lt_Some in Hb.
      * intros j k' Hj. apply lookup_app_Some in Hj as [Hj | [Hl Hj]].
        -- by apply Hmin in Hj.
        -- destruct (j - length pre) eqn:E; simpl in Hj; [|done].
           by injection Hj as <-.
      * intros j k' Hlt' Hj. apply lookup_lt_Some in Hb.
        rewrite lookup_app_l in Hj by lia. by apply Hfirst in Hj.
Qed.

(** X4: [my_optimizer] raises [ValueError] exactly on the empty pool; on a
    non-empty pool it returns a server whose estimated latency is the least
    over the pool, every server before it having a strictly larger one (the
    first minimum, as for least connections). *)
Theorem my_optimizer_first_min (servers : list Server) :
  (my_optimizer servers = inl ValueError ↔ servers = []) ∧
  (servers ≠ [] →
   ∃ i s, my_optimizer servers = inr i ∧ servers !! i = Some s ∧
     (∀ j t, servers !! j = Some t →
        (estimate_latency s <= estimate_latency t)%Q) ∧
     (∀ j t, j < i → servers !! j = Some t →
        (estimate_latency s < estimate_latency t)%Q)).
Proof.
  split.
  - destruct servers; [done|]. split; discriminate.
  - destruct servers as [|s0 rest]; [done|]. intros _.
    unfold my_optimizer. simpl.
    destruct (min_from_Q (estimate_latency <$> rest) [estimate_latency s0] 0
                (estimate_latency s0)) as (rk & Hr & Hmin & Hfirst).
    + done.
    + intros [|j] k; simpl; [|done]. intros [= <-]. apply Qle_refl.
    + intros j k Hj. lia.
    + simpl in Hr, Hmin, Hfirst.
      change (estimate_latency s0 :: (estimate_latency <$> rest))
        with (estimate_latency <$> (s0 :: rest)) in *.
      set (i := min_from Qltb 0 (estimate_latency s0) 1 (estimate_latency <$> rest)) in *.
      rewrite list_lookup_fmap in Hr.
      destruct ((s0 :: rest) !! i) as [s|] eqn:Hs; [|done].
      simpl in Hr. injection Hr as <-.
      exists i, s. split_and!; [done|done| |].
      * intros j t Ht. apply (Hmin j). by rewrite list_lookup_fmap, Ht.
      * intros j t Hlt Ht. apply (Hfirst j); [done|]. by rewrite list_lookup_fmap, Ht.
Qed.

Lemma my_optimizer_first_min_witness :
  ∃ i s, my_optimizer [mkServer "A" 1000 [(1, 500%Q); (2, 700%Q)] [];
                       mkServer "B" 500 [(3, 400%Q)] [];
                       mkServer "C" 900 [(4, 720%Q)] []] = inr i ∧
    [mkServer "A" 1000 [(1, 500%Q); (2, 700%Q)] [];
     mkServer "B" 500 [(3, 400%Q)] [];
     mkServer "C" 900 [(4, 720%Q)] []] !! i = Some s ∧
    (∀ j t, [mkServer "A" 1000 [(1, 500%Q); (2, 700%Q)] [];
             mkServer "B" 500 [(3, 400%Q)] [];
             mkServer "C" 900 [(4, 720%Q)] []] !! j = Some t →
       (estimate_latency s <= estimate_latency t)%Q) ∧
    (∀ j t, j < i →
       [mkServer "A" 1000 [(1, 500%Q); (2, 700%Q)] [];
        mkServer "B" 500 [(3, 400%Q)] [];
        mkServer "C" 900 [(4, 720%Q)] []] !! j = Some t →
       (estimate_latency s < estimate_latency t)%Q).
Proof. apply my_optimizer_first_min. discriminate. Defined.

(** X5: called on the pool its closures were built from, a policy either
    returns a position inside the pool or raises the exception of its
    emptiness test: [ZeroDivisionError] for round-robin on an empty pool and
    for weighted round-robin when no server has a copy, [ValueError] for the
    two [min]-based policies on an empty pool.  No policy raises
    [IndexError], and none touches the pool. *)
Theorem policies_stay_in_pool (servers : list Server) (p : Policy) (c1 c2 : nat) :
  match call_policy p (entry servers c1 c2) with
  | inr (i, st') => i < length servers ∧ pool st' = servers
  | inl e =>
      e = empty_pool_error p ∧
      match p with
      | WeightedRR => total_weight servers = 0
      | _ => servers = []
      end
  end.
Proof.
  pose proof (inv_entry [] "" servers c1 c2) as [Hst _].
  destruct (call_policy p (entry servers c1 c2)) as [e|[i st']] eqn:Hcall.
  - assert (¬ policy_defined servers p) as Hnd.
    { intros Hdef.
      destruct (call_policy_defined servers p _ Hst Hdef) as (i & st' & H).
      congruence. }
    destruct p; simpl in Hnd.
    + destruct servers; [|by destruct Hnd].
      rewrite call_policy_empty in Hcall by done. by simplify_eq.
    + assert (build_weighted_list (bandwidth <$> servers) = []) as Hwl
        by (destruct (build_weighted_list (bandwidth <$> servers));
              [done | by destruct Hnd]).
      split.
      * simpl in Hcall. unfold weighted_round_robin_inner in Hcall.
        cbn [weighted_list idx] in Hcall. rewrite Hwl in Hcall.
        simpl in Hcall. by injection Hcall as <-.
      * rewrite <- weighted_list_length. simpl. by rewrite Hwl.
    + destruct servers; [|by destruct Hnd].
      rewrite call_policy_empty in Hcall by done. by simplify_eq.
    + destruct servers; [|by destruct Hnd].
      rewrite call_policy_empty in Hcall by done. by simplify_eq.
  - apply (call_policy_inr servers) in Hcall as [Hi Hcall]; [|done].
    split; [done|].
    destruct p; [destruct Hcall as [_ ->] .. | subst | subst]; done.
Qed.
(** ** The harness: order of start-up, closures, termination *)

(** X6: in every state of a call, the servers of the pool keep their names
    and bandwidths and their number; at most one worker per server has been
    started, and none before the reset loop has ended; the dispatcher is
    started only when every server has its worker, and the policy looked up
    at line 45 is the one it calls. *)
Theorem start_up_order (request_sizes : list Q) (algorithm : string)
    (servers : list Server) (c1 c2 : nat) (st : State) :
  reachable request_sizes algorithm (entry servers c1 c2) st →
  name <$> pool st = name <$> servers ∧
  bandwidth <$> pool st = bandwidth <$> servers ∧
  length (threads st) ≤ length servers ∧
  (threads st ≠ [] → past_reset st = true) ∧
  (request_thread st ≠ DNotStarted →
     length (threads st) = length servers ∧
     select_fn st = algorithm_map algorithm ∧ is_Some (select_fn st)).
Proof.
  intros Hreach. apply inv_reachable in Hreach as [(Hn & Hb & _) Hph].
  split; [done|]. split; [done|]. unfold past_reset.
  destruct (pc st) as [|i|i| | | |i| |e] eqn:Hpc.
  - subst st. simpl. split_and!; try done. lia.
  - destruct Hph as (_ & (-> & _) & -> & _). simpl. split_and!; try done. lia.
  - destruct Hph as (_ & (-> & _) & -> & Hi & _). rewrite length_replicate.
    split_and!; done.
  - destruct Hph as (_ & (-> & _) & -> & _). rewrite length_replicate.
    split_and!; done.
  - destruct Hph as (([? ?] & _) & -> & _). rewrite length_replicate.
    split_and!; done.
  - destruct Hph as (([? ?] & _) & -> & _). rewrite length_replicate.
    split_and!; done.
  - destruct Hph as (([? ?] & _) & -> & _). split_and!; done.
  - destruct Hph as (([? ?] & _) & -> & _). rewrite length_replicate.
    split_and!; done.
  - destruct Hph as [_ ->]. simpl. split_and!; try done. lia.
Qed.

Lemma start_up_order_witness :
  length (threads sample_final) = length servers.
Proof.
  destruct (start_up_order sample_sizes "Least Conn" servers 0 0 sample_final)
    as (_ & _ & _ & _ & H).
  - exists (sequential_schedule sample_sizes "Least Conn" 200 (first_call servers)).
    vm_compute. reflexivity.
  - apply H. discriminate.
Defined.

(** X7: a run changes at most the counter of the policy it runs, and that
    one by at most one per request; the flattened list of weighted
    round-robin is never changed. *)
Theorem closures_of_other_policies (request_sizes : list Q) (algorithm : string)
    (p : Policy) (servers : list Server) (c1 c2 : nat) (st : State) :
  algorithm_map algorithm = Some p →
  reachable request_sizes algorithm (entry servers c1 c2) st →
  weighted_list (wrr st) = weighted_list (weighted_round_robin servers) ∧
  (p ≠ RoundRobin → rr_index (rr st) = c1) ∧
  (p ≠ WeightedRR → idx (wrr st) = c2) ∧
  c1 ≤ rr_index (rr st) ≤ c1 + length request_sizes ∧
  c2 ≤ idx (wrr st) ≤ c2 + length request_sizes.
Proof.
  intros Hp Hreach. apply inv_reachable in Hreach as [(_ & _ & Hwl) Hph].
  split; [done|].
  assert (untouched servers c1 c2 st ∨
          (selected algorithm st ∧ dispatcher_inv request_sizes servers st ∧
           closures_inv servers c1 c2 st)) as [Hun | (Hsel & Hdi & Hcl)].
  { destruct (pc st) as [|i|i| | | |i| |e] eqn:Hpc.
    - subst st. by left.
    - left. apply Hph.
    - left. apply Hph.
    - left. apply Hph.
    - right. destruct Hph as ((? & _ & ? & ?) & _). done.
    - right. destruct Hph as ((? & _ & ? & ?) & _). done.
    - right. destruct Hph as ((? & _ & ? & ?) & _). done.
    - right. destruct Hph as ((? & _ & ? & ?) & _). done.
    - destruct Hph as [_ ->]. by left. }
  - destruct Hun as (_ & _ & -> & ->). simpl. split_and!; try done; lia.
  - destruct Hsel as [Hsel _]. unfold closures_inv in Hcl.
    rewrite Hsel, Hp in Hcl. unfold dispatcher_inv in Hdi. unfold calls_inv in Hcl.
    destruct p.
    + destruct Hcl as (-> & Hc & _). simpl.
      destruct (request_thread st); split_and!; try done; lia.
    + destruct Hcl as (-> & Hc & _). simpl.
      destruct (request_thread st); split_and!; try done; lia.
    + destruct Hcl as (-> & ->). simpl. split_and!; try done; lia.
    + destruct Hcl as (-> & ->). simpl. split_and!; try done; lia.
Qed.

Lemma closures_of_other_policies_witness :
  rr_index (rr sample_final) = 0 ∧ idx (wrr sample_final) = 0.
Proof.
  destruct (closures_of_other_policies sample_sizes "Least Conn" LeastConn
              servers 0 0 sample_final) as (_ & H1 & H2 & _).
  - reflexivity.
  - exists (sequential_schedule sample_sizes "Least Conn" 200 (first_call servers)).
    vm_compute. reflexivity.
  - split; [apply H1 | apply H2]; discriminate.
Defined.

(** X8: with a registered policy name the call never raises, whatever the
    policy or [receive_request] raise in the dispatcher thread, and it never
    gets stuck: from every state it reaches, the threads can run on until
    every worker is joined. *)
Theorem registered_call_reaches_collection (request_sizes : list Q)
    (algorithm : string) (p : Policy) (servers : list Server) (c1 c2 : nat)
    (st : State) :
  algorithm_map algorithm = Some p →
  reachable request_sizes algorithm (entry servers c1 c2) st →
  (∀ e, pc st ≠ MRaised e) ∧
  ∃ sched st', run request_sizes algorithm sched st = Some st' ∧ pc st' = MCollect.
Proof.
  intros Hp Hreach. pose proof (inv_reachable _ _ _ _ _ _ Hreach) as Hinv.
  assert (∀ st', reachable request_sizes algorithm (entry servers c1 c2) st' →
                 ∀ e, pc st' ≠ MRaised e) as Hnr.
  { intros st' Hr e Hpc. apply inv_reachable in Hr.
    destruct (inv_raised _ _ _ _ _ _ _ Hr Hpc). congruence. }
  split; [by apply Hnr|].
  destruct (can_complete _ _ _ _ _ _ Hinv) as (sched & st' & Hrun & Hterm).
  exists sched, st'. split; [done|].
  unfold terminal in Hterm. destruct (pc st') eqn:Hpc; try done.
  destruct (Hnr st' (reachable_trans _ _ _ _ _ Hreach (ex_intro _ sched Hrun)) e Hpc).
Qed.

Lemma registered_call_reaches_collection_witness :
  ∃ sched st', run [0%Q] "Round Robin" sched (entry [] 0 0) = Some st' ∧
               pc st' = MCollect.
Proof.
  apply (registered_call_reaches_collection [0%Q] "Round Robin" RoundRobin [] 0 0
           (entry [] 0 0)).
  - reflexivity.
  - exists []. reflexivity.
Defined.

(** X9: when all workers are joined every queue is empty and every request
    that was enqueued has exactly one record, on the server it was
    dispatched to and on no other; every record is that of an enqueued
    request, and the totals add up to the number of requests enqueued, also
    when the dispatcher thread has died early. *)
Theorem queues_drained (request_sizes : list Q) (algorithm : string)
    (servers : list Server) (c1 c2 : nat) (st : State) :
  reachable request_sizes algorithm (entry servers c1 c2) st →
  pc st = MCollect →
  (∀ j s, pool st !! j = Some s → pending_requests s = []) ∧
  sum_list (totals st) = length (dispatched st) ∧
  length (dispatched st) ≤ length request_sizes ∧
  (∀ j s id, pool st !! j = Some s → id ∈ result_ids s →
     1 ≤ id ≤ length (dispatched st) ∧ dispatched st !! (id - 1) = Some j) ∧
  (∀ k i, dispatched st !! k = Some i →
     ∃ s, pool st !! i = Some s ∧
       occurrences (S k) (result_ids s) = 1 ∧
       ∀ j s', pool st !! j = Some s' → j ≠ i → S k ∉ result_ids s').
Proof.
  intros Hreach Hpc. apply inv_reachable in Hreach as Hinv.
  destruct (inv_collect _ _ _ _ _ _ Hinv Hpc) as (Hlen & Hdone & Hdi & _ & Hall & Hres).
  split_and!.
  - intros j s Hs. by destruct (Hres j s Hs).
  - rewrite (totals_collect _ _ _ _ _ _ Hinv Hpc).
    unfold ids_for. by rewrite ids_from_length_sum.
  - unfold dispatcher_inv in Hdi. destruct (request_thread st); try done; lia.
  - intros j s id Hs Hid. destruct (Hres j s Hs) as [_ Hids].
    rewrite Hids in Hid. apply elem_of_ids_from in Hid as (m & -> & Hm).
    simpl. rewrite Nat.sub_0_r. split; [|done].
    apply lookup_lt_Some in Hm. lia.
  - intros k i Hi.
    assert (i < length servers) as Hlt.
    { rewrite Forall_forall in Hall. apply Hall, list_elem_of_lookup. eauto. }
    destruct (lookup_lt_is_Some_2 (pool st) i ltac:(lia)) as [s Hs].
    exists s. split_and!; [done | |].
    + destruct (Hres i s Hs) as [_ ->]. apply occurrences_NoDup.
      * apply NoDup_ids_from.
      * apply elem_of_ids_from. exists k. split; [lia | done].
    + intros j s' Hs' Hji Hin. destruct (Hres j s' Hs') as [_ Hids].
      rewrite Hids in Hin. apply elem_of_ids_from in Hin as (m & Hm & Hj).
      assert (m = k) as -> by lia. congruence.
Qed.

Lemma queues_drained_witness :
  sum_list (totals sample_final) = length (dispatched sample_final) ∧
  ∀ k i, dispatched sample_final !! k = Some i →
    ∃ s, pool sample_final !! i = Some s ∧
      occurrences (S k) (result_ids s) = 1.
Proof.
  destruct (queues_drained sample_sizes "Least Conn" servers 0 0 sample_final)
    as (_ & H & _ & _ & Hrec).
  - exists (sequential_schedule sample_sizes "Least Conn" 200 (first_call servers)).
    vm_compute. reflexivity.
  - reflexivity.
  - split; [exact H|]. intros k i Hk.
    destruct (Hrec k i Hk) as (s & Hs & Hocc & _). by exists s.
Defined.
(** ** What a run of each round-robin policy gives *)

Lemma length_ids_from (j : nat) (log : list nat) : ∀ k,
  length (ids_from k j log) = occurrences j log.
Proof.
  unfold occurrences. induction log as [|i log IH]; intros k; [done|].
  simpl. rewrite filter_cons. destruct (decide (i = j)); simpl; by rewrite IH.
Qed.

Lemma dispatched_bound (request_sizes : list Q) (algorithm : string)
    (servers : list Server) (c1 c2 : nat) (st : State) :
  inv request_sizes algorithm servers c1 c2 st →
  length (dispatched st) ≤ length request_sizes.
Proof.
  intros [_ Hph].
  assert (dispatched st = [] ∨ dispatcher_inv request_sizes servers st) as [-> | Hdi].
  { destruct (pc st) as [|i|i| | | |i| |e] eqn:Hpc.
    - subst st. by left.
    - left. apply Hph.
    - left. apply Hph.
    - left. apply Hph.
    - right. apply Hph.
    - right. apply Hph.
    - right. apply Hph.
    - right. apply Hph.
    - destruct Hph as [_ ->]. by left. }
  - simpl. lia.
  - unfold dispatcher_inv in Hdi. destruct (request_thread st); try done; lia.
Qed.

Lemma totals_occurrences (request_sizes : list Q) (algorithm : string)
    (servers : list Server) (c1 c2 : nat) (st : State) :
  inv request_sizes algorithm servers c1 c2 st → pc st = MCollect →
  totals st = (λ j, occurrences j (dispatched st)) <$> seq 0 (length servers).
Proof.
  intros Hinv Hpc. rewrite (totals_collect _ _ _ _ _ _ Hinv Hpc).
  apply list_fmap_ext. intros _ j _. apply length_ids_from.
Qed.

Lemma occurrences_all (j : nat) (l : list nat) :
  Forall (λ i, i = j) l → occurrences j l = length l.
Proof.
  unfold occurrences. induction 1 as [|x l -> _ IH]; [done|].
  rewrite filter_cons, decide_True by done. simpl. by rewrite IH.
Qed.

(** X10: a run under weighted round-robin that starts in the block of the
    first server and has no more requests than are left of that block sends
    every request to the first server: with c2 calls so far and
    c2 + R ≤ int(bandwidth_0), the other servers receive nothing.  (The
    program itself runs 1000 requests on a first server of bandwidth 1000.) *)
Theorem weighted_run_first_block (request_sizes : list Q) (algorithm : string)
    (s0 : Server) (rest : list Server) (c1 c2 : nat) (st : State) :
  algorithm_map algorithm = Some WeightedRR →
  c2 + length request_sizes ≤ weight s0 →
  reachable request_sizes algorithm (entry (s0 :: rest) c1 c2) st →
  Forall (λ i, i = 0) (dispatched st) ∧
  (pc st = MCollect →
     totals st = length (dispatched st) :: replicate (length rest) 0) ∧
  (pc st = MCollect → Forall (λ size, (0 < size)%Q) request_sizes →
     totals st = length request_sizes :: replicate (length rest) 0).
Proof.
  intros Hp Hfit Hreach. pose proof (inv_reachable _ _ _ _ _ _ Hreach) as Hinv.
  pose proof (dispatched_bound _ _ _ _ _ _ Hinv) as Hbound.
  assert (Forall (λ i, i = 0) (dispatched st)) as Hzero.
  { apply Forall_lookup. intros k i Hk.
    destruct (inv_weighted _ _ _ _ _ _ Hinv Hp) as [Hch _].
    apply Hch in Hk as Hwl. apply lookup_lt_Some in Hk.
    pose proof (weighted_list_length (s0 :: rest)) as HW.
    change (weighted_list (weighted_round_robin (s0 :: rest)))
      with (build_weighted_list (bandwidth <$> s0 :: rest)) in HW.
    assert (weight s0 ≤ total_weight (s0 :: rest)) as Hle.
    { unfold total_weight. rewrite fmap_cons, sum_list_cons. lia. }
    rewrite Nat.mod_small in Hwl by (rewrite HW; lia).
    apply (weighted_list_block (s0 :: rest)) in Hwl as (s & Hs & Hb).
    destruct i as [|i]; [done|].
    pose proof (weight_before_mono (s0 :: rest) 1 (S i) ltac:(lia)) as Hm.
    rewrite (weight_before_S (s0 :: rest) 0 s0 eq_refl) in Hm.
    change (weight_before (s0 :: rest) 0) with 0 in Hm. lia. }
  assert (pc st = MCollect →
          totals st = length (dispatched st) :: replicate (length rest) 0) as Htot.
  { intros Hpc. rewrite (totals_occurrences _ _ _ _ _ _ Hinv Hpc).
    cbn [length seq]. rewrite fmap_cons. f_equal; [by apply occurrences_all|].
    apply list_eq. intros t. rewrite list_lookup_fmap.
    destruct (decide (t < length rest)) as [Ht | Ht].
    - rewrite lookup_seq_lt, lookup_replicate_2 by done. simpl. f_equal.
      apply occurrences_zero. intros Hin.
      rewrite Forall_forall in Hzero. by apply Hzero in Hin.
    - rewrite lookup_seq_ge by lia. simpl.
      symmetry. apply lookup_replicate_None. lia. }
  split_and!; [done | done |]. intros Hpc Hsizes. rewrite (Htot Hpc). f_equal.
  destruct (decide (weight s0 = 0)) as [Hw0 | Hw0]; [lia|].
  eapply finished_collect; [done | | done | done | done].
  intros Hwl.
  pose proof (weighted_list_length (s0 :: rest)) as HW.
  change (weighted_list (weighted_round_robin (s0 :: rest)))
    with (build_weighted_list (bandwidth <$> s0 :: rest)) in HW.
  rewrite Hwl in HW. simpl in HW.
  unfold total_weight in HW. rewrite fmap_cons, sum_list_cons in HW. lia.
Qed.

Lemma weighted_run_first_block_witness :
  totals (default (first_call servers)
            (sequential sample_sizes "Weighted RR" 200 (first_call servers)))
  = length sample_sizes :: replicate 3 0.
Proof.
  destruct (weighted_run_first_block sample_sizes "Weighted RR"
              (mkServer "Server1" 1000 [] [])
              [mkServer "Server2" 800 [] []; mkServer "Server3" 900 [] [];
               mkServer "Server4" 700 [] []] 0 0
              (default (first_call servers)
                 (sequential sample_sizes "Weighted RR" 200 (first_call servers))))
    as (_ & _ & H).
  - reflexivity.
  - vm_compute. lia.
  - exists (sequential_schedule sample_sizes "Weighted RR" 200 (first_call servers)).
    vm_compute. reflexivity.
  - apply H; [vm_compute; reflexivity | repeat constructor].
Defined.

(** X11: a first run under round-robin with positive sizes, once all workers
    are joined, has given server j exactly ⌊R/n⌋ requests, plus one if
    j < R mod n: the per-server totals differ by at most one. *)
Theorem round_robin_run_totals (request_sizes : list Q) (servers : list Server)
    (st : State) (j : nat) :
  Forall (λ size, (0 < size)%Q) request_sizes →
  reachable request_sizes "Round Robin" (first_call servers) st →
  pc st = MCollect → j < length servers →
  totals st !! j
  = Some (length request_sizes / length servers
          + (if decide (j < length request_sizes mod length servers) then 1 else 0)).
Proof.
  intros Hsizes Hreach Hpc Hj. rewrite first_call_entry in Hreach.
  assert (servers ≠ []) as Hne by (destruct servers; [simpl in Hj; lia | done]).
  pose proof (inv_reachable _ _ _ _ _ _ Hreach) as Hinv.
  destruct (finished_collect request_sizes "Round Robin" RoundRobin servers 0 0 st
              eq_refl Hne Hsizes Hreach Hpc)
    as [_ Hlen].
  assert (dispatched st
          = rr_selections servers (round_robin servers) (length request_sizes)) as Hd.
  { unfold round_robin. rewrite rr_selections_cycle by done.
    apply list_eq. intros k. rewrite list_lookup_fmap.
    destruct (decide (k < length request_sizes)) as [Hk | Hk].
    - rewrite lookup_seq_lt by done. simpl.
      destruct (lookup_lt_is_Some_2 (dispatched st) k ltac:(lia)) as [i Hi].
      rewrite Hi. f_equal.
      destruct (inv_round_robin _ _ _ _ _ _ Hinv eq_refl) as [Hch _].
      by apply Hch in Hi.
    - rewrite lookup_seq_ge by lia. apply lookup_ge_None. lia. }
  rewrite (totals_occurrences _ _ _ _ _ _ Hinv Hpc), list_lookup_fmap.
  rewrite lookup_seq_lt by done. simpl. f_equal.
  rewrite Hd. by apply rr_fresh_occurrences.
Qed.

Lemma round_robin_run_totals_witness :
  totals sample_final_rr !! 3 = Some (3 / 4 + 0).
Proof.
  apply (round_robin_run_totals sample_sizes servers sample_final_rr 3).
  - repeat constructor.
  - exists (sequential_schedule sample_sizes "Round Robin" 200 (first_call servers)).
    vm_compute. reflexivity.
  - reflexivity.
  - simpl. lia.
Defined.
(** ** Recording the trace (lines 76-84) *)

Lemma py_index_in_range {A : Type} (l : list A) (id : nat) :
  1 ≤ id ≤ length l → py_index l (Z.of_nat id - 1) = inr (id - 1).
Proof.
  intros Hid. unfold py_index. rewrite decide_True by lia. f_equal. lia.
Qed.

Lemma py_index_above {A : Type} (l : list A) (id : nat) :
  length l < id → py_index l (Z.of_nat id - 1) = inl IndexError.
Proof.
  intros Hid. unfold py_index. rewrite decide_False by lia.
  by rewrite decide_False by lia.
Qed.

Lemma py_index_zero {A : Type} (l : list A) :
  py_index l (Z.of_nat 0 - 1)
  = if decide (l = []) then inl IndexError else inr (length l - 1).
Proof.
  unfold py_index. rewrite decide_False by lia.
  destruct l as [|x l]; simpl length.
  - rewrite decide_False by lia. by rewrite decide_True.
  - rewrite decide_True by lia. rewrite decide_False by done. f_equal. lia.
Qed.

Lemma record_result_error (algorithm : string) (requests : list Request)
    (r : Result) (e : exn) :
  record_result algorithm requests r = inl e → e = IndexError.
Proof.
  destruct r as [[[id nm] lat] tm]. unfold record_result, py_index.
  repeat case_decide; by intros [=].
Qed.

Lemma record_result_length (algorithm : string) (requests requests' : list Request)
    (r : Result) :
  record_result algorithm requests r = inr requests' →
  length requests' = length requests.
Proof.
  destruct r as [[[id nm] lat] tm]. unfold record_result.
  destruct (py_index _ _); intros [= <-]. apply length_alter.
Qed.

Lemma record_results_error (algorithm : string) (results : list Result) :
  ∀ requests e, record_results algorithm requests results = inl e → e = IndexError.
Proof.
  induction results as [|r rs IH]; intros requests e; simpl; [done|].
  destruct (record_result algorithm requests r) as [e'|requests'] eqn:Hr.
  - intros [= <-]. by eapply record_result_error.
  - apply IH.
Qed.

Lemma record_results_app (algorithm : string) (rs1 rs2 : list Result) :
  ∀ requests,
  record_results algorithm requests (rs1 ++ rs2)
  = match record_results algorithm requests rs1 with
    | inl e => inl e
    | inr requests' => record_results algorithm requests' rs2
    end.
Proof.
  induction rs1 as [|r rs1 IH]; intros requests; simpl; [done|].
  destruct (record_result algorithm requests r); [done | apply IH].
Qed.

Lemma collect_all_results (algorithm : string) (servers : list Server) :
  ∀ requests,
  collect algorithm requests servers
  = record_results algorithm requests (all_results servers).
Proof.
  induction servers as [|s servers IH]; intros requests; simpl; [done|].
  rewrite record_results_app.
  destruct (record_results algorithm requests (result s)); [done | apply IH].
Qed.

Lemma entries_for_cons (algorithm : string) (id : nat) (r : Result)
    (rs : list Result) :
  entries_for algorithm id (r :: rs)
  = (if decide (r.1.1.1 = id) then [mkEntry algorithm r.1.1.2 r.1.2 r.2] else [])
    ++ entries_for algorithm id rs.
Proof.
  unfold entries_for. rewrite filter_cons. by destruct (decide (r.1.1.1 = id)).
Qed.

Lemma entries_for_app (algorithm : string) (id : nat) (rs1 rs2 : list Result) :
  entries_for algorithm id (rs1 ++ rs2)
  = entries_for algorithm id rs1 ++ entries_for algorithm id rs2.
Proof. unfold entries_for. by rewrite filter_app, fmap_app. Qed.

Lemma record_results_recorded (algorithm : string) (results : list Result) :
  ∀ requests,
  Forall (λ r : Result, 1 ≤ r.1.1.1 ≤ length requests) results →
  record_results algorithm requests results
  = inr (recorded algorithm results requests).
Proof.
  induction results as [|r rs IH]; intros requests Hall.
  - simpl. f_equal. unfold recorded. apply list_eq. intros k.
    rewrite list_lookup_imap. destruct (requests !! k) as [q|]; [|done].
    simpl. unfold entries_for. simpl. rewrite app_nil_r. by destruct q.
  - apply Forall_cons in Hall as [Hr Hall]. simpl.
    destruct r as [[[id nm] lat] tm]. simpl in Hr. unfold record_result.
    rewrite py_index_in_range by done.
    rewrite IH by (by rewrite length_alter).
    f_equal. unfold recorded. apply list_eq. intros k.
    rewrite !list_lookup_imap, entries_for_cons. simpl.
    destruct (decide (k = id - 1)) as [-> | Hne].
    + rewrite list_lookup_alter_eq.
      destruct (requests !! (id - 1)) as [q|]; [|done]. simpl.
      rewrite decide_True by lia. unfold add_entry. simpl.
      by rewrite <- app_assoc.
    + rewrite list_lookup_alter_ne by done.
      destruct (requests !! k) as [q|]; [|done]. simpl.
      rewrite decide_False by lia. done.
Qed.

(** X12: when every result record of the pool has an id between 1 and
    [len(requests)], the loop of lines 76-84 raises nothing, keeps the
    number, the ids and the sizes of the requests and every entry recorded
    before, and appends to request k exactly the entries of the records with
    id k, labelled with the algorithm, in the order servers and records are
    visited. *)
Theorem collect_appends (algorithm : string) (requests : list Request)
    (servers : list Server) :
  Forall (λ r : Result, 1 ≤ r.1.1.1 ≤ length requests) (all_results servers) →
  ∃ requests',
    collect algorithm requests servers = inr requests' ∧
    length requests' = length requests ∧
    ∀ k q, requests !! k = Some q →
      ∃ q', requests' !! k = Some q' ∧
        request_id q' = request_id q ∧ request_size q' = request_size q ∧
        request_algorithm q'
        = request_algorithm q ++ entries_for algorithm (S k) (all_results servers).
Proof.
  intros Hall. exists (recorded algorithm (all_results servers) requests).
  rewrite collect_all_results, record_results_recorded by done.
  split; [done|]. unfold recorded. split; [by rewrite length_imap|].
  intros k q Hq. rewrite list_lookup_imap, Hq. simpl. eauto.
Qed.

Lemma collect_appends_witness :
  ∃ requests',
    collect "Least Conn" (init_requests sample_sizes) (pool sample_final)
      = inr requests' ∧
    length requests' = length (init_requests sample_sizes).
Proof.
  destruct (collect_appends "Least Conn" (init_requests sample_sizes)
              (pool sample_final)) as (requests' & H1 & H2 & _).
  - vm_compute. repeat constructor.
  - exists requests'. split; [exact H1 | exact H2].
Defined.

(** X13: the loop of lines 76-84 raises [IndexError], and nothing else, as
    soon as some result record has an id above [len(requests)]; a record
    with id 0 raises nothing on a non-empty list: index -1 attributes it to
    the last request. *)
Theorem collect_index_error (algorithm : string) (requests : list Request)
    (servers : list Server) :
  (∀ e, collect algorithm requests servers = inl e → e = IndexError) ∧
  ((∃ r : Result, r ∈ all_results servers ∧ length requests < r.1.1.1) →
   collect algorithm requests servers = inl IndexError) ∧
  (∀ nm lat tm, requests ≠ [] →
     record_result algorithm requests (0, nm, lat, tm)
     = inr (alter (add_entry (mkEntry algorithm nm lat tm))
                  (length requests - 1) requests)).
Proof.
  split_and!.
  - intros e. rewrite collect_all_results. apply record_results_error.
  - rewrite collect_all_results. generalize (all_results servers). intros rs.
    revert requests. induction rs as [|r rs IH]; intros requests (r0 & Hin & Hid).
    { by apply elem_of_nil in Hin. }
    simpl. destruct (record_result algorithm requests r) as [e|requests'] eqn:Hr.
    + by rewrite (record_result_error _ _ _ _ Hr).
    + apply elem_of_cons in Hin as [-> | Hin].
      * destruct r as [[[id nm] lat] tm]. simpl in Hid. unfold record_result in Hr.
        by rewrite py_index_above in Hr.
      * apply IH. exists r0. split; [done|].
        by rewrite (record_result_length _ _ _ _ Hr).
  - intros nm lat tm Hne. unfold record_result. rewrite py_index_zero.
    by rewrite decide_False.
Qed.

Lemma collect_index_error_witness :
  collect "Round Robin" (init_requests [600%Q]) (pool sample_final)
  = inl IndexError.
Proof.
  destruct (collect_index_error "Round Robin" (init_requests [600%Q])
              (pool sample_final)) as (_ & H & _).
  apply H. exists (2, "Server2"%string, (700 / 800)%Q, 0%Q).
  split; [|simpl; lia]. vm_compute. apply list_elem_of_further, list_elem_of_here.
Defined.
(** ** What a call records *)

Lemma call_policy_pool (p : Policy) (st st' : State) (i : nat) :
  call_policy p st = inr (i, st') → pool st' = pool st ∧ pc st' = pc st.
Proof.
  unfold call_policy. destruct p.
  - destruct (round_robin_inner _ _) as [|[]]; [done|]. by intros [= _ <-].
  - destruct (weighted_round_robin_inner _ _) as [|[]]; [done|]. by intros [= _ <-].
  - destruct (least_connections _); [done|]. by intros [= _ <-].
  - destruct (my_optimizer _); [done|]. by intros [= _ <-].
Qed.

Lemma records_inv_step (request_sizes : list Q) (algorithm : string)
    (t : thread) (st st' : State) :
  records_inv request_sizes st → step request_sizes algorithm t st = Some st' →
  records_inv request_sizes st'.
Proof.
  intros Hinv Hstep. destruct t as [| |i now]; simpl in Hstep.
  - unfold step_main in Hstep. destruct (pc st) as [|i|i| | | |i| |e] eqn:Hpc.
    + destruct (algorithm_map algorithm); injection Hstep as <-;
        intros j s Hs Hr; unfold is_reset in Hr; simpl in Hr; [lia | done].
    + destruct (pool st !! i) as [si|] eqn:Hi; injection Hstep as <-;
        intros j s Hs Hr; simpl in Hs.
      * unfold is_reset in Hr. simpl in Hr.
        destruct (decide (j = i)) as [-> | Hne].
        -- rewrite list_lookup_insert_eq in Hs by (by eapply lookup_lt_Some).
           injection Hs as <-. simpl. split; constructor.
        -- rewrite list_lookup_insert_ne in Hs by done.
           apply (Hinv j s Hs). unfold is_reset. rewrite Hpc. lia.
      * apply (Hinv j s Hs). unfold is_reset. rewrite Hpc.
        apply lookup_lt_Some in Hs. apply lookup_ge_None in Hi. lia.
    + destruct (pool st !! i) as [si|]; injection Hstep as <-; intros j s Hs _;
        apply (Hinv j s Hs); unfold is_reset; by rewrite Hpc.
    + injection Hstep as <-. intros j s Hs _.
      apply (Hinv j s Hs). unfold is_reset. by rewrite Hpc.
    + destruct (request_thread st); try done; injection Hstep as <-;
        intros j s Hs _; apply (Hinv j s Hs); unfold is_reset; by rewrite Hpc.
    + injection Hstep as <-. intros j s Hs _.
      apply (Hinv j s Hs). unfold is_reset. by rewrite Hpc.
    + destruct (threads st !! i) as [[]|]; try done; injection Hstep as <-;
        intros j s Hs _; apply (Hinv j s Hs); unfold is_reset; by rewrite Hpc.
    + done.
    + done.
  - unfold step_dispatcher in Hstep.
    destruct (request_thread st) as [|k|k i| |e]; try done.
    + destruct (request_sizes !! k); [|by injection Hstep as <-].
      destruct (select_fn st) as [p|]; [|done].
      destruct (call_policy p st) as [e|[i st1]] eqn:Hcall; injection Hstep as <-.
      * done.
      * destruct (call_policy_pool _ _ _ _ Hcall) as [Hpool Hpc].
        intros j s Hs Hr. simpl in Hs. rewrite Hpool in Hs.
        apply (Hinv j s Hs). unfold is_reset in *. simpl in Hr. by rewrite <- Hpc.
    + destruct (request_sizes !! k) as [size|] eqn:Hk; [|done].
      destruct (pool st !! i) as [si|] eqn:Hi; [|done].
      unfold receive_request in Hstep.
      destruct (Qle_bool size 0); injection Hstep as <-; [done|].
      intros j s Hs Hr. simpl in Hs.
      assert (is_reset j st) as Hr' by done.
      destruct (decide (j = i)) as [-> | Hne].
      * rewrite list_lookup_insert_eq in Hs by (by eapply lookup_lt_Some).
        injection Hs as <-. simpl. destruct (Hinv i si Hi Hr') as [H1 H2].
        split; [done|]. apply Forall_app. split; [done|].
        constructor; [|constructor]. split; simpl; [lia|].
        by replace (k + 1 - 1) with k by lia.
      * rewrite list_lookup_insert_ne in Hs by done. exact (Hinv j s Hs Hr').
  - unfold step_worker in Hstep.
    destruct (threads st !! i) as [[]|]; try done.
    destruct (pool st !! i) as [si|] eqn:Hi; [|done].
    unfold process_one in Hstep.
    destruct (pending_requests si) as [|[id size] rest] eqn:Hq.
    + destruct (stop_event st); injection Hstep as <-; done.
    + injection Hstep as <-. intros j s Hs Hr. simpl in Hs.
      assert (is_reset j st) as Hr' by done.
      destruct (decide (j = i)) as [-> | Hne].
      * rewrite list_lookup_insert_eq in Hs by (by eapply lookup_lt_Some).
        injection Hs as <-. simpl. destruct (Hinv i si Hi Hr') as [H1 H2].
        rewrite Hq in H2. apply Forall_cons in H2 as [[Hid Hsize] H2].
        split; [|done]. apply Forall_app. split; [done|].
        constructor; [|constructor]. split; [done|]. by exists size.
      * rewrite list_lookup_insert_ne in Hs by done. exact (Hinv j s Hs Hr').
Qed.

Lemma records_inv_reachable (request_sizes : list Q) (algorithm : string)
    (servers : list Server) (r : rr_closure) (w : wrr_closure) (st : State) :
  reachable request_sizes algorithm (enter servers r w) st →
  records_inv request_sizes st.
Proof.
  apply (reachable_ind request_sizes algorithm (enter servers r w)
           (records_inv request_sizes)).
  - by intros j s _ Hr.
  - intros t st1 st2 _ Hinv Hstep. by eapply records_inv_step.
Qed.
Lemma elem_of_all_results (servers : list Server) (r : Result) :
  r ∈ all_results servers ↔ ∃ j s, servers !! j = Some s ∧ r ∈ result s.
Proof.
  induction servers as [|s0 servers IH]; simpl.
  - split; [by intros ?%elem_of_nil | by intros (j & s & ? & _)].
  - rewrite elem_of_app, IH. split.
    + intros [Hr | (j & s & Hs & Hr)]; [by exists 0, s0 | by exists (S j), s].
    + intros ([|j] & s & Hs & Hr); [left; by simplify_eq/= | right; by exists j, s].
Qed.

Lemma all_results_app (l1 l2 : list Server) :
  all_results (l1 ++ l2) = all_results l1 ++ all_results l2.
Proof.
  induction l1 as [|s l1 IH]; simpl; [done|]. by rewrite IH, app_assoc.
Qed.

Lemma entries_for_none (algorithm : string) (id : nat) (results : list Result) :
  (∀ r : Result, r ∈ results → r.1.1.1 ≠ id) →
  entries_for algorithm id results = [].
Proof.
  induction results as [|r rs IH]; intros Hno; [done|].
  rewrite entries_for_cons, decide_False by (apply Hno; left).
  apply IH. intros r' Hr'. apply Hno. by right.
Qed.

Lemma entries_for_one (algorithm : string) (id : nat) (results : list Result) :
  occurrences id ((λ r : Result, r.1.1.1) <$> results) = 1 →
  ∃ r : Result, r ∈ results ∧ r.1.1.1 = id ∧
    entries_for algorithm id results = [mkEntry algorithm r.1.1.2 r.1.2 r.2].
Proof.
  unfold occurrences. induction results as [|r rs IH]; [done|].
  rewrite fmap_cons, filter_cons, entries_for_cons.
  destruct (decide (r.1.1.1 = id)) as [Hid | Hid].
  - simpl. intros [= Hlen]. exists r. split_and!; [left | done |].
    f_equal. apply entries_for_none. intros r' Hr' Hid'.
    apply length_zero_iff_nil in Hlen.
    assert (id ∈ filter (λ x, x = id) ((λ r : Result, r.1.1.1) <$> rs)) as Hin.
    { apply list_elem_of_filter. split; [done|].
      apply list_elem_of_fmap. by exists r'. }
    rewrite Hlen in Hin. by apply elem_of_nil in Hin.
  - intros Hlen. destruct (IH Hlen) as (r' & Hr' & Hid' & Hent).
    exists r'. split_and!; [by right | done | done].
Qed.

(** The trace that a complete call leaves: every request of the call gets
    one entry, of the server it was dispatched to. *)
Lemma run_trace (request_sizes : list Q) (algorithm : string) (p : Policy)
    (servers : list Server) (c1 c2 : nat) (requests : list Request) (st : State) :
  algorithm_map algorithm = Some p → policy_defined servers p →
  Forall (λ size, (0 < size)%Q) request_sizes →
  length request_sizes ≤ length requests →
  reachable request_sizes algorithm (entry servers c1 c2) st → pc st = MCollect →
  ∃ requests',
    collect algorithm requests (pool st) = inr requests' ∧
    length requests' = length requests ∧
    ∀ k q, requests !! k = Some q →
      (length request_sizes ≤ k → requests' !! k = Some q) ∧
      (∀ size, request_sizes !! k = Some size →
         ∃ i s now, dispatched st !! k = Some i ∧ servers !! i = Some s ∧
           requests' !! k
           = Some (add_entry (mkEntry algorithm (name s) (size / bandwidth s) now) q)).
Proof.
  intros Hp Hdef Hsizes Hlen Hreach Hpc.
  destruct (conservation_at_collect _ _ _ _ _ _ _ Hp Hdef Hsizes Hreach Hpc)
    as (_ & _ & Hids & Hone).
  pose proof (records_inv_reachable _ _ _ _ _ _ Hreach) as Hrec.
  pose proof (inv_reachable _ _ _ _ _ _ Hreach) as [(Hnames & Hbw & _) _].
  assert (∀ r : Result, r ∈ all_results (pool st) →
            1 ≤ r.1.1.1 ≤ length request_sizes) as Hrange.
  { intros r (j & s & Hs & Hr)%elem_of_all_results.
    apply (Hids j s _ Hs). apply list_elem_of_fmap. by exists r. }
  exists (recorded algorithm (all_results (pool st)) requests).
  rewrite collect_all_results, record_results_recorded
    by (apply Forall_forall; intros r Hr; specialize (Hrange r Hr); lia).
  split; [done|]. unfold recorded. split; [by rewrite length_imap|].
  intros k q Hq. rewrite list_lookup_imap, Hq. simpl. split.
  - intros Hk. rewrite entries_for_none.
    + rewrite app_nil_r. by destruct q.
    + intros r Hr. specialize (Hrange r Hr). lia.
  - intros size Hsize.
    destruct (Hone k (lookup_lt_Some _ _ _ Hsize))
      as (i & si & Hd & Hi & Hocc & Hothers).
    assert (∃ s, servers !! i = Some s ∧ name s = name si ∧
                 bandwidth s = bandwidth si) as (s & Hs & Hn & Hb).
    { apply (f_equal (λ l, l !! i)) in Hnames, Hbw.
      simpl in Hnames, Hbw. rewrite !list_lookup_fmap, Hi in Hnames.
      rewrite !list_lookup_fmap, Hi in Hbw.
      destruct (servers !! i) as [s|]; [|done].
      exists s. simpl in *. split_and!; congruence. }
    destruct (entries_for_one algorithm (S k) (result si) Hocc)
      as (r & Hr & Hid & Hent).
    destruct (Hrec i si Hi) as [Hok _]; [unfold is_reset; by rewrite Hpc|].
    rewrite Forall_forall in Hok.
    destruct (Hok r Hr) as (_ & size' & Hsize' & Hname & Hlat).
    rewrite Hid in Hsize'. replace (S k - 1) with k in Hsize' by lia.
    assert (size' = size) as -> by congruence.
    exists i, s, r.2. split_and!; [done | done |].
    f_equal. unfold add_entry. f_equal. f_equal.
    rewrite <- (take_drop_middle _ _ _ Hi), all_results_app. simpl.
    rewrite !entries_for_app, Hent.
    rewrite (entries_for_none _ _ (all_results (take i (pool st)))).
    + rewrite (entries_for_none _ _ (all_results (drop (S i) (pool st)))).
      * simpl. by rewrite Hname, Hlat, Hn, Hb.
      * intros r' (j & s' & Hs' & Hr')%elem_of_all_results Hid'.
        rewrite lookup_drop in Hs'.
        apply (Hothers _ _ Hs'); [lia|].
        apply list_elem_of_fmap. by exists r'.
    + intros r' (j & s' & Hs' & Hr')%elem_of_all_results Hid'.
      pose proof (lookup_lt_Some _ _ _ Hs') as Hj. rewrite length_take in Hj.
      rewrite lookup_take_lt in Hs' by lia.
      apply (Hothers _ _ Hs'); [lia|].
      apply list_elem_of_fmap. by exists r'.
Qed.
(** X14: a call with a registered policy that is defined on the pool, with
    positive sizes and a [requests] list at least as long as
    [request_sizes], can run to its end, and whenever it does, the trace
    loop raises nothing, keeps the length of [requests], leaves the
    requests beyond [request_sizes] as they were and appends to request k
    exactly one entry: labelled with the algorithm, with the name of the
    server request k was dispatched to and the size of the request over
    that server's bandwidth as latency. *)
Theorem run_simulation_trace (request_sizes : list Q) (algorithm : string)
    (p : Policy) (servers : list Server) (c1 c2 : nat) (requests : list Request) :
  algorithm_map algorithm = Some p → policy_defined servers p →
  Forall (λ size, (0 < size)%Q) request_sizes →
  length request_sizes ≤ length requests →
  (∃ st requests',
     run_simulation request_sizes algorithm (entry servers c1 c2) requests
       st requests') ∧
  ∀ st requests',
    run_simulation request_sizes algorithm (entry servers c1 c2) requests
      st requests' →
    length requests' = length requests ∧
    ∀ k q, requests !! k = Some q →
      (length request_sizes ≤ k → requests' !! k = Some q) ∧
      (∀ size, request_sizes !! k = Some size →
         ∃ i s now, dispatched st !! k = Some i ∧ servers !! i = Some s ∧
           requests' !! k
           = Some (add_entry (mkEntry algorithm (name s) (size / bandwidth s) now) q)).
Proof.
  intros Hp Hdef Hsizes Hlen. split.
  - destruct (completes request_sizes algorithm p servers c1 c2 Hp)
      as (sched & st & Hrun & Hpc).
    assert (reachable request_sizes algorithm (entry servers c1 c2) st) as Hreach
      by (by exists sched).
    destruct (run_trace _ _ _ _ _ _ requests _ Hp Hdef Hsizes Hlen Hreach Hpc)
      as (requests' & Hcol & _).
    by exists st, requests'.
  - intros st requests' (Hreach & Hpc & Hcol).
    destruct (run_trace _ _ _ _ _ _ requests _ Hp Hdef Hsizes Hlen Hreach Hpc)
      as (requests1 & Hcol1 & Hlen1 & Htrace).
    assert (requests1 = requests') as -> by congruence. by split.
Qed.

Lemma run_simulation_trace_witness :
  ∃ st requests',
    run_simulation sample_sizes "Least Conn" (entry servers 0 0)
      (init_requests sample_sizes) st requests'.
Proof.
  apply (run_simulation_trace sample_sizes "Least Conn" LeastConn servers 0 0
           (init_requests sample_sizes)).
  - reflexivity.
  - discriminate.
  - repeat constructor.
  - simpl. lia.
Defined.

(** ** The experiment (lines 113-123) *)

Lemma same_pool_lookup (l1 l2 : list Server) (i : nat) (s : Server) :
  name <$> l1 = name <$> l2 → bandwidth <$> l1 = bandwidth <$> l2 →
  l1 !! i = Some s →
  ∃ s', l2 !! i = Some s' ∧ name s' = name s ∧ bandwidth s' = bandwidth s.
Proof.
  intros Hn Hb Hs.
  apply (f_equal (λ l, l !! i)) in Hn, Hb. simpl in Hn, Hb.
  rewrite !list_lookup_fmap, Hs in Hn. rewrite !list_lookup_fmap, Hs in Hb.
  destruct (l2 !! i) as [s'|]; [|done].
  exists s'. simpl in *. split_and!; congruence.
Qed.

Lemma policy_defined_same (servers pool0 : list Server) (p : Policy) :
  servers ≠ [] → build_weighted_list (bandwidth <$> servers) ≠ [] →
  name <$> pool0 = name <$> servers →
  bandwidth <$> pool0 = bandwidth <$> servers →
  policy_defined pool0 p.
Proof.
  intros Hne Hwl Hn Hb.
  assert (pool0 ≠ []) as Hne0 by (intros ->; by destruct servers).
  destruct p; simpl; try done. by rewrite Hb.
Qed.

Lemma lookup_init_requests (request_sizes : list Q) (k : nat) :
  init_requests request_sizes !! k
  = (λ size, mkRequest (k + 1) size []) <$> request_sizes !! k.
Proof. unfold init_requests. by rewrite list_lookup_imap. Qed.

(** The loop of lines 122-123 over registered names, entered after a call
    that left the pool [pool0]. *)
Lemma experiment_trace (request_sizes : list Q) (servers : list Server) :
  servers ≠ [] → build_weighted_list (bandwidth <$> servers) ≠ [] →
  Forall (λ size, (0 < size)%Q) request_sizes →
  ∀ names, Forall (λ a, is_Some (algorithm_map a)) names →
  ∀ st0 pool0 c1 c2 requests,
    next_call st0 = entry pool0 c1 c2 →
    name <$> pool0 = name <$> servers →
    bandwidth <$> pool0 = bandwidth <$> servers →
    length requests = length request_sizes →
    (∃ st requests', experiment request_sizes names st0 requests st requests') ∧
    ∀ st requests', experiment request_sizes names st0 requests st requests' →
      length requests' = length requests ∧
      ∀ k q, requests !! k = Some q →
        ∃ size es,
          request_sizes !! k = Some size ∧
          requests' !! k
          = Some (mkRequest (request_id q) (request_size q)
                            (request_algorithm q ++ es)) ∧
          entry_name <$> es = names ∧
          Forall (entry_of servers size) es.
Proof.
  intros Hne Hwl Hsizes names. induction names as [|a names IH];
    intros Hreg st0 pool0 c1 c2 requests Hnext Hn Hb Hlen.
  - split; [by exists st0, requests|]. intros st requests' [-> ->].
    split; [done|]. intros k q Hq.
    destruct (lookup_lt_is_Some_2 request_sizes k) as [size Hsize].
    { apply lookup_lt_Some in Hq. lia. }
    exists size, []. rewrite app_nil_r. split_and!; try done. by destruct q.
  - apply Forall_cons in Hreg as [[p Hp] Hreg].
    pose proof (policy_defined_same servers pool0 p Hne Hwl Hn Hb) as Hdef.
    assert (pool0 ≠ []) as Hne0 by (intros ->; by destruct servers).
    assert (∀ st1, reachable request_sizes a (entry pool0 c1 c2) st1 →
              pc st1 = MCollect →
              ∃ c1' c2', next_call st1 = entry (pool st1) c1' c2' ∧
                name <$> pool st1 = name <$> servers ∧
                bandwidth <$> pool st1 = bandwidth <$> servers) as Hafter.
    { intros st1 Hreach Hpc.
      rewrite (next_call_entry _ _ _ _ _ _ _ Hp Hdef Hsizes Hreach Hpc).
      pose proof (inv_reachable _ _ _ _ _ _ Hreach) as [(Hn1 & Hb1 & _) _].
      do 2 eexists. split_and!; [done | congruence | congruence]. }
    split.
    + destruct (completes request_sizes a p pool0 c1 c2 Hp)
        as (sched & st1 & Hrun & Hpc).
      assert (reachable request_sizes a (entry pool0 c1 c2) st1) as Hreach
        by (by exists sched).
      destruct (run_trace _ _ _ _ _ _ requests _ Hp Hdef Hsizes
                  ltac:(lia) Hreach Hpc) as (requests1 & Hcol & Hlen1 & _).
      destruct (Hafter st1 Hreach Hpc) as (c1' & c2' & Hnext1 & Hn1 & Hb1).
      destruct (IH Hreg st1 (pool st1) c1' c2' requests1 Hnext1 Hn1 Hb1
                  ltac:(lia)) as [(st & requests' & Hexp) _].
      exists st, requests'. simpl. exists st1, requests1.
      split; [|done]. rewrite Hnext. by split_and!.
    + intros st requests' (st1 & requests1 & Hrun & Hexp).
      rewrite Hnext in Hrun. destruct Hrun as (Hreach & Hpc & Hcol).
      destruct (run_trace _ _ _ _ _ _ requests _ Hp Hdef Hsizes
                  ltac:(lia) Hreach Hpc) as (requests1' & Hcol' & Hlen1 & Htrace).
      assert (requests1' = requests1) as -> by congruence.
      destruct (Hafter st1 Hreach Hpc) as (c1' & c2' & Hnext1 & Hn1 & Hb1).
      destruct (IH Hreg st1 (pool st1) c1' c2' requests1 Hnext1 Hn1 Hb1
                  ltac:(lia)) as [_ Hall].
      destruct (Hall st requests' Hexp) as [Hlen' Hrest].
      split; [lia|]. intros k q Hq.
      destruct (lookup_lt_is_Some_2 request_sizes k) as [size Hsize].
      { apply lookup_lt_Some in Hq. lia. }
      destruct (Htrace k q Hq) as [_ Hk].
      destruct (Hk size Hsize) as (i & s & now & _ & Hs & Hq1).
      destruct (Hrest k _ Hq1) as (size' & es & Hsize' & Hq' & Hnames & Hes).
      assert (size' = size) as -> by congruence.
      exists size,
        (mkEntry a (name s) (size / bandwidth s) now :: es).
      split_and!; [done | | by simpl; f_equal |].
      * rewrite Hq'. simpl. by rewrite <- app_assoc.
      * constructor; [|done].
        destruct (same_pool_lookup pool0 servers i s Hn Hb Hs)
          as (s' & Hs' & Hn' & Hb').
        exists s'. simpl. split_and!; [by eapply list_elem_of_lookup_2 | done |].
        by rewrite Hb'.
Qed.

(** X15: for a non-empty pool whose weighted round-robin list is not empty
    and positive request sizes, the loop of lines 122-123 over the four
    registered algorithms runs to its end, and whenever it does, the request
    at position k of the trace has id k + 1, its size, and exactly four
    entries, labelled
    Round Robin, Weighted RR, Least Conn, Optimized in this order, each with
    the name of a server of the pool and the request's size over that
    server's bandwidth as latency. *)
Theorem experiment_records_every_algorithm (request_sizes : list Q)
    (servers : list Server) :
  servers ≠ [] → build_weighted_list (bandwidth <$> servers) ≠ [] →
  Forall (λ size, (0 < size)%Q) request_sizes →
  (∃ st requests',
     experiment request_sizes algorithms (first_call servers)
       (init_requests request_sizes) st requests') ∧
  ∀ st requests',
    experiment request_sizes algorithms (first_call servers)
      (init_requests request_sizes) st requests' →
    length requests' = length request_sizes ∧
    ∀ k size, request_sizes !! k = Some size →
      ∃ es, requests' !! k = Some (mkRequest (k + 1) size es) ∧
            entry_name <$> es = algorithms ∧
            Forall (entry_of servers size) es.
Proof.
  intros Hne Hwl Hsizes.
  assert (Forall (λ a, is_Some (algorithm_map a)) algorithms) as Hreg
    by (repeat constructor; by eexists).
  assert (length (init_requests request_sizes) = length request_sizes) as Hlen
    by (unfold init_requests; by rewrite length_imap).
  destruct (experiment_trace request_sizes servers Hne Hwl Hsizes algorithms Hreg
              (first_call servers) servers 0 0 (init_requests request_sizes)
              eq_refl eq_refl eq_refl Hlen) as [Hex Hall].
  split; [done|]. intros st requests' Hexp.
  destruct (Hall st requests' Hexp) as [Hlen' Hk]. split; [lia|].
  intros k size Hsize.
  destruct (Hk k (mkRequest (k + 1) size [])) as (size' & es & Hsize' & Hq & Hes).
  { by rewrite lookup_init_requests, Hsize. }
  assert (size' = size) as -> by congruence.
  exists es. by split.
Qed.

Lemma experiment_records_every_algorithm_witness :
  ∃ st requests',
    experiment sample_sizes algorithms
      (first_call [mkServer "A" 2 [] []; mkServer "B" 1 [] []])
      (init_requests sample_sizes) st requests'.
Proof.
  apply (experiment_records_every_algorithm sample_sizes
           [mkServer "A" 2 [] []; mkServer "B" 1 [] []]).
  - discriminate.
  - vm_compute. discriminate.
  - repeat constructor.
Defined.
(** X16: under weighted round-robin a server with [int(bandwidth)] = 0, that
    is, with a bandwidth below 1, is never selected, whatever the counter of
    the closure: when all workers are joined its total is 0. *)
Theorem weighted_run_skips_weightless (request_sizes : list Q)
    (algorithm : string) (servers : list Server) (c1 c2 : nat) (st : State)
    (j : nat) (s : Server) :
  algorithm_map algorithm = Some WeightedRR →
  reachable request_sizes algorithm (entry servers c1 c2) st →
  servers !! j = Some s → weight s = 0 →
  (j ∉ dispatched st) ∧ (pc st = MCollect → totals st !! j = Some 0).
Proof.
  intros Hp Hreach Hs Hw. pose proof (inv_reachable _ _ _ _ _ _ Hreach) as Hinv.
  assert (j ∉ dispatched st) as Hnot.
  { intros (k & Hk)%list_elem_of_lookup_1.
    destruct (inv_weighted _ _ _ _ _ _ Hinv Hp) as [Hch _].
    apply Hch in Hk.
    apply (weighted_list_block servers) in Hk as (s' & Hs' & Hb).
    assert (s' = s) as -> by congruence. lia. }
  split; [done|]. intros Hpc.
  rewrite (totals_occurrences _ _ _ _ _ _ Hinv Hpc), list_lookup_fmap.
  rewrite lookup_seq_lt by (by eapply lookup_lt_Some). simpl. f_equal.
  by apply occurrences_zero.
Qed.

Lemma weighted_run_skips_weightless_witness :
  totals (default (first_call [mkServer "A" 2 [] []; mkServer "B" (1 # 2) [] []])
            (sequential sample_sizes "Weighted RR" 200
               (first_call [mkServer "A" 2 [] []; mkServer "B" (1 # 2) [] []])))
    !! 1 = Some 0.
Proof.
  destruct (weighted_run_skips_weightless sample_sizes "Weighted RR"
              [mkServer "A" 2 [] []; mkServer "B" (1 # 2) [] []] 0 0
              (default (first_call [mkServer "A" 2 [] []; mkServer "B" (1 # 2) [] []])
                 (sequential sample_sizes "Weighted RR" 200
                    (first_call [mkServer "A" 2 [] []; mkServer "B" (1 # 2) [] []])))
              1 (mkServer "B" (1 # 2) [] [])) as [_ H].
  - reflexivity.
  - exists (sequential_schedule sample_sizes "Weighted RR" 200
              (first_call [mkServer "A" 2 [] []; mkServer "B" (1 # 2) [] []])).
    vm_compute. reflexivity.
  - reflexivity.
  - reflexivity.
  - apply H. vm_compute. reflexivity.
Defined.
